(** * Video segments worker: the queue consumer and the Segmenter pipeline

    A shallow embedding of the worker entry point (the [bus.on('video')]
    handler) and of [lib/segmenter] ([downloadToLocal], [getVideoMetadata],
    [extractSegments], [uploadToS3], [processSegment], [processBatch] and
    [Segmenter.prototype.downloadAndExtractToS3]).

    The external collaborators (tmp, request, ffmpeg, S3, the bus) are not
    re-implemented: a [World] records what each of them answers, and the
    program is a function from a world to the trace of effects it performs.
    An uncaught JavaScript exception ends the trace: nothing in the worker
    catches it, so the process dies there. *)

From Stdlib Require Import ZArith QArith String Ascii List Lia DecimalString DecimalPos.
From stdpp Require Import base option list gmap strings.

Local Open Scope string_scope.
Local Open Scope Z_scope.

#[local] Set Warnings "-clear-no-such-hyp".

(** ** Strings: the pieces of [String.prototype] and of Node's [path] used *)

Module Str.

Definition is_slash (c : ascii) : bool := Ascii.eqb c "/".
Definition is_dot (c : ascii) : bool := Ascii.eqb c ".".

(** [\d] of a non-unicode JavaScript regular expression: [0-9]. *)
Definition is_digit (c : ascii) : bool :=
  let n := nat_of_ascii c in (48 <=? n)%nat && (n <=? 57)%nat.

Definition digit_value (c : ascii) : Z := Z.of_nat (nat_of_ascii c) - 48.

Fixpoint drop_while {A} (p : A -> bool) (l : list A) : list A :=
  match l with
  | [] => []
  | x :: r => if p x then drop_while p r else l
  end.

Fixpoint take_while {A} (p : A -> bool) (l : list A) : list A :=
  match l with
  | [] => []
  | x :: r => if p x then x :: take_while p r else []
  end.

Definition chars (s : string) : list ascii := list_ascii_of_string s.
Definition of_chars (l : list ascii) : string := string_of_list_ascii l.

(** [s.substring(1)]. *)
Definition substring1 (s : string) : string :=
  match s with
  | EmptyString => EmptyString
  | String _ r => r
  end.

Fixpoint ends_with_chars (suffix_rev l_rev : list ascii) : bool :=
  match suffix_rev, l_rev with
  | [], _ => true
  | _ :: _, [] => false
  | a :: s, b :: l => Ascii.eqb a b && ends_with_chars s l
  end.

(** The replacement text of [s.replace(pat, rep)] with its [$]-patterns
    expanded: [$$] is a dollar sign, [$&] the matched text, [$`] the text
    before the match and [$'] the text after it. A string pattern has no
    capture groups, so every other [$] stands for itself. *)
Fixpoint expand (rep matched before after : string) : string :=
  match rep with
  | EmptyString => EmptyString
  | String c r =>
      if Ascii.eqb c "$" then
        match r with
        | EmptyString => String c EmptyString
        | String d r' =>
            if Ascii.eqb d "$" then String "$" (expand r' matched before after)
            else if Ascii.eqb d "&" then matched +:+ expand r' matched before after
            else if Ascii.eqb d "`" then before +:+ expand r' matched before after
            else if Ascii.eqb d "'" then after +:+ expand r' matched before after
            else String c (expand r matched before after)
        end
      else String c (expand r matched before after)
  end.

(** The search of [replace] from the position reached, [before_rev]
    being the text passed so far, last character first. *)
Fixpoint replace_at (before_rev : list ascii) (s pat rep : string) : string :=
  if String.prefix pat s then
    let after := String.substring (String.length pat) (String.length s) s in
    expand rep pat (of_chars (rev before_rev)) after +:+ after
  else match s with
       | EmptyString => EmptyString
       | String c r => String c (replace_at (c :: before_rev) r pat rep)
       end.

(** [s.replace(pat, rep)] with a string pattern: only the first
    occurrence is replaced; an empty pattern matches at position 0. *)
Definition replace_first (s pat rep : string) : string := replace_at [] s pat rep.

End Str.

(** Node's [path] module, POSIX flavour. *)
Module Path.
Import Str.

(** The last portion of the path, trailing slashes ignored. *)
Definition last_portion_rev (p : string) : list ascii :=
  take_while (fun c => negb (is_slash c)) (drop_while is_slash (rev (chars p))).

(** [path.extname(p)]: from the last dot of the last portion to its end;
    empty when there is no dot, when the only dot is the first character,
    and for [..]. *)
Definition extname (p : string) : string :=
  let b := last_portion_rev p in
  let after := take_while (fun c => negb (is_dot c)) b in
  match drop_while (fun c => negb (is_dot c)) b with
  | [] => ""
  | _dot :: [] => ""
  | _dot :: _ =>
      if bool_decide (b = ["."%char; "."%char]) then ""
      else of_chars (rev (after ++ ["."%char])%list)
  end.

(** [path.basename(p, ext)]: the last portion, with [ext] cut off its end
    when it ends with [ext] and is not [ext] itself; empty when the whole
    path is [ext]. *)
Definition basename (p : string) (ext : option string) : string :=
  let b := last_portion_rev p in
  match ext with
  | None => of_chars (rev b)
  | Some e =>
      let e_rev := rev (chars e) in
      if (0 <? length e_rev)%nat && bool_decide (e = p) then ""
      else if (0 <? length e_rev)%nat && (length e_rev <? length b)%nat && ends_with_chars e_rev b
      then of_chars (rev (drop (length e_rev) b))
      else of_chars (rev b)
  end.

(** The segments of a path, between its slashes; [cur_rev] is the
    segment being read, last character first. *)
Fixpoint split_slash (cur_rev l : list ascii) : list (list ascii) :=
  match l with
  | [] => [rev cur_rev]
  | c :: r => if is_slash c then rev cur_rev :: split_slash [] r
              else split_slash (c :: cur_rev) r
  end.

(** One segment of [normalizeString]: an empty segment and [.] are
    dropped, [..] removes the segment before it (or is kept, in a relative
    path, when there is none to remove); [res_rev] holds the segments
    kept so far, last one first. *)
Definition resolve (allowAboveRoot : bool) (res_rev : list (list ascii)) (seg : list ascii)
    : list (list ascii) :=
  if bool_decide (seg = []) || bool_decide (seg = ["."%char]) then res_rev
  else if bool_decide (seg = ["."%char; "."%char]) then
    match res_rev with
    | last :: rest =>
        if bool_decide (last = ["."%char; "."%char])
        then (if allowAboveRoot then seg :: res_rev else res_rev)
        else rest
    | [] => if allowAboveRoot then [seg] else []
    end
  else seg :: res_rev.

Fixpoint join_segments (segs : list (list ascii)) : list ascii :=
  match segs with
  | [] => []
  | [seg] => seg
  | seg :: r => (seg ++ "/"%char :: join_segments r)%list
  end.

(** [path.normalize(p)]. *)
Definition normalize (p : string) : string :=
  match chars p with
  | [] => "."
  | (first :: _) as l =>
      let isAbsolute := is_slash first in
      let trailingSeparator := match rev l with c :: _ => is_slash c | [] => false end in
      let body :=
        join_segments (rev (fold_left (resolve (negb isAbsolute)) (split_slash [] l) [])) in
      match body with
      | [] => if isAbsolute then "/" else if trailingSeparator then "./" else "."
      | _ :: _ =>
          of_chars ((if isAbsolute then ["/"%char] else []) ++ body
                    ++ (if trailingSeparator then ["/"%char] else []))%list
      end
  end.

(** [path.join(a, b)]: the non-empty arguments joined by a slash, then
    normalised. *)
Definition join (a b : string) : string :=
  match a, b with
  | EmptyString, EmptyString => "."
  | EmptyString, _ => normalize b
  | _, EmptyString => normalize a
  | _, _ => normalize (a +:+ "/" +:+ b)
  end.

End Path.

(** ** Values *)

(** An error value. [fatal = None] is an error object without a [fatal]
    property; only [Some true] is truthy in [err.fatal]. *)
Record JsError := { message : string; fatal : option bool }.

Definition is_fatal (err : JsError) : bool :=
  match fatal err with
  | Some true => true
  | _ => false
  end.

(** [{idx, uri, fps}], built by [processSegment]. *)
Record Segment := { idx : Z; uri : string; fps : Q }.

(** The object [publishSegmentEvent] hands to the bus. *)
Record SegmentEvent := { ev_uri : string; video_id : string; segment_idx : Z; ev_fps : Q }.

(** The decoded body of a queue message, [{id, uri}]. *)
Record Job := { job_id : string; job_uri : string }.

(** [video.metadata], of which the pipeline reads [metadata.video.fps]. *)
Record Metadata := { video_fps : Q }.

(** The result object [res] of the pipeline: frame index to URI. *)
Abbreviation JobResult := (gmap Z string).

(** ** Effects *)

Inductive LogLine :=
| NewVideo (video : Job)
| ProcessingFailed (video_uri : string) (err : JsError)
| ProcessingCompleted (video_uri : string).

Inductive Event :=
| Log (line : LogLine)                              (* debug(...) of the worker *)
| ConsoleError (err : JsError)                      (* console.error(err) *)
| MsgFinish                                         (* msg.finish() *)
| Publish (segment : SegmentEvent)                  (* bus.publishVideoSegmentCreated *)
| TmpFile                                           (* tmp.file(...) *)
| TmpDir                                            (* tmp.dir(...) *)
| CleanupFile                                       (* cleanup_file() *)
| CleanupDir                                        (* cleanup_dir() *)
| HttpGet (uri filePath : string)                   (* request.get(uri).pipe(file) *)
| FfmpegOpen (videoPath : string)                   (* new ffmpeg(videoPath) *)
| FfmpegExtract (videoPath filePattern : string)    (* video.fnExtractSegments *)
| S3Upload (bucket key : string) (contentType : option string)   (* s3.upload(params, ...) *)
| EmitSegment (segment : Segment)                   (* segmenter.emit('segment', segment) *)
| EmitError (err : JsError)                         (* segmenter.emit('error', err) *)
| EmitEnd (res : JobResult)                         (* sequencer.emit('end', res) *)
| Return (err : option JsError) (res : option JobResult).   (* fn(err, res) *)

Inductive Exn :=
| ReferenceError (name : string)     (* <name> is not defined *)
| TypeError (what : string)          (* property read on undefined or null *)
| Unhandled (err : JsError).         (* emit('error') without a listener *)

(** A computation: the effects performed, then a value or the exception
    that stopped it. *)
Definition M (A : Type) : Type := list Event * (Exn + A).

#[export] Instance M_ret : MRet M := fun A a => ([], inr a).

#[export] Instance M_bind : MBind M := fun A B k m =>
  match m with
  | (t, inl x) => (t, inl x)
  | (t, inr a) => ((t ++ fst (k a))%list, snd (k a))
  end.

Definition tell (e : Event) : M unit := ([e], inr tt).
Definition throw {A} (x : Exn) : M A := ([], inl x).

Definition trace {A} (m : M A) : list Event := fst m.
Definition outcome {A} (m : M A) : Exn + A := snd m.

Fixpoint for_each {A} (f : A -> M unit) (l : list A) : M unit :=
  match l with
  | [] => mret tt
  | x :: r => f x;; for_each f r
  end.

Fixpoint map_each {A B} (f : A -> M B) (l : list A) : M (list B) :=
  match l with
  | [] => mret []
  | x :: r => y ← f x; ys ← map_each f r; mret (y :: ys)
  end.

(** A node-style callback [fn(err, value)]. *)
Definition Callback (A : Type) : Type := option JsError -> option A -> M unit.

(** ** The world outside the process *)

(** What [new ffmpeg(path)] does: throw, reject its promise, or resolve. *)
Inductive Ffmpeg (A : Type) :=
| Throws (err : JsError)
| Rejects (err : JsError)
| Resolves (video : A).
Arguments Throws {A} err.
Arguments Rejects {A} err.
Arguments Resolves {A} video.

(** How the piped request ends: an ['error'] event of the request, or the
    ['finish'] event of the file stream (whose close may fail). *)
Inductive DownloadEnd :=
| TransportError (err : JsError)
| Finished (close_error : option JsError).

(** One download: at most one ['response'] (status code and content-type
    header), then its end. *)
Record Download := {
  response : option (Z * option string);
  ending : DownloadEnd
}.

(** What the collaborators answer in one run. The record does not tie an
    answer to its request: it admits a temporary file of any name and a
    response to any URI, which is more than tmp and request can give. The
    statements hold for every world; where one depends on the names that
    tmp makes, or on the URI, it says so in a hypothesis. *)
Record World := {
  tmp_file : JsError + string;                       (* tmp.file: err or video_path *)
  http : Download;
  ffmpeg_probe : Ffmpeg Metadata;                    (* in getVideoMetadata *)
  tmp_dir : JsError + string;                        (* tmp.dir: err or dir_path *)
  ffmpeg_extract : Ffmpeg (JsError + list string);   (* in extractSegments *)
  s3_upload : nat -> option JsError;                 (* s3.upload of the n-th task *)
  s3_latency : nat -> nat;                           (* when that upload calls back *)
  bus_publish : Z -> option JsError                  (* publish of the segment with that index *)
}.

(** The identifiers that [lib/segmenter] reads without declaring them: they
    resolve on the global object, and reading one that is absent throws a
    ReferenceError. *)
Record Globals := {
  g_videoUri : option string;
  g_frames : option (list string);
  g_contentType : option (option string);
  g_shivaUtils : option (string -> string -> string);   (* shivaUtils.getS3Uri *)
  g_sequencer : option unit
}.

Definition lookup_global {A} (name : string) (v : option A) : M A :=
  match v with
  | Some a => mret a
  | None => throw (ReferenceError name)
  end.

(** ** lib/segmenter *)

(** [new Segmenter(options)], then [.on('segment', ...)] and
    [.on('error', ...)]: the batch size and the listeners. *)
Record Segmenter := {
  batchSize : Z;
  on_segment : option (Segment -> M unit);
  on_error : option (JsError -> M unit)
}.

(** [this.options.batchSize = this.options.batchSize || 10], for an
    integer option: absent and [0] are falsy. *)
Definition new_Segmenter (options_batchSize : option Z) : Segmenter :=
  {| batchSize := match options_batchSize with
                  | Some b => if b =? 0 then 10 else b
                  | None => 10
                  end;
     on_segment := None;
     on_error := None |}.

Definition emit_segment (segmenter : Segmenter) (segment : Segment) : M unit :=
  tell (EmitSegment segment);;
  match on_segment segmenter with
  | Some listener => listener segment
  | None => mret tt
  end.

(** An EventEmitter throws the error of an ['error'] event that has no
    listener. *)
Definition emit_error (segmenter : Segmenter) (err : JsError) : M unit :=
  tell (EmitError err);;
  match on_error segmenter with
  | Some listener => listener err
  | None => throw (Unhandled err)
  end.

(** *** downloadToLocal *)

Definition string_of_Z (z : Z) : string := NilZero.string_of_int (Z.to_int z).

(** The error made for a response that is not a 200: a new [Error] with
    [fatal] set. *)
Definition status_error (uri : string) (statusCode : Z) : JsError :=
  {| message := "Invalid status code: " +:+ string_of_Z statusCode
                +:+ " while downloading " +:+ uri;
     fatal := Some true |}.

(** The ['response'] handler; returns the closure variables [error] and
    [contentType] as it leaves them. *)
Definition download_on_response (uri : string) (statusCode : Z) (content_type : option string)
    (fn : Callback string) : M (option JsError * option string) :=
  if negb (200 =? statusCode) then
    let error := status_error uri statusCode in
    fn (Some error) None;;
    mret (Some error, None)
  else mret (None, content_type).

(** The ['error'] handler of the request. *)
Definition download_on_error (err : JsError) (fn : Callback string) : M unit :=
  fn (Some err) None.

(** The ['finish'] handler of the file stream. *)
Definition download_on_finish (error : option JsError) (contentType : option string)
    (close_error : option JsError) (fn : Callback string) : M unit :=
  match error with
  | Some _ => mret tt
  | None =>
      match close_error with
      | Some err => fn (Some err) None
      | None => fn None contentType
      end
  end.

Definition downloadToLocal (uri filePath : string) (d : Download) (fn : Callback string) : M unit :=
  tell (HttpGet uri filePath);;
  st ← match response d with
       | Some (statusCode, content_type) => download_on_response uri statusCode content_type fn
       | None => mret (None, None)
       end;
  match ending d with
  | TransportError err => download_on_error err fn
  | Finished close_error => download_on_finish (fst st) (snd st) close_error fn
  end.

(** *** extractSegments and getVideoMetadata *)

(** The output name pattern handed to ffmpeg. *)
Definition filePattern (videoPath format toDir : string) : string :=
  let ext := Path.extname videoPath in
  Path.join toDir (Str.replace_first (Path.basename videoPath None) ext ("_%d." +:+ format)).

Definition extractSegments (videoPath format toDir : string)
    (tool : Ffmpeg (JsError + list string)) (fn : Callback (list string)) : M unit :=
  tell (FfmpegOpen videoPath);;
  match tool with
  | Throws err => fn (Some err) None
  | Rejects err => fn (Some err) None
  | Resolves extraction =>
      tell (FfmpegExtract videoPath (filePattern videoPath format toDir));;
      match extraction with
      | inl err => fn (Some err) None
      | inr files => fn None (Some files)
      end
  end.

Definition getVideoMetadata (videoPath : string) (tool : Ffmpeg Metadata)
    (fn : Callback Metadata) : M unit :=
  tell (FfmpegOpen videoPath);;
  match tool with
  | Throws err => fn (Some err) None
  | Rejects err => fn (Some err) None
  | Resolves metadata => fn None (Some metadata)
  end.

(** *** uploadToS3 *)

(** [fileName] and [key] of [uploadToS3]; an empty string is falsy. *)
Definition s3_key (filePath s3Subdir : string) (s3FileName : option string) : string :=
  let fileName := match s3FileName with
                  | Some name =>
                      if bool_decide (name = "") then Path.basename filePath None else name
                  | None => Path.basename filePath None
                  end in
  if bool_decide (s3Subdir = "") then fileName else s3Subdir +:+ "/" +:+ fileName.

(** [uploadToS3] up to the call of [s3.upload]. *)
Definition uploadToS3 (filePath s3Bucket s3Subdir : string) (s3FileName : option string)
    (contentType : option string) : M unit :=
  tell (S3Upload s3Bucket (s3_key filePath s3Subdir s3FileName) contentType).

(** The callback [uploadToS3] gives to [s3.upload]: what it passes on to
    its own [fn]. *)
Definition uploadToS3_done (G : Globals) (filePath s3Bucket s3Subdir : string)
    (s3FileName : option string) (upload_err : option JsError) : M (JsError + string) :=
  match upload_err with
  | Some err => mret (inl err)
  | None =>
      getS3Uri ← lookup_global "shivaUtils" (g_shivaUtils G);
      mret (inr (getS3Uri s3Bucket (s3_key filePath s3Subdir s3FileName)))
  end.

Definition getObjectUri (s3_bucket key_name : string) : string :=
  "https://" +:+ s3_bucket +:+ ".s3.amazonaws.com/" +:+ key_name.

(** *** processSegment *)

Fixpoint take_digits (s : string) : string :=
  match s with
  | EmptyString => EmptyString
  | String c r => if Str.is_digit c then String c (take_digits r) else EmptyString
  end.

(** [/_(\d+)/.exec(fileName)]: the first underscore that a digit follows,
    and the longest run of digits after it ([match[1]]); [None] is the
    [null] of a failed match. *)
Fixpoint pattern_exec (fileName : string) : option string :=
  match fileName with
  | EmptyString => None
  | String c r =>
      if Ascii.eqb c "_" then
        match take_digits r with
        | EmptyString => pattern_exec r
        | digits => Some digits
        end
      else pattern_exec r
  end.

(** One step of [parseInt]: the value so far, then one more digit. *)
Definition parse_step (acc : Z) (c : ascii) : Z := 10 * acc + Str.digit_value c.

(** [parseInt] of a run of decimal digits, as the integer it denotes. A
    JavaScript number is this integer when it is below 2^53; the
    statements about the value of an index ask for that. *)
Definition parseInt (digits : string) : Z :=
  fold_left parse_step (Str.chars digits) 0.

(** One upload task: its number among the tasks of the job, and the
    arguments [processSegment] closed over. *)
Record Task := { task_no : nat; task_file : string; task_fps : Q }.

(** The task function returned by [processSegment], up to [s3.upload]. *)
Definition processSegment (G : Globals) (s3_bucket s3_dir : string) (t : Task) : M unit :=
  contentType ← lookup_global "contentType" (g_contentType G);
  uploadToS3 (task_file t) s3_bucket s3_dir None contentType.

(** The callback [processSegment] gives to [uploadToS3]: what it passes on
    to the task's [fn]. *)
Definition processSegment_done (G : Globals) (W : World) (segmenter : Segmenter)
    (s3_bucket s3_dir : string) (t : Task) : M (JsError + Segment) :=
  r ← uploadToS3_done G (task_file t) s3_bucket s3_dir None (s3_upload W (task_no t));
  match r with
  | inl err => mret (inl err)
  | inr uri =>
      let fileName := Path.basename (task_file t) None in
      match pattern_exec fileName with
      | None => throw (TypeError "match[1]")
      | Some digits =>
          let segment := {| idx := parseInt digits; uri := uri; fps := task_fps t |} in
          emit_segment segmenter segment;;
          mret (inr segment)
      end
  end.

(** *** async.parallel and async.series

    A task is given by what it does when called ([start], up to its
    asynchronous call) and by what it passes to its callback when that call
    completes ([done]). [async.parallel] calls every task at once; the
    asynchronous calls then complete in the order of their latencies. The
    final callback is called once: with the first error, or with all the
    results. Tasks still in flight at the first error complete after it,
    and what they report is dropped. *)
Section Async.
Context {T R : Type}.
Variable start : T -> M unit.
Variable done : T -> M (JsError + R).
Variable latency : T -> nat.

(** What the final callback receives; on an error, also the tasks still
    in flight. *)
Inductive Outcome (A : Type) :=
| Done (results : A)
| Failed (err : JsError) (in_flight : list T).

Fixpoint insert_by_latency (x : nat * T) (l : list (nat * T)) : list (nat * T) :=
  match l with
  | [] => [x]
  | y :: r =>
      if (latency (snd x) <=? latency (snd y))%nat then x :: l
      else y :: insert_by_latency x r
  end.

(** The tasks, each with its key, in the order in which they complete. *)
Definition completion_order (l : list (nat * T)) : list (nat * T) :=
  foldr insert_by_latency [] l.

(** [results[key] = value] per completion; [results] has a hole ([None])
    for each task that has not completed. *)
Fixpoint completions (cs : list (nat * T)) (results : list (option R)) : M (Outcome (list R)) :=
  match cs with
  | [] => mret (Done _ (omap id results))
  | (key, t) :: cs' =>
      r ← done t;
      match r with
      | inl err => mret (Failed _ err (snd <$> cs'))
      | inr value => completions cs' (<[key := Some value]> results)
      end
  end.

Definition parallel (tasks : list T) : M (Outcome (list R)) :=
  for_each start tasks;;
  completions (completion_order (imap pair tasks)) (replicate (length tasks) None).

Definition stragglers (in_flight : list T) : M unit :=
  for_each (fun t => done t;; mret tt) in_flight.

Fixpoint series (batches : list (list T)) : M (Outcome (list (list R))) :=
  match batches with
  | [] => mret (Done _ [])
  | batch :: rest =>
      r ← parallel batch;
      match r with
      | Failed _ err in_flight => mret (Failed _ err in_flight)
      | Done _ results =>
          r' ← series rest;
          match r' with
          | Failed _ err in_flight => mret (Failed _ err in_flight)
          | Done _ more => mret (Done _ (results :: more))
          end
      end
  end.
End Async.

Arguments Done {T A} results.
Arguments Failed {T A} err in_flight.

(** *** downloadAndExtractToS3 *)

(** [array.slice(start, end)]. *)
Definition js_slice {A} (l : list A) (start end_ : Z) : list A :=
  let len := Z.of_nat (length l) in
  let k := if start <? 0 then Z.max (len + start) 0 else Z.min start len in
  let final := if end_ <? 0 then Z.max (len + end_) 0 else Z.min end_ len in
  take (Z.to_nat (final - k)) (drop (Z.to_nat k) l).

(** The loop that breaks the tasks into batches. [Math.floor] of the
    quotient of two integers is [Z.div] (which rounds down). *)
Definition batches {A} (batchSize : Z) (segmentTasks : list A) : list (list A) :=
  let len := Z.of_nat (length segmentTasks) in
  let batchNumber := len / batchSize + 1 in
  (fun i => js_slice segmentTasks (i * batchSize) (Z.min ((i + 1) * batchSize) len))
    <$> seqZ 0 batchNumber.

(** [res[f.idx] = f.uri] for every [f] of every batch. *)
Definition merge_results (results : list (list Segment)) : JobResult :=
  foldl (fun res b => foldl (fun res f => <[idx f := uri f]> res) res b) ∅ results.

(** [metadata.video.fps]; [metadata] is undefined when the probe failed. *)
Definition metadata_video_fps (metadata : option Metadata) : M Q :=
  match metadata with
  | Some m => mret (video_fps m)
  | None => throw (TypeError "metadata.video")
  end.

Definition invoke (fn : Callback JobResult) (err : option JsError) (res : option JobResult)
  : M unit :=
  tell (Return err res);;
  fn err res.

(** The [handleError] closure of [downloadAndExtractToS3]. *)
Definition handleError (segmenter : Segmenter) (fn : Callback JobResult) (err : JsError) : M unit :=
  emit_error segmenter err;;
  invoke fn (Some err) None.

(** The [s3_dir] of [downloadAndExtractToS3]. *)
Definition s3_dir_of (video_uri : string) : string :=
  Path.basename video_uri (Some (Path.extname video_uri)).

(** The tasks pushed by the [frames.forEach] loop, numbered in order. *)
Definition segmentTasks (frames : list string) (metadata : option Metadata) : M (list Task) :=
  tasks ← map_each (fun file => fps ← metadata_video_fps metadata; mret (file, fps)) frames;
  mret (imap (fun n task => {| task_no := n; task_file := fst task; task_fps := snd task |}) tasks).

(** The body of the [extractSegments] callback after [cleanup_file()] and
    the error check: upload, merge, clean up, return. *)
Definition upload_and_finish (G : Globals) (W : World) (segmenter : Segmenter)
    (video_uri s3_bucket : string) (metadata : option Metadata)
    (fn : Callback JobResult) : M unit :=
  let s3_dir := s3_dir_of video_uri in
  frames ← lookup_global "frames" (g_frames G);
  tasks ← segmentTasks frames metadata;
  r ← series (processSegment G s3_bucket s3_dir)
             (processSegment_done G W segmenter s3_bucket s3_dir)
             (fun t => s3_latency W (task_no t))
             (batches (batchSize segmenter) tasks);
  match r with
  | Failed err in_flight =>
      handleError segmenter fn err;;
      stragglers (processSegment_done G W segmenter s3_bucket s3_dir) in_flight
  | Done results =>
      let res := merge_results results in
      tell CleanupDir;;
      _ ← lookup_global "sequencer" (g_sequencer G);
      tell (EmitEnd res);;
      invoke fn None (Some res)
  end.

(** The callback given to [getVideoMetadata]; its [err] is not read. *)
Definition after_probe (G : Globals) (W : World) (segmenter : Segmenter)
    (video_uri s3_bucket video_path : string) (fn : Callback JobResult) : Callback Metadata :=
  fun _ metadata =>
    tell TmpDir;;
    match tmp_dir W with
    | inl err => handleError segmenter fn err
    | inr dir_path =>
        videoUri ← lookup_global "videoUri" (g_videoUri G);
        let format := Str.substring1 (Path.extname videoUri) in
        extractSegments video_path format dir_path (ffmpeg_extract W) (fun err files =>
          tell CleanupFile;;
          match err with
          | Some err => handleError segmenter fn err
          | None => upload_and_finish G W segmenter video_uri s3_bucket metadata fn
          end)
    end.

Definition downloadAndExtractToS3 (G : Globals) (W : World) (segmenter : Segmenter)
    (video_uri s3_bucket : string) (fn : option (Callback JobResult)) : M unit :=
  let fn := default (fun _ _ => mret tt) fn in
  tell TmpFile;;
  match tmp_file W with
  | inl err => handleError segmenter fn err
  | inr video_path =>
      downloadToLocal video_uri video_path (http W) (fun err contentType =>
        match err with
        | Some err => handleError segmenter fn err
        | None =>
            getVideoMetadata video_path (ffmpeg_probe W)
              (after_probe G W segmenter video_uri s3_bucket video_path fn)
        end)
  end.

(** Nothing in the two source files declares or assigns [videoUri],
    [frames], [contentType], [shivaUtils] or [sequencer]: the global object
    of the worker as shipped has none of them. *)
Definition shipped : Globals :=
  {| g_videoUri := None; g_frames := None; g_contentType := None;
     g_shivaUtils := None; g_sequencer := None |}.

(** ** The worker (the queue consumer) *)

Module Worker.

Definition handleError (err : JsError) : M unit := tell (ConsoleError err).

Definition publishSegmentEvent (W : World) (video_id : string) (segment_idx : Z)
    (segment_uri : string) (fps : Q) (fn : option JsError -> M unit) : M unit :=
  let segment := {| ev_uri := segment_uri; video_id := video_id;
                    segment_idx := segment_idx; ev_fps := fps |} in
  tell (Publish segment);;
  fn (bus_publish W segment_idx).

(** The callback given to [downloadAndExtractToS3]. *)
Definition on_processed (video : Job) : Callback JobResult := fun err _ =>
  let not_fatal := match err with
                   | Some e => if is_fatal e then None else Some e
                   | None => None
                   end in
  match not_fatal with
  | Some e => tell (Log (ProcessingFailed (job_uri video) e))
  | None =>
      tell (Log (ProcessingCompleted (job_uri video)));;
      tell MsgFinish
  end.

Definition segmenter_of (W : World) (video : Job) : Segmenter :=
  {| batchSize := batchSize (new_Segmenter None);
     on_segment := Some (fun segment =>
       publishSegmentEvent W (job_id video) (idx segment) (uri segment) (fps segment)
         (fun err => match err with
                     | Some err => handleError err
                     | None => mret tt
                     end));
     on_error := Some handleError |}.

(** The [bus.on('video')] handler, on a decoded message. *)
Definition on_video (G : Globals) (W : World) (bucket : string) (video : Job) : M unit :=
  tell (Log (NewVideo video));;
  downloadAndExtractToS3 G W (segmenter_of W video) (job_uri video) bucket
    (Some (on_processed video)).

End Worker.

(** ** Observations on traces, and the extractor's side of the naming contract *)

(** The segments emitted ([segmenter.emit('segment', ...)]) in a trace. *)
Definition emitted_segments (t : list Event) : list Segment :=
  omap (fun e => match e with EmitSegment s => Some s | _ => None end) t.

(** The events published on the bus in a trace. *)
Definition published (t : list Event) : list SegmentEvent :=
  omap (fun e => match e with Publish s => Some s | _ => None end) t.

(** The Job Results handed to the callback ([fn(null, res)]) in a trace. *)
Definition returned_results (t : list Event) : list JobResult :=
  omap (fun e => match e with Return None (Some res) => Some res | _ => None end) t.

(** The errors handed to the callback ([fn(err)]) in a trace. *)
Definition returned_errors (t : list Event) : list JsError :=
  omap (fun e => match e with Return (Some err) _ => Some err | _ => None end) t.

(** The keys under which objects were sent to the store in a trace. *)
Definition uploaded_keys (t : list Event) : list string :=
  omap (fun e => match e with S3Upload _ key _ => Some key | _ => None end) t.

(** How many events of a trace satisfy [p]. *)
Definition occurrences (p : Event -> bool) (t : list Event) : nat :=
  length (List.filter p t).

Definition is_finish (e : Event) : bool :=
  match e with MsgFinish => true | _ => false end.

Definition is_cleanup_file (e : Event) : bool :=
  match e with CleanupFile => true | _ => false end.

Definition is_cleanup_dir (e : Event) : bool :=
  match e with CleanupDir => true | _ => false end.

Definition is_upload (e : Event) : bool :=
  match e with S3Upload _ _ _ => true | _ => false end.

Definition is_extract (e : Event) : bool :=
  match e with FfmpegExtract _ _ => true | _ => false end.

(** The download handed its file over: no error from the request, the
    file stream closed cleanly, and the response (when one was seen) had
    status 200. *)
Definition download_ok (d : Download) : bool :=
  match response d, ending d with
  | None, Finished None => true
  | Some (statusCode, _), Finished None => statusCode =? 200
  | _, _ => false
  end.

(** The extraction reported [err]: [new ffmpeg] threw it, its promise was
    rejected with it, or [fnExtractSegments] called back with it. *)
Definition extraction_fails (tool : Ffmpeg (JsError + list string)) (err : JsError) : Prop :=
  tool = Throws err \/ tool = Rejects err \/ tool = Resolves (inl err).

(** The requests the pipeline makes of tmp, request and ffmpeg, and the
    release of the temporary file. *)
Definition stage_event (e : Event) : bool :=
  match e with
  | TmpFile | TmpDir | CleanupFile | HttpGet _ _ | FfmpegOpen _ | FfmpegExtract _ _ => true
  | _ => false
  end.

(** Those of them that come after the read of [videoUri]. *)
Definition extraction_event (e : Event) : bool :=
  match e with
  | CleanupFile | FfmpegExtract _ _ => true
  | _ => false
  end.

(** The free identifiers that must be defined on the global object for an
    event to happen. *)
Definition needs (G : Globals) (e : Event) : Prop :=
  match e with
  | FfmpegExtract _ _ | CleanupFile => is_Some (g_videoUri G)
  | S3Upload _ _ _ =>
      is_Some (g_videoUri G) /\ is_Some (g_frames G) /\ is_Some (g_contentType G)
  | EmitSegment _ | Publish _ =>
      is_Some (g_videoUri G) /\ is_Some (g_frames G) /\ is_Some (g_shivaUtils G)
  | CleanupDir => is_Some (g_videoUri G) /\ is_Some (g_frames G)
  | EmitEnd _ | Return None _ =>
      is_Some (g_videoUri G) /\ is_Some (g_frames G) /\ is_Some (g_sequencer G)
  | _ => True
  end.


(** An event that is neither an upload, nor a segment event, nor a
    returned Job Result. *)
Definition quiet (e : Event) : Prop :=
  match e with
  | S3Upload _ _ _ | EmitSegment _ | Return None (Some _) => False
  | _ => True
  end.

(** A run that stays quiet, or is a quiet prefix followed by one of the
    computations [U]. *)
Definition leads_to {A} (U : M unit -> Prop) (m : M A) : Prop :=
  Forall quiet (trace m)
  \/ exists pre u, Forall quiet pre /\ U u /\ trace m = (pre ++ trace u)%list.

(** A call of the callback that the consumer answers with [msg.finish()]:
    one without an error, or with a fatal one. *)
Definition acked_return (e : Event) : bool :=
  match e with
  | Return None _ => true
  | Return (Some err) _ => is_fatal err
  | _ => false
  end.

(** As many acknowledgements as such calls. *)
Definition ack_balance (t : list Event) : Prop :=
  occurrences is_finish t = occurrences acked_return t.

(** An error as a collaborator produced it. *)
Definition collaborator_error (W : World) (err : JsError) : Prop :=
  tmp_file W = inl err
  \/ ending (http W) = TransportError err
  \/ ending (http W) = Finished (Some err)
  \/ ffmpeg_probe W = Throws err
  \/ ffmpeg_probe W = Rejects err
  \/ tmp_dir W = inl err
  \/ ffmpeg_extract W = Throws err
  \/ ffmpeg_extract W = Rejects err
  \/ ffmpeg_extract W = Resolves (inl err)
  \/ exists n, s3_upload W n = Some err.

(** An error event or a reported error carries the status error of the
    download, or an error as a collaborator produced it. *)
Definition forwarded (W : World) (uri : string) (e : Event) : Prop :=
  match e with
  | EmitError err | Return (Some err) _ =>
      (exists statusCode, statusCode <> 200 /\ err = status_error uri statusCode)
      \/ collaborator_error W err
  | _ => True
  end.

(** Where an error handed to [handleError] before the upload phase comes
    from: tmp, the response status, the request, the file stream, or the
    extraction. *)
Definition stage_error (W : World) (uri : string) (err : JsError) : Prop :=
  tmp_file W = inl err
  \/ (exists statusCode content_type,
        response (http W) = Some (statusCode, content_type)
        /\ statusCode <> 200 /\ err = status_error uri statusCode)
  \/ ending (http W) = TransportError err
  \/ ending (http W) = Finished (Some err)
  \/ tmp_dir W = inl err
  \/ extraction_fails (ffmpeg_extract W) err.

(** An error of the object store. *)
Definition upload_error (W : World) (err : JsError) : Prop :=
  exists n, s3_upload W n = Some err.

(** A property of traces that the empty trace has and that concatenation
    keeps. *)
Class Additive (I : list Event -> Prop) : Prop := {
  additive_nil : I [];
  additive_app : forall t1 t2 : list Event, I t1 -> I t2 -> I (t1 ++ t2)%list
}.

(** A property of the trace of a computation. *)
Definition holds {A} (I : list Event -> Prop) (m : M A) : Prop := I (trace m).

(** A property of every event of a computation's trace. *)
Definition always {A} (P : Event -> Prop) (m : M A) : Prop := Forall P (trace m).

(** What ffmpeg makes of an output pattern for the frame of ordinal [n]:
    the [%d] becomes [n] in decimal (a run of digits holds no [$]). *)
Definition frame_file (pattern : string) (n : Z) : string :=
  Str.replace_first pattern "%d" (string_of_Z n).

Fixpoint all_digits (s : string) : bool :=
  match s with
  | EmptyString => true
  | String c r => Str.is_digit c && all_digits r
  end.

(** ⌈n / d⌉ on integers. *)
Definition ceil_div (n d : Z) : Z := (n + d - 1) / d.

(** ** Further observations on traces *)

(** The event the worker publishes for a segment of [video]. *)
Definition segment_event_of (video : Job) (s : Segment) : SegmentEvent :=
  {| ev_uri := uri s; video_id := job_id video; segment_idx := idx s; ev_fps := fps s |}.

(** The errors of the ['error'] events in a trace. *)
Definition emitted_errors (t : list Event) : list JsError :=
  omap (fun e => match e with EmitError err => Some err | _ => None end) t.

(** The events published are those of the segments emitted, in the same
    order. *)
Definition published_as_emitted (video : Job) (t : list Event) : Prop :=
  published t = segment_event_of video <$> emitted_segments t.

(** The errors handed to the callback are those of the error events, in
    the same order. *)
Definition errors_paired (t : list Event) : Prop :=
  returned_errors t = emitted_errors t.

(** A segment, emitted or published, has an index that is not negative. *)
Definition index_not_negative (e : Event) : Prop :=
  match e with
  | EmitSegment s => 0 <= idx s
  | Publish ev => 0 <= segment_idx ev
  | _ => True
  end.

(** An object is sent to [bucket] with the content type that the global
    [contentType] holds. *)
Definition upload_params (G : Globals) (bucket : string) (e : Event) : Prop :=
  match e with
  | S3Upload b _ ct => b = bucket /\ g_contentType G = Some ct
  | _ => True
  end.

(** The same world, with another [content-type] header on the response of
    the download. *)
Definition with_content_type (content_type : option string) (W : World) : World :=
  {| tmp_file := tmp_file W;
     http := {| response := (fun r => (fst r, content_type)) <$> response (http W);
                ending := ending (http W) |};
     ffmpeg_probe := ffmpeg_probe W;
     tmp_dir := tmp_dir W; ffmpeg_extract := ffmpeg_extract W;
     s3_upload := s3_upload W; s3_latency := s3_latency W; bus_publish := bus_publish W |}.

(** An event that is not a Job Result handed to the callback. *)
Definition not_a_result (e : Event) : Prop :=
  match e with
  | Return None (Some _) => False
  | _ => True
  end.

(** The keys of the files of [frames], in order. *)
Definition frame_keys (G : Globals) (video_uri : string) : list string :=
  (fun file => s3_key file (s3_dir_of video_uri) None) <$> default [] (g_frames G).

(** At every point of a trace, at most [n] more objects have been sent
    than segments emitted: no more than [n] uploads are in flight. *)
Definition in_flight_at_most (n : nat) (t : list Event) : Prop :=
  forall p, p `prefix_of` t ->
    (occurrences is_upload p <= length (emitted_segments p) + n)%nat.

(** The steps of a run of the pipeline. *)
Inductive Step :=
| SFile           (* tmp.file *)
| SGet            (* the download *)
| SOpen           (* new ffmpeg, for the probe and for the extraction *)
| SDir            (* tmp.dir *)
| SExtract        (* fnExtractSegments *)
| SCleanupFile
| SUpload         (* an object sent, a segment emitted or published *)
| SCleanupDir
| SEnd            (* the end event *)
| SResult.        (* the callback called without an error *)

(** The step an event belongs to; a log line, an error event and a failure
    handed to the callback belong to none. *)
Definition step_of (e : Event) : option Step :=
  match e with
  | TmpFile => Some SFile
  | HttpGet _ _ => Some SGet
  | FfmpegOpen _ => Some SOpen
  | TmpDir => Some SDir
  | FfmpegExtract _ _ => Some SExtract
  | CleanupFile => Some SCleanupFile
  | S3Upload _ _ _ | EmitSegment _ | Publish _ => Some SUpload
  | CleanupDir => Some SCleanupDir
  | EmitEnd _ => Some SEnd
  | Return None _ => Some SResult
  | _ => None
  end.

Definition steps (t : list Event) : list Step := omap step_of t.



(** A call of the callback given to [downloadAndExtractToS3]. *)
Definition is_return (e : Event) : bool :=
  match e with
  | Return _ _ => true
  | _ => false
  end.

(** No more acknowledgements than calls of the callback. *)
Definition acks_bounded (t : list Event) : Prop :=
  (occurrences is_finish t <= occurrences is_return t)%nat.

(** The same world, with other answers of the bus. *)
Definition with_publish (answers : Z -> option JsError) (W : World) : World :=
  {| tmp_file := tmp_file W; http := http W; ffmpeg_probe := ffmpeg_probe W;
     tmp_dir := tmp_dir W; ffmpeg_extract := ffmpeg_extract W;
     s3_upload := s3_upload W; s3_latency := s3_latency W; bus_publish := answers |}.

(** A trace without its [console.error] lines. *)
Definition without_console_errors (t : list Event) : list Event :=
  List.filter (fun e => match e with ConsoleError _ => false | _ => true end) t.

(** Two runs that differ in their [console.error] lines only. *)
Definition same_but_console {A} (m1 m2 : M A) : Prop :=
  without_console_errors (trace m1) = without_console_errors (trace m2)
  /\ outcome m1 = outcome m2.

(** How many times a character occurs in a string. *)
Definition count_char (c : ascii) (s : string) : nat :=
  length (List.filter (fun x => Ascii.eqb x c) (Str.chars s)).

(** The metadata the probe found, when it found any. *)
Definition probed (W : World) : option Metadata :=
  match ffmpeg_probe W with
  | Resolves metadata => Some metadata
  | _ => None
  end.

(** A stage works on the files of this job: the download writes the
    temporary file, ffmpeg opens it, and the frames are extracted from it
    into the temporary directory, under the pattern made of its name and of
    the extension of the global [videoUri]. *)
Definition on_job_files (G : Globals) (W : World) (video_uri : string) (e : Event) : Prop :=
  match e with
  | HttpGet uri filePath => uri = video_uri /\ tmp_file W = inr filePath
  | FfmpegOpen videoPath => tmp_file W = inr videoPath
  | FfmpegExtract videoPath pattern =>
      tmp_file W = inr videoPath
      /\ exists dir_path videoUri,
           tmp_dir W = inr dir_path /\ g_videoUri G = Some videoUri
           /\ pattern = filePattern videoPath (Str.substring1 (Path.extname videoUri))
                          dir_path
  | _ => True
  end.

(** A segment, emitted or published, carries the fps that the probe
    found. *)
Definition carries_probed_fps (W : World) (e : Event) : Prop :=
  match e with
  | EmitSegment s => exists m, ffmpeg_probe W = Resolves m /\ fps s = video_fps m
  | Publish ev => exists m, ffmpeg_probe W = Resolves m /\ ev_fps ev = video_fps m
  | _ => True
  end.

(** No error is handed to the callback. *)
Definition no_error_returned (t : list Event) : Prop := returned_errors t = [].

(** ** The frame files of a job and what a run makes of them *)

(** What a task passes to its callback when its asynchronous call
    succeeds. *)
Definition result_of {T R} (done : T -> M (JsError + R)) (t : T) : option R :=
  match outcome (done t) with
  | inr (inr value) => Some value
  | _ => None
  end.

(** The results array of [async.parallel] once the tasks [cs], each with
    its key, have completed. *)
Definition filled {T R} (done : T -> M (JsError + R)) (cs : list (nat * T))
    (results : list (option R)) : list (option R) :=
  foldl (fun a c => <[fst c := result_of done (snd c)]> a) results cs.

(** [s] is the segment of the frame file [file]: its index is the number
    parsed from the base name of the file, and its URI is what
    [shivaUtils.getS3Uri] makes of the bucket and of the key of the file. *)
Definition segment_of_frame (G : Globals) (bucket dir file : string) (s : Segment) : Prop :=
  exists digits getS3Uri,
    pattern_exec (Path.basename file None) = Some digits
    /\ g_shivaUtils G = Some getS3Uri
    /\ idx s = parseInt digits
    /\ uri s = getS3Uri bucket (s3_key file dir None).

(** The numbers in the names of the frame files are below 2^53. *)
Definition exact_indices (frames : list string) : bool :=
  forallb (fun file => match pattern_exec (Path.basename file None) with
                       | Some digits => parseInt digits <? 2 ^ 53
                       | None => true
                       end) frames.


(** [file] is a name that the pattern of [extractSegments] gives the frame
    of ordinal [n]: its base name is [<stem>_<n>.<rest>], where the stem,
    the name [tmp.file] made for the video file ([tmp-], the process id
    and letters and digits), holds no underscore that a digit follows. *)
Definition pattern_made (file : string) (n : Z) : Prop :=
  exists stem rest,
    Path.basename file None = stem +:+ "_" +:+ string_of_Z n +:+ "." +:+ rest
    /\ pattern_exec stem = None
    /\ 0 <= n < 2 ^ 53.

(** A segment event, emitted or published, is that of a file of [frames]
    whose upload succeeded, and its index is the ordinal of that file. *)
Definition carries_ordinal (G : Globals) (W : World) (bucket dir : string)
    (ordinals : list Z) (e : Event) : Prop :=
  match e with
  | EmitSegment s =>
      exists frames n file k getS3Uri,
        g_frames G = Some frames /\ frames !! n = Some file /\ ordinals !! n = Some k
        /\ s3_upload W n = None /\ g_shivaUtils G = Some getS3Uri
        /\ uri s = getS3Uri bucket (s3_key file dir None)
        /\ idx s = k
  | Publish ev =>
      exists frames n file k getS3Uri,
        g_frames G = Some frames /\ frames !! n = Some file /\ ordinals !! n = Some k
        /\ s3_upload W n = None /\ g_shivaUtils G = Some getS3Uri
        /\ ev_uri ev = getS3Uri bucket (s3_key file dir None)
        /\ segment_idx ev = k
  | _ => True
  end.

(** The errors that the stages after the probe hand to the callback when
    the probe has found no metadata: that of [tmp.dir], or that of the
    extraction. *)
Definition errors_after_failed_probe (G : Globals) (W : World) : list JsError :=
  match tmp_dir W with
  | inl err => [err]
  | inr _ =>
      match g_videoUri G with
      | None => []
      | Some _ =>
          match ffmpeg_extract W with
          | Throws err | Rejects err | Resolves (inl err) => [err]
          | Resolves (inr _) => []
          end
      end
  end.

(** ** Sample worlds *)

Module Sample.

Definition job : Job := {| job_id := "v1"; job_uri := "https://host/movie.mp4" |}.

Definition econnreset : JsError := {| message := "socket hang up"; fatal := None |}.
Definition corrupt : JsError :=
  {| message := "Invalid data found when processing input"; fatal := None |}.

Definition frames : list string :=
  ["/tmp/tmp-42dir/tmp-42abc_1.jpg"; "/tmp/tmp-42dir/tmp-42abc_2.jpg";
   "/tmp/tmp-42dir/tmp-42abc_3.jpg"].

(** Every collaborator succeeds; the uploads complete in reverse order. *)
Definition all_fine : World := {|
  tmp_file := inr "/tmp/tmp-42abc.tmp";
  http := {| response := Some (200, Some "video/mp4"); ending := Finished None |};
  ffmpeg_probe := Resolves {| video_fps := 25 # 1 |};
  tmp_dir := inr "/tmp/tmp-42dir";
  ffmpeg_extract := Resolves (inr frames);
  s3_upload := fun _ => None;
  s3_latency := fun n => (5 - n)%nat;
  bus_publish := fun _ => None |}.

Definition with_http (d : Download) (W : World) : World :=
  {| tmp_file := tmp_file W; http := d; ffmpeg_probe := ffmpeg_probe W;
     tmp_dir := tmp_dir W; ffmpeg_extract := ffmpeg_extract W;
     s3_upload := s3_upload W; s3_latency := s3_latency W; bus_publish := bus_publish W |}.

Definition with_probe (p : Ffmpeg Metadata) (W : World) : World :=
  {| tmp_file := tmp_file W; http := http W; ffmpeg_probe := p;
     tmp_dir := tmp_dir W; ffmpeg_extract := ffmpeg_extract W;
     s3_upload := s3_upload W; s3_latency := s3_latency W; bus_publish := bus_publish W |}.

Definition with_extract (x : Ffmpeg (JsError + list string)) (W : World) : World :=
  {| tmp_file := tmp_file W; http := http W; ffmpeg_probe := ffmpeg_probe W;
     tmp_dir := tmp_dir W; ffmpeg_extract := x;
     s3_upload := s3_upload W; s3_latency := s3_latency W; bus_publish := bus_publish W |}.

(** The source answers 404. *)
Definition not_found : World :=
  with_http {| response := Some (404, Some "text/html"); ending := Finished None |} all_fine.

(** The downloaded file cannot be probed. *)
Definition unprobeable : World := with_probe (Rejects corrupt) all_fine.

(** The extraction fails. *)
Definition unextractable : World := with_extract (Resolves (inl corrupt)) all_fine.

(** A global object on which the five free identifiers are defined, as a
    repair would bind them: [videoUri] is the URI of the job and [frames]
    the files extracted. *)
Definition patched : Globals := {|
  g_videoUri := Some "https://host/movie.mp4";
  g_frames := Some frames;
  g_contentType := Some (Some "image/jpeg");
  g_shivaUtils := Some getObjectUri;
  g_sequencer := Some tt |}.

Definition invalid_status_404 : JsError :=
  {| message := "Invalid status code: 404 while downloading https://host/movie.mp4";
     fatal := Some true |}.

(** The files ffmpeg makes of the pattern for the video file of
    [all_fine]; a world in which the extraction answers these files, and a
    global object whose [frames] are these files. *)
Definition pattern_frames : list string :=
  frame_file (filePattern "/tmp/tmp-42abc.tmp" "mp4" "/tmp/tmp-42dir") <$> [1; 2; 3].

Definition extracting : World := with_extract (Resolves (inr pattern_frames)) all_fine.

Definition extracted : Globals := {|
  g_videoUri := Some "https://host/movie.mp4";
  g_frames := Some pattern_frames;
  g_contentType := Some (Some "image/jpeg");
  g_shivaUtils := Some getObjectUri;
  g_sequencer := Some tt |}.

(** The same, with another helper for the URIs. *)
Definition relabelled : Globals := {|
  g_videoUri := Some "https://host/movie.mp4";
  g_frames := Some pattern_frames;
  g_contentType := Some (Some "image/jpeg");
  g_shivaUtils := Some (fun bucket key => "s3://" +:+ bucket +:+ "/" +:+ key);
  g_sequencer := Some tt |}.

(** Frame files whose names hold no underscore. *)
Definition unnumbered : Globals := {|
  g_videoUri := Some "https://host/movie.mp4";
  g_frames := Some ["/tmp/tmp-42dir/first.jpg"; "/tmp/tmp-42dir/second.jpg"];
  g_contentType := Some (Some "image/jpeg");
  g_shivaUtils := Some getObjectUri;
  g_sequencer := Some tt |}.

End Sample.

(** * Facts about the pipeline *)

(** ** Node's [path] on sample paths *)

Example basename_movie : Path.basename "https://host/movie.mp4" None = "movie.mp4".
Proof. reflexivity. Qed.

Example extname_movie : Path.extname "https://host/movie.mp4" = ".mp4".
Proof. reflexivity. Qed.

Example extname_dotfile : Path.extname "/home/u/.bashrc" = "".
Proof. reflexivity. Qed.

Example extname_dotdot : Path.extname "a/.." = "".
Proof. reflexivity. Qed.

Example extname_three_dots : Path.extname "..." = ".".
Proof. reflexivity. Qed.

Example extname_trailing_dot : Path.extname "index." = ".".
Proof. reflexivity. Qed.

Example s3_dir_of_movie : s3_dir_of "https://host/movie.mp4?sig=1" = "movie".
Proof. reflexivity. Qed.

Example filePattern_tmp :
  filePattern "/tmp/tmp-42abc.tmp" "jpg" "/tmp/tmp-42dir" = "/tmp/tmp-42dir/tmp-42abc_%d.jpg".
Proof. reflexivity. Qed.

Example batches_25_by_10 :
  length <$> batches 10 (replicate 25 "f") = [10; 10; 5]%nat.
Proof. reflexivity. Qed.

Example batches_none : batches 10 (@nil string) = [[]].
Proof. reflexivity. Qed.


Example replace_expands_dollar_patterns :
  Str.replace_first "xabcabc" "abc" "[$`|$&|$'|$$|$1]" = "x[x|abc|abc|$|$1]abc".
Proof. reflexivity. Qed.

Example join_normalises :
  Path.join "/tmp//x/../y/" "a.jpg" = "/tmp/y/a.jpg" /\ Path.join "" "a" = "a"
  /\ Path.join "a/.." ".." = ".." /\ Path.join "/tmp/d" "" = "/tmp/d".
Proof. repeat split. Qed.
(** ** The monad *)

Lemma bind_inr {A B} (t : list Event) (a : A) (k : A -> M B) :
  ((t, inr a) : M A) ≫= k = ((t ++ trace (k a))%list, outcome (k a)).
Proof. reflexivity. Qed.

Lemma bind_inl {A B} (t : list Event) (x : Exn) (k : A -> M B) :
  ((t, inl x) : M A) ≫= k = (t, inl x).
Proof. reflexivity. Qed.

Lemma bind_tell {B} (e : Event) (k : unit -> M B) :
  tell e ≫= k = (e :: trace (k tt), outcome (k tt)).
Proof. reflexivity. Qed.

Lemma bind_ret_l {A B} (a : A) (k : A -> M B) : mret a ≫= k = k a.
Proof. unfold mbind, M_bind, mret, M_ret. by destruct (k a). Qed.

Lemma bind_lookup_global {A B} (name : string) (a : A) (k : A -> M B) :
  lookup_global name (Some a) ≫= k = k a.
Proof. apply bind_ret_l. Qed.

Lemma bind_ret_r (m : M unit) : (m;; mret tt) = m.
Proof.
  destruct m as [t [x | []]]; unfold mbind, M_bind; simpl; [reflexivity |].
  by rewrite app_nil_r.
Qed.

Lemma trace_bind {A B} (m : M A) (k : A -> M B) :
  trace (m ≫= k) =
    match outcome m with
    | inl _ => trace m
    | inr a => (trace m ++ trace (k a))%list
    end.
Proof. destruct m as [t [x | a]]; reflexivity. Qed.


Lemma occurrences_app (p : Event -> bool) (t1 t2 : list Event) :
  occurrences p (t1 ++ t2) = (occurrences p t1 + occurrences p t2)%nat.
Proof. unfold occurrences. by rewrite List.filter_app, length_app. Qed.

(** ** Properties of the trace of a run *)

Section AsyncFacts.
Context {T R : Type}.
Variable start : T -> M unit.
Variable done : T -> M (JsError + R).
Variable latency : T -> nat.

Lemma insert_by_latency_perm (x : nat * T) (l : list (nat * T)) :
  insert_by_latency latency x l ≡ₚ x :: l.
Proof.
  induction l as [| y l IH]; [done |]. simpl.
  destruct (_ <=? _)%nat; [done |]. rewrite IH. apply Permutation_swap.
Qed.

(** The completion order is an order of the same tasks. *)
Lemma completion_order_perm (l : list (nat * T)) : completion_order latency l ≡ₚ l.
Proof.
  induction l as [| x l IH]; [done |]. simpl.
  rewrite insert_by_latency_perm. by rewrite IH.
Qed.

Lemma elem_of_imap_pair (tasks : list T) (c : nat * T) :
  c ∈ imap pair tasks -> snd c ∈ tasks.
Proof.
  intros (i & x & -> & Hx)%elem_of_lookup_imap. by eapply list_elem_of_lookup_2.
Qed.

(** At a failure, the error is the one a completing task reported, and the
    tasks in flight are among those completing. *)
Lemma completions_failed (cs : list (nat * T)) (results : list (option R))
    (err : JsError) (in_flight : list T) :
  outcome (completions done cs results) = inr (Failed err in_flight) ->
  in_flight ⊆ snd <$> cs
  /\ exists c, c ∈ cs /\ outcome (done (snd c)) = inr (inl err).
Proof.
  revert results. induction cs as [| [key t] cs IH]; intros results; [done |].
  cbn [completions]. destruct (done t) as [tr [x | [e | value]]] eqn:E; [done | |].
  - intros [= <- <-]. split; [intros y Hy; by right |].
    exists (key, t). split; [left | cbn [snd]; by rewrite E].
  - rewrite bind_inr. cbn [outcome snd]. intros [Hfl (c & Hc & Hout)]%IH. split.
    + intros y Hy. right. by apply Hfl.
    + exists c. split; [by right | done].
Qed.

Lemma parallel_failed (tasks : list T) (err : JsError) (in_flight : list T) :
  outcome (parallel start done latency tasks) = inr (Failed err in_flight) ->
  in_flight ⊆ tasks /\ exists t, t ∈ tasks /\ outcome (done t) = inr (inl err).
Proof.
  unfold parallel. destruct (for_each start tasks) as [tr [x | []]]; [done |].
  rewrite bind_inr. cbn [outcome snd]. intros [Hfl (c & Hc & Hout)]%completions_failed. split.
  - intros t Ht. apply Hfl, list_elem_of_fmap in Ht. destruct Ht as (c' & -> & Hc').
    rewrite completion_order_perm in Hc'. by apply elem_of_imap_pair.
  - exists (snd c). split; [| done].
    rewrite completion_order_perm in Hc. by apply elem_of_imap_pair.
Qed.

Lemma series_failed (bs : list (list T)) (err : JsError) (in_flight : list T) :
  outcome (series start done latency bs) = inr (Failed err in_flight) ->
  (forall t, t ∈ in_flight -> exists b, b ∈ bs /\ t ∈ b)
  /\ exists b t, b ∈ bs /\ t ∈ b /\ outcome (done t) = inr (inl err).
Proof.
  induction bs as [| b bs IH]; [done |]. cbn [series].
  destruct (parallel start done latency b) as [tr [x | [results | e fl]]] eqn:E; [done | |].
  - rewrite bind_inr. cbn [outcome snd].
    destruct (series start done latency bs) as [tr' [x | [more | e fl]]]; try done.
    cbn [outcome snd] in *. intros [= <- <-].
    destruct (IH eq_refl) as [Hfl (b' & t & Hb' & Ht & Hout)]. split.
    + intros t' Ht'. destruct (Hfl t' Ht') as (b'' & Hb'' & Hin). exists b''.
      split; [by right | done].
    + exists b', t. split; [by right | done].
  - cbn [outcome snd]. intros [= <- <-].
    destruct (parallel_failed b e fl) as [Hfl (t & Ht & Hout)]; [by rewrite E |]. split.
    + intros t' Ht'. exists b. split; [left | by apply Hfl].
    + exists b, t. split; [left | done].
Qed.
End AsyncFacts.

Section Holds.
Context (I : list Event -> Prop) `{!Additive I}.

Lemma holds_ret {A} (a : A) : holds I (mret a : M A).
Proof. apply additive_nil. Qed.

Lemma holds_throw {A} (x : Exn) : holds I (throw x : M A).
Proof. apply additive_nil. Qed.

Lemma holds_tell (e : Event) : I [e] -> holds I (tell e).
Proof. done. Qed.

Lemma holds_bind {A B} (m : M A) (k : A -> M B) :
  holds I m -> (forall a, outcome m = inr a -> holds I (k a)) -> holds I (m ≫= k).
Proof.
  unfold holds. rewrite trace_bind. intros Hm Hk.
  destruct (outcome m) as [x | a]; [done |]. apply additive_app; [done | by apply Hk].
Qed.

Lemma holds_lookup_global {A} (name : string) (v : option A) : holds I (lookup_global name v).
Proof. destruct v; apply additive_nil. Qed.

Lemma holds_for_each {A} (f : A -> M unit) (l : list A) :
  (forall x, x ∈ l -> holds I (f x)) -> holds I (for_each f l).
Proof.
  induction l as [| x l IH]; intros H; [apply holds_ret |].
  cbn [for_each]. apply holds_bind; [apply H; left |].
  intros _ _. apply IH. intros y Hy. apply H. by right.
Qed.

Section Async.
Context {T R : Type}.
Variable start : T -> M unit.
Variable done : T -> M (JsError + R).
Variable latency : T -> nat.

Lemma holds_completions (cs : list (nat * T)) (results : list (option R)) :
  (forall c, c ∈ cs -> holds I (done (snd c))) ->
  holds I (completions done cs results).
Proof.
  revert results. induction cs as [| [key t] cs IH]; intros results H; [apply holds_ret |].
  cbn [completions]. apply holds_bind; [apply (H (key, t)); left |].
  intros [err | value] _; [apply holds_ret |].
  apply IH. intros c Hc. apply H. by right.
Qed.

Lemma holds_parallel (tasks : list T) :
  (forall t, t ∈ tasks -> holds I (start t)) ->
  (forall t, t ∈ tasks -> holds I (done t)) ->
  holds I (parallel start done latency tasks).
Proof.
  intros Hs Hd. unfold parallel. apply holds_bind; [by apply holds_for_each |].
  intros _ _. apply holds_completions. intros c Hc.
  rewrite completion_order_perm in Hc. by apply Hd, elem_of_imap_pair.
Qed.

Lemma holds_series (bs : list (list T)) :
  (forall b t, b ∈ bs -> t ∈ b -> holds I (start t)) ->
  (forall b t, b ∈ bs -> t ∈ b -> holds I (done t)) ->
  holds I (series start done latency bs).
Proof.
  induction bs as [| b bs IH]; intros Hs Hd; [apply holds_ret |].
  cbn [series]. apply holds_bind.
  { apply holds_parallel; intros t Ht; [eapply Hs | eapply Hd]; by try left. }
  intros [results | err in_flight] _; [| apply holds_ret].
  apply holds_bind.
  { apply IH; intros b' t Hb' Ht; [eapply Hs | eapply Hd]; try done; by right. }
  intros [more | err in_flight] _; apply holds_ret.
Qed.

Lemma holds_stragglers (in_flight : list T) :
  (forall t, t ∈ in_flight -> holds I (done t)) ->
  holds I (stragglers done in_flight).
Proof.
  intros H. apply holds_for_each. intros t Ht.
  apply holds_bind; [by apply H | intros; apply holds_ret].
Qed.
End Async.
End Holds.

(** A property of every event is a property of the trace that
    concatenation keeps. *)
#[export] Instance Forall_additive (P : Event -> Prop) : Additive (Forall P).
Proof. split; [constructor | intros t1 t2 H1 H2; by apply Forall_app]. Qed.

Section Always.
Context (P : Event -> Prop).

Lemma always_ret {A} (a : A) : always P (mret a : M A).
Proof. constructor. Qed.

Lemma always_throw {A} (x : Exn) : always P (throw x : M A).
Proof. constructor. Qed.

Lemma always_tell (e : Event) : P e -> always P (tell e).
Proof. intros H. by repeat constructor. Qed.

Lemma always_bind {A B} (m : M A) (k : A -> M B) :
  always P m -> (forall a, outcome m = inr a -> always P (k a)) -> always P (m ≫= k).
Proof. apply (holds_bind (Forall P)). Qed.

Lemma always_series {T R} (start : T -> M unit) (done : T -> M (JsError + R))
    (latency : T -> nat) (bs : list (list T)) :
  (forall b t, b ∈ bs -> t ∈ b -> always P (start t)) ->
  (forall b t, b ∈ bs -> t ∈ b -> always P (done t)) ->
  always P (series start done latency bs).
Proof. apply (holds_series (Forall P)). Qed.

Lemma always_stragglers {T R} (done : T -> M (JsError + R)) (in_flight : list T) :
  (forall t, t ∈ in_flight -> always P (done t)) ->
  always P (stragglers done in_flight).
Proof. apply (holds_stragglers (Forall P)). Qed.
End Always.
(** ** Properties of the trace of a run of the pipeline *)

Lemma elem_of_js_slice {A} (l : list A) (a b : Z) (x : A) : x ∈ js_slice l a b -> x ∈ l.
Proof. unfold js_slice. intros H. by eapply subseteq_drop, subseteq_take. Qed.

Lemma elem_of_batches {A} (batchSize : Z) (l b : list A) (x : A) :
  b ∈ batches batchSize l -> x ∈ b -> x ∈ l.
Proof.
  unfold batches. intros (i & -> & _)%list_elem_of_fmap. apply elem_of_js_slice.
Qed.

(** The tasks are made of the files of [frames], and making them performs
    no effect. *)
Lemma segmentTasks_probed (frames : list string) (m : Metadata) :
  segmentTasks frames (Some m) =
    ([], inr (imap (fun n file => {| task_no := n; task_file := file; task_fps := video_fps m |})
                   frames)).
Proof.
  unfold segmentTasks.
  assert (map_each (fun file => fps ← metadata_video_fps (Some m); mret (file, fps)) frames
          = ([], inr ((fun file => (file, video_fps m)) <$> frames))) as ->.
  { induction frames as [| f frames IH]; [done |]. cbn [map_each]. by rewrite IH. }
  rewrite bind_inr. simpl. by rewrite imap_fmap.
Qed.

Lemma segmentTasks_unprobed (frames : list string) :
  segmentTasks frames None =
    match frames with
    | [] => ([], inr [])
    | _ :: _ => ([], inl (TypeError "metadata.video"))
    end.
Proof. by destruct frames. Qed.

Lemma segmentTasks_spec (frames : list string) (metadata : option Metadata) :
  trace (segmentTasks frames metadata) = []
  /\ forall tasks, outcome (segmentTasks frames metadata) = inr tasks ->
       forall t, t ∈ tasks -> frames !! task_no t = Some (task_file t).
Proof.
  destruct metadata as [m |].
  - rewrite segmentTasks_probed. split; [done |].
    by intros tasks [= <-] t (i & f & -> & Hf)%elem_of_lookup_imap.
  - rewrite segmentTasks_unprobed. destruct frames; (split; [done |]); [| done].
    by intros tasks [= <-] t Ht%elem_of_nil.
Qed.

(** The only error an upload task reports is that of [s3.upload]. *)
Lemma processSegment_done_error (G : Globals) (W : World) (segmenter : Segmenter)
    (s3_bucket s3_dir : string) (t : Task) (err : JsError) :
  outcome (processSegment_done G W segmenter s3_bucket s3_dir t) = inr (inl err) ->
  s3_upload W (task_no t) = Some err.
Proof.
  unfold processSegment_done, uploadToS3_done.
  destruct (s3_upload W (task_no t)) as [e |]; [by intros [= ->] |].
  destruct (g_shivaUtils G) as [getS3Uri |]; [| done].
  rewrite bind_lookup_global, bind_ret_l.
  destruct (pattern_exec _) as [digits |]; [| done].
  by destruct (emit_segment _ _) as [tr [x | []]].
Qed.

Section Pipeline.
Context (I : list Event -> Prop) `{!Additive I}.
Context (G : Globals) (W : World) (segmenter : Segmenter).
Context (video_uri s3_bucket : string) (fn : Callback JobResult).

Lemma holds_upload_and_finish (metadata : option Metadata) :
  (forall err, upload_error W err -> holds I (handleError segmenter fn err)) ->
  (forall frames t, g_frames G = Some frames -> frames !! task_no t = Some (task_file t) ->
     holds I (processSegment G s3_bucket (s3_dir_of video_uri) t)
     /\ holds I (processSegment_done G W segmenter s3_bucket (s3_dir_of video_uri) t)) ->
  (is_Some (g_frames G) -> I [CleanupDir]) ->
  (forall res, is_Some (g_frames G) -> is_Some (g_sequencer G) ->
     I [EmitEnd res] /\ holds I (invoke fn None (Some res))) ->
  holds I (upload_and_finish G W segmenter video_uri s3_bucket metadata fn).
Proof.
  intros Herr Htask Hdir Hres. unfold upload_and_finish.
  destruct (g_frames G) as [frames |] eqn:Hframes; [| apply holds_throw; done].
  rewrite bind_lookup_global.
  destruct (segmentTasks_spec frames metadata) as [Ht Hin].
  apply holds_bind; [done | unfold holds; rewrite Ht; apply additive_nil |].
  intros tasks Htasks. specialize (Hin tasks Htasks).
  assert (forall b t, b ∈ batches (batchSize segmenter) tasks -> t ∈ b ->
                      frames !! task_no t = Some (task_file t))
    as Hb by (intros b t Hb Ht'; eapply Hin, elem_of_batches; eauto).
  apply holds_bind; [done | |].
  { apply holds_series; [done | |]; intros b t Hb' Ht'; by apply (Htask frames); [| eapply Hb]. }
  intros [results | err in_flight] Hout.
  - apply holds_bind; [done | apply holds_tell; eauto |]. intros _ _.
    destruct (g_sequencer G) eqn:Hseq; [| apply holds_throw; done].
    rewrite bind_lookup_global.
    apply holds_bind; [done | apply holds_tell | intros _ _]; by apply Hres.
  - destruct (series_failed _ _ _ _ _ _ Hout) as [Hfl (b & t & Hb' & Ht' & Herr')].
    apply holds_bind; [done | |].
    { apply Herr. exists (task_no t). by eapply processSegment_done_error. }
    intros _ _. apply holds_stragglers; [done |]. intros t' Ht''.
    destruct (Hfl t' Ht'') as (b' & Hb'' & Hin').
    by apply (Htask frames); [| eapply Hb].
Qed.

Lemma holds_after_probe (video_path : string) (err : option JsError)
    (metadata : option Metadata) :
  (forall e, stage_event e = true -> extraction_event e = false -> I [e]) ->
  (is_Some (g_videoUri G) -> forall e, stage_event e = true -> I [e]) ->
  (forall err, stage_error W video_uri err -> holds I (handleError segmenter fn err)) ->
  (is_Some (g_videoUri G) ->
     holds I (upload_and_finish G W segmenter video_uri s3_bucket metadata fn)) ->
  holds I (after_probe G W segmenter video_uri s3_bucket video_path fn err metadata).
Proof.
  intros Hearly Hlate Herr Hup. unfold after_probe.
  apply holds_bind; [done | by apply holds_tell, Hearly |]. intros _ _.
  destruct (tmp_dir W) as [e | dir_path] eqn:Hdir;
    [apply Herr; unfold stage_error; rewrite Hdir; tauto |].
  destruct (g_videoUri G) as [videoUri |]; [| apply holds_throw; done].
  assert (forall e, stage_event e = true -> I [e]) as Hstage by (by apply Hlate).
  rewrite bind_lookup_global. unfold extractSegments.
  apply holds_bind; [done | by apply holds_tell, Hstage |]. intros _ _.
  assert (forall e, extraction_fails (ffmpeg_extract W) e ->
                    holds I (tell CleanupFile;; handleError segmenter fn e)) as Hfail.
  { intros e He. apply holds_bind; [done | by apply holds_tell, Hstage |].
    intros _ _. apply Herr. unfold stage_error. tauto. }
  unfold extraction_fails in Hfail.
  destruct (ffmpeg_extract W) as [e | e | [e | files]]; try (apply Hfail; tauto).
  - apply holds_bind; [done | by apply holds_tell, Hstage | intros _ _]. apply Hfail. tauto.
  - apply holds_bind; [done | by apply holds_tell, Hstage | intros _ _].
    apply holds_bind; [done | by apply holds_tell, Hstage | intros _ _]. by apply Hup.
Qed.

Lemma holds_downloadAndExtractToS3 :
  (forall e, stage_event e = true -> extraction_event e = false -> I [e]) ->
  (is_Some (g_videoUri G) -> forall e, stage_event e = true -> I [e]) ->
  (forall err, stage_error W video_uri err -> holds I (handleError segmenter fn err)) ->
  (forall metadata, is_Some (g_videoUri G) ->
     holds I (upload_and_finish G W segmenter video_uri s3_bucket metadata fn)) ->
  holds I (downloadAndExtractToS3 G W segmenter video_uri s3_bucket (Some fn)).
Proof.
  intros Hstage Hlate Herr Hup. unfold downloadAndExtractToS3. cbv zeta. cbn [from_option id].
  apply holds_bind; [done | by apply holds_tell, Hstage |]. intros _ _.
  destruct (tmp_file W) as [e | video_path] eqn:Hfile;
    [apply Herr; unfold stage_error; rewrite Hfile; tauto |].
  assert (holds I (getVideoMetadata video_path (ffmpeg_probe W)
                     (after_probe G W segmenter video_uri s3_bucket video_path fn))) as Hprobe.
  { unfold getVideoMetadata.
    apply holds_bind; [done | by apply holds_tell, Hstage |]. intros _ _.
    destruct (ffmpeg_probe W); apply holds_after_probe; auto. }
  unfold downloadToLocal.
  apply holds_bind; [done | by apply holds_tell, Hstage |]. intros _ _.
  apply holds_bind; [done | |].
  - destruct (response (http W)) as [[statusCode content_type] |] eqn:Hresp;
      [| apply holds_ret; done].
    unfold download_on_response. destruct (200 =? statusCode) eqn:E;
      [apply holds_ret; done |]. cbn [negb].
    apply holds_bind; [done | | intros; apply holds_ret; done].
    apply Herr. right. left. exists statusCode, content_type.
    apply Z.eqb_neq in E. by repeat split.
  - intros [error contentType] _. cbn [fst snd]. unfold download_on_error, download_on_finish.
    destruct (ending (http W)) as [e | close_error] eqn:Hend;
      [apply Herr; unfold stage_error; rewrite Hend; tauto |].
    destruct error; [apply holds_ret; done |].
    destruct close_error; [apply Herr; unfold stage_error; rewrite Hend; tauto |].
    apply Hprobe.
Qed.
End Pipeline.

Section PipelineAlways.
Context (P : Event -> Prop).
Context (G : Globals) (W : World) (segmenter : Segmenter).
Context (video_uri s3_bucket : string) (fn : Callback JobResult).

Lemma always_upload_and_finish (metadata : option Metadata) :
  (forall err, always P (handleError segmenter fn err)) ->
  (forall frames t, g_frames G = Some frames -> frames !! task_no t = Some (task_file t) ->
     always P (processSegment G s3_bucket (s3_dir_of video_uri) t)
     /\ always P (processSegment_done G W segmenter s3_bucket (s3_dir_of video_uri) t)) ->
  (is_Some (g_frames G) -> P CleanupDir) ->
  (forall res, is_Some (g_frames G) -> is_Some (g_sequencer G) ->
     P (EmitEnd res) /\ always P (invoke fn None (Some res))) ->
  always P (upload_and_finish G W segmenter video_uri s3_bucket metadata fn).
Proof.
  intros Herr Htask Hdir Hres. apply (holds_upload_and_finish (Forall P)).
  - intros err _. apply Herr.
  - exact Htask.
  - intros Hf. apply Forall_singleton. auto.
  - intros res Hf Hs. destruct (Hres res Hf Hs). split; [by apply Forall_singleton | done].
Qed.

Lemma always_downloadAndExtractToS3 :
  (forall e, stage_event e = true -> extraction_event e = false -> P e) ->
  (is_Some (g_videoUri G) -> forall e, stage_event e = true -> P e) ->
  (forall err, always P (handleError segmenter fn err)) ->
  (forall metadata, is_Some (g_videoUri G) ->
     always P (upload_and_finish G W segmenter video_uri s3_bucket metadata fn)) ->
  always P (downloadAndExtractToS3 G W segmenter video_uri s3_bucket (Some fn)).
Proof.
  intros Hstage Hlate Herr Hup. apply (holds_downloadAndExtractToS3 (Forall P)).
  - intros e H1 H2. apply Forall_singleton. auto.
  - intros Hv e He. apply Forall_singleton. auto.
  - intros err _. apply Herr.
  - exact Hup.
Qed.
End PipelineAlways.
(** ** The pipeline under the worker *)

Section UnderWorker.
Context (G : Globals) (W : World) (bucket : string) (video : Job).

(** What the worker's listeners and callback add to [handleError]. *)
Lemma handleError_worker (err : JsError) :
  handleError (Worker.segmenter_of W video) (Worker.on_processed video) err =
    (([EmitError err; ConsoleError err; Return (Some err) None] ++
      (if is_fatal err
       then [Log (ProcessingCompleted (job_uri video)); MsgFinish]
       else [Log (ProcessingFailed (job_uri video) err)]))%list,
     inr tt).
Proof.
  unfold handleError, emit_error, invoke, Worker.on_processed. simpl.
  by destruct (is_fatal err).
Qed.

(** One upload task, from the completion of [s3.upload] on. *)
Lemma processSegment_done_worker (dir : string) (t : Task) :
  processSegment_done G W (Worker.segmenter_of W video) bucket dir t =
    match s3_upload W (task_no t) with
    | Some err => ([], inr (inl err))
    | None =>
        match g_shivaUtils G with
        | None => ([], inl (ReferenceError "shivaUtils"))
        | Some getS3Uri =>
            match pattern_exec (Path.basename (task_file t) None) with
            | None => ([], inl (TypeError "match[1]"))
            | Some digits =>
                let segment := {| idx := parseInt digits;
                                  uri := getS3Uri bucket (s3_key (task_file t) dir None);
                                  fps := task_fps t |} in
                (EmitSegment segment
                 :: Publish {| ev_uri := uri segment; video_id := job_id video;
                               segment_idx := idx segment; ev_fps := fps segment |}
                 :: match bus_publish W (idx segment) with
                    | Some e => [ConsoleError e]
                    | None => []
                    end,
                 inr (inr segment))
            end
        end
    end.
Proof.
  unfold processSegment_done, uploadToS3_done.
  destruct (s3_upload W (task_no t)) as [err |]; [done |].
  destruct (g_shivaUtils G) as [getS3Uri |]; [| done].
  rewrite bind_lookup_global, bind_ret_l.
  destruct (pattern_exec _) as [digits |]; [| done].
  unfold emit_segment, Worker.segmenter_of, Worker.publishSegmentEvent. simpl.
  by destruct (bus_publish W (parseInt digits)).
Qed.

Lemma processSegment_cases (dir : string) (t : Task) :
  processSegment G bucket dir t =
    match g_contentType G with
    | None => ([], inl (ReferenceError "contentType"))
    | Some contentType => ([S3Upload bucket (s3_key (task_file t) dir None) contentType], inr tt)
    end.
Proof. unfold processSegment. by destruct (g_contentType G). Qed.

(** Every event of a run happens only with the identifiers it needs. *)
Lemma always_needs : always (needs G) (Worker.on_video G W bucket video).
Proof.
  assert (forall err, always (needs G)
            (handleError (Worker.segmenter_of W video) (Worker.on_processed video) err)) as Herr.
  { intros err. rewrite handleError_worker. unfold always. simpl.
    destruct (is_fatal err); by repeat constructor. }
  unfold Worker.on_video.
  apply always_bind; [by apply always_tell |]. intros _ _.
  apply always_downloadAndExtractToS3; [| | done |].
  - intros e He Hx. by destruct e.
  - intros Hv e He. by destruct e.
  - intros metadata Hv. apply always_upload_and_finish; [done | | |].
    + intros frames t Hf Hin. split.
      * rewrite processSegment_cases.
        destruct (g_contentType G) eqn:E; [| constructor].
        apply Forall_singleton. simpl. rewrite Hf, E. eauto.
      * rewrite processSegment_done_worker.
        destruct (s3_upload W (task_no t)); [constructor |].
        destruct (g_shivaUtils G) eqn:E; [| constructor].
        destruct (pattern_exec _); [| constructor].
        assert (is_Some (g_frames G)) by (rewrite Hf; eauto).
        unfold always. simpl. destruct (bus_publish W _); by repeat constructor.
    + by intros Hf.
    + intros res Hf Hs. split; [done |].
      unfold invoke, Worker.on_processed, always. simpl. by repeat constructor.
Qed.
End UnderWorker.

(** ** The batches *)

Section Batches.
Context {A : Type}.
Implicit Types (l : list A) (batchSize : Z).

(** Within the array, [slice] is [drop] then [take]. *)
Lemma js_slice_within l (a b : Z) :
  0 <= a <= b -> b <= Z.of_nat (length l) ->
  js_slice l a b = take (Z.to_nat (b - a)) (drop (Z.to_nat a) l).
Proof.
  intros Ha Hb. unfold js_slice.
  destruct (a <? 0) eqn:Ea; [apply Z.ltb_lt in Ea; lia |].
  destruct (b <? 0) eqn:Eb; [apply Z.ltb_lt in Eb; lia |].
  by rewrite !Z.min_l by lia.
Qed.

(** The [i]-th batch, [0 <= i <= length / batchSize]. *)
Lemma batch_within l batchSize (i : Z) :
  1 <= batchSize -> 0 <= i <= Z.of_nat (length l) / batchSize ->
  js_slice l (i * batchSize) (Z.min ((i + 1) * batchSize) (Z.of_nat (length l)))
  = take (Z.to_nat (Z.min batchSize (Z.of_nat (length l) - i * batchSize)))
         (drop (Z.to_nat (i * batchSize)) l).
Proof.
  intros Hb Hi.
  assert (i * batchSize <= Z.of_nat (length l)).
  { transitivity (Z.of_nat (length l) / batchSize * batchSize); [nia |].
    rewrite Z.mul_comm. apply Z.mul_div_le. lia. }
  rewrite js_slice_within by nia. do 2 f_equal. lia.
Qed.

(** The first [j] batches hold the first [j * batchSize] tasks, in order. *)
Lemma batches_prefix l batchSize (j : nat) :
  1 <= batchSize -> Z.of_nat j <= Z.of_nat (length l) / batchSize + 1 ->
  concat ((fun i => js_slice l (i * batchSize)
                      (Z.min ((i + 1) * batchSize) (Z.of_nat (length l))))
            <$> seqZ 0 (Z.of_nat j))
  = take (Z.to_nat (Z.min (Z.of_nat j * batchSize) (Z.of_nat (length l)))) l.
Proof.
  intros Hb. induction j as [| j IH]; intros Hj.
  - change (Z.of_nat 0) with 0. rewrite seqZ_nil by lia.
    rewrite Z.mul_0_l, Z.min_l by lia. reflexivity.
  - rewrite seqZ_S, fmap_app, concat_app, IH by lia. simpl. rewrite app_nil_r.
    rewrite Z.add_0_l, batch_within by lia.
    assert (Z.of_nat j * batchSize <= Z.of_nat (length l)).
    { transitivity (Z.of_nat (length l) / batchSize * batchSize); [nia |].
      rewrite Z.mul_comm. apply Z.mul_div_le. lia. }
    rewrite Z.min_l by lia. rewrite take_take_drop. f_equal. lia.
Qed.

(** The code makes ⌊n / batchSize⌋ + 1 batches. *)
Lemma batches_length l batchSize :
  1 <= batchSize ->
  Z.of_nat (length (batches batchSize l)) = Z.of_nat (length l) / batchSize + 1.
Proof.
  intros Hb. unfold batches. rewrite length_fmap, length_seqZ.
  assert (0 <= Z.of_nat (length l) / batchSize) by (apply Z.div_pos; lia). lia.
Qed.

(** Every task is in exactly one batch, and the order is kept. *)
Lemma batches_concat l batchSize :
  1 <= batchSize -> concat (batches batchSize l) = l.
Proof.
  intros Hb. unfold batches.
  assert (0 <= Z.of_nat (length l) / batchSize) by (apply Z.div_pos; lia).
  pose proof (batches_prefix l batchSize (Z.to_nat (Z.of_nat (length l) / batchSize + 1)) Hb) as P.
  rewrite Z2Nat.id in P by lia. rewrite P by lia.
  apply take_ge.
  assert (Z.of_nat (length l) < (Z.of_nat (length l) / batchSize + 1) * batchSize).
  { pose proof (Z.mul_succ_div_gt (Z.of_nat (length l)) batchSize). lia. }
  lia.
Qed.

(** No batch holds more than [batchSize] tasks. *)
Lemma batches_bounded l batchSize :
  1 <= batchSize ->
  Forall (fun b => Z.of_nat (length b) <= batchSize) (batches batchSize l).
Proof.
  intros Hb. unfold batches. apply Forall_fmap, Forall_seqZ. intros i Hi. simpl.
  rewrite batch_within by lia. rewrite length_take. lia.
Qed.

(** The last batch holds the [n mod batchSize] tasks that the full batches
    leave: none when [batchSize] divides [n]. *)
Lemma batches_last l batchSize :
  1 <= batchSize ->
  exists b, last (batches batchSize l) = Some b
            /\ Z.of_nat (length b) = Z.of_nat (length l) mod batchSize.
Proof.
  intros Hb. unfold batches.
  assert (0 <= Z.of_nat (length l) / batchSize) by (apply Z.div_pos; lia).
  replace (Z.of_nat (length l) / batchSize + 1)
    with (Z.of_nat (S (Z.to_nat (Z.of_nat (length l) / batchSize)))) by lia.
  rewrite seqZ_S, fmap_app. simpl. rewrite last_snoc. eexists. split; [reflexivity |].
  rewrite Z.add_0_l, Z2Nat.id by lia. rewrite batch_within by lia.
  rewrite length_take, length_drop.
  pose proof (Z.mod_pos_bound (Z.of_nat (length l)) batchSize).
  pose proof (Z.div_mod (Z.of_nat (length l)) batchSize). nia.
Qed.
End Batches.
(** ** Segments and results *)

Lemma emitted_segments_app (t1 t2 : list Event) :
  emitted_segments (t1 ++ t2) = (emitted_segments t1 ++ emitted_segments t2)%list.
Proof. apply omap_app. Qed.

Lemma returned_results_app (t1 t2 : list Event) :
  returned_results (t1 ++ t2) = (returned_results t1 ++ returned_results t2)%list.
Proof. apply omap_app. Qed.

Lemma quiet_trace (t : list Event) :
  Forall quiet t -> emitted_segments t = [] /\ returned_results t = [].
Proof.
  unfold emitted_segments, returned_results.
  induction 1 as [| e t He _ [IH1 IH2]]; [done |].
  destruct e as [| | | | | | | | | | | | | | | [err |] [res |]]; simpl in *; done.
Qed.

Lemma quiet_no_upload (t : list Event) : Forall quiet t -> occurrences is_upload t = 0%nat.
Proof.
  unfold occurrences. induction 1 as [| e t He _ IH]; [done |]. by destruct e.
Qed.

(** Filling a hole of the results array adds one result. *)
Lemma omap_fill_hole {A} (results : list (option A)) (key : nat) (value : A) :
  results !! key = Some None ->
  omap id (<[key := Some value]> results) ≡ₚ value :: omap id results.
Proof.
  revert key. induction results as [| r results IH]; intros [| key] H; try done.
  - simpl in H. by injection H as ->.
  - simpl in *. destruct r as [a |]; simpl; [| by apply IH].
    rewrite IH by done. apply Permutation_swap.
Qed.

Section AsyncSegments.
Context {T : Type}.
Variable start : T -> M unit.
Variable done : T -> M (JsError + Segment).
Variable latency : T -> nat.
Hypothesis start_silent : forall t, emitted_segments (trace (start t)) = [].
Hypothesis done_emits : forall t tr segment,
  done t = (tr, inr (inr segment)) -> emitted_segments tr = [segment].

(** When all the tasks completing have succeeded, the results are the
    segments emitted on the way. *)
Lemma completions_done (cs : list (nat * T)) (results : list (option Segment))
    (t : list Event) (rs : list Segment) :
  NoDup (fst <$> cs) ->
  (forall c, c ∈ cs -> results !! fst c = Some None) ->
  completions done cs results = (t, inr (Done rs)) ->
  rs ≡ₚ (omap id results ++ emitted_segments t)%list.
Proof.
  revert results t. induction cs as [| [key x] cs IH]; intros results t Hnd Hholes.
  - intros [= <- <-]. by rewrite app_nil_r.
  - cbn [completions]. destruct (done x) as [tr [e | [err | segment]]] eqn:Hx; [done | done |].
    rewrite bind_inr.
    destruct (completions done cs (<[key:=Some segment]> results)) as [t' r'] eqn:Hcs.
    simpl. intros [= <- ->].
    rewrite fmap_cons in Hnd. apply NoDup_cons in Hnd as [Hkey Hnd].
    assert (rs ≡ₚ (omap id (<[key:=Some segment]> results) ++ emitted_segments t')%list) as Hrs.
    { apply IH; [done | | done]. intros c Hc.
      rewrite list_lookup_insert_ne; [apply Hholes; by right |].
      intros E. apply Hkey. simpl. rewrite E. apply list_elem_of_fmap. by exists c. }
    rewrite Hrs, omap_fill_hole by (apply (Hholes (key, x)); left).
    rewrite emitted_segments_app, (done_emits _ _ _ Hx). simpl.
    by rewrite Permutation_middle.
Qed.

Lemma for_each_start_silent (tasks : list T) :
  emitted_segments (trace (for_each start tasks)) = [].
Proof.
  induction tasks as [| x tasks IH]; [done |]. cbn [for_each].
  rewrite trace_bind. destruct (outcome (start x)); [apply start_silent |].
  by rewrite emitted_segments_app, start_silent, IH.
Qed.

Lemma parallel_done (tasks : list T) (t : list Event) (rs : list Segment) :
  parallel start done latency tasks = (t, inr (Done rs)) -> rs ≡ₚ emitted_segments t.
Proof.
  unfold parallel. pose proof (for_each_start_silent tasks) as Hs.
  destruct (for_each start tasks) as [ts [x | []]]; [done |]. rewrite bind_inr.
  destruct (completions _ _ _) as [tc rc] eqn:Hc. simpl in *. intros [= <- ->].
  rewrite emitted_segments_app, Hs. simpl.
  apply completions_done in Hc.
  - rewrite Hc. clear. by induction (length tasks).
  - rewrite completion_order_perm. clear.
    replace (fst <$> imap pair tasks) with (seq 0 (length tasks)); [apply NoDup_seq |].
    rewrite fmap_imap. rewrite (imap_ext _ (fun n _ => n)) by done.
    by rewrite imap_seq_0, list_fmap_id.
  - intros c Hc'. rewrite completion_order_perm in Hc'.
    apply elem_of_lookup_imap in Hc' as (i & x & -> & Hx). simpl.
    apply lookup_replicate_2. by eapply lookup_lt_Some.
Qed.

Lemma series_done (bs : list (list T)) (t : list Event) (rss : list (list Segment)) :
  series start done latency bs = (t, inr (Done rss)) -> concat rss ≡ₚ emitted_segments t.
Proof.
  revert t rss. induction bs as [| b bs IH]; intros t rss; [by intros [= <- <-] |].
  cbn [series]. destruct (parallel start done latency b) as [tb [x | [rs | e fl]]] eqn:Hb;
    [done | | done].
  rewrite bind_inr.
  destruct (series start done latency bs) as [ts [x | [more | e fl]]] eqn:Hbs; [done | | done].
  simpl. intros [= <- <-]. simpl.
  rewrite app_nil_r, emitted_segments_app.
  by rewrite <- (parallel_done _ _ _ Hb), <- (IH _ _ eq_refl).
Qed.
End AsyncSegments.

Section AsyncCounts.
Context {T : Type}.
Variable start : T -> M unit.
Variable done : T -> M (JsError + Segment).
Variable latency : T -> nat.
Hypothesis start_uploads : forall t tr,
  start t = (tr, inr tt) ->
  occurrences is_upload tr = 1%nat /\ length (emitted_segments tr) = 0%nat.
Hypothesis done_emits_one : forall t tr segment,
  done t = (tr, inr (inr segment)) ->
  occurrences is_upload tr = 0%nat /\ length (emitted_segments tr) = 1%nat.

Lemma for_each_count (tasks : list T) (ts : list Event) :
  for_each start tasks = (ts, inr tt) ->
  occurrences is_upload ts = length tasks /\ length (emitted_segments ts) = 0%nat.
Proof.
  revert ts. induction tasks as [| x tasks IH]; intros ts; [by intros [= <-] |].
  cbn [for_each]. destruct (start x) as [tr [e | []]] eqn:Hx; [done |].
  rewrite bind_inr. destruct (for_each start tasks) as [ts' [e | []]]; [done |].
  cbn [trace outcome fst snd]. intros [= <-].
  destruct (start_uploads _ _ Hx) as [H1 H2]. destruct (IH _ eq_refl) as [H3 H4].
  rewrite occurrences_app, emitted_segments_app, length_app. simpl. lia.
Qed.

Lemma completions_count (cs : list (nat * T)) (results : list (option Segment))
    (t : list Event) (rs : list Segment) :
  completions done cs results = (t, inr (Done rs)) ->
  occurrences is_upload t = 0%nat /\ length (emitted_segments t) = length cs.
Proof.
  revert results t. induction cs as [| [key x] cs IH]; intros results t; [by intros [= <-] |].
  cbn [completions]. destruct (done x) as [tr [e | [err | segment]]] eqn:Hx; [done | done |].
  rewrite bind_inr.
  destruct (completions done cs (<[key:=Some segment]> results)) as [t' r'] eqn:Hcs.
  cbn [trace outcome fst snd]. intros [= <- ->].
  destruct (done_emits_one _ _ _ Hx) as [H1 H2]. destruct (IH _ _ Hcs) as [H3 H4].
  rewrite occurrences_app, emitted_segments_app, length_app. simpl. lia.
Qed.

(** When a batch is done, every upload sent has given its segment. *)
Lemma parallel_count (tasks : list T) (t : list Event) (rs : list Segment) :
  parallel start done latency tasks = (t, inr (Done rs)) ->
  occurrences is_upload t = length (emitted_segments t).
Proof.
  unfold parallel. destruct (for_each start tasks) as [ts [x | []]] eqn:Hs; [done |].
  rewrite bind_inr. destruct (completions _ _ _) as [tc rc] eqn:Hc.
  cbn [trace outcome fst snd]. intros [= <- ->].
  destruct (for_each_count _ _ Hs) as [H1 H2]. destruct (completions_count _ _ _ _ Hc) as [H3 H4].
  rewrite occurrences_app, emitted_segments_app, length_app, H1, H2, H3, H4.
  rewrite (Permutation_length (completion_order_perm latency _)), length_imap. lia.
Qed.

Lemma series_count (bs : list (list T)) (t : list Event) (rss : list (list Segment)) :
  series start done latency bs = (t, inr (Done rss)) ->
  occurrences is_upload t = length (emitted_segments t).
Proof.
  revert t rss. induction bs as [| b bs IH]; intros t rss; [by intros [= <- <-] |].
  cbn [series]. destruct (parallel start done latency b) as [tb [x | [rs | e fl]]] eqn:Hb;
    [done | | done].
  rewrite bind_inr.
  destruct (series start done latency bs) as [ts [x | [more | e fl]]] eqn:Hbs; [done | | done].
  cbn [trace outcome fst snd]. intros [= <- <-].
  rewrite app_nil_r, occurrences_app, emitted_segments_app, length_app.
  by rewrite (parallel_count _ _ _ Hb), (IH _ _ eq_refl).
Qed.
End AsyncCounts.

(** The merge goes through the results of all the batches in order. *)
Lemma merge_results_concat (results : list (list Segment)) :
  merge_results results = foldl (fun res f => <[idx f := uri f]> res) ∅ (concat results).
Proof.
  unfold merge_results. generalize (∅ : JobResult).
  induction results as [| b results IH]; intros m; [done |].
  simpl. by rewrite IH, foldl_app.
Qed.

Lemma dom_foldl_insert (l : list Segment) (m : JobResult) :
  dom (foldl (fun res f => <[idx f := uri f]> res) m l) = dom m ∪ list_to_set (idx <$> l).
Proof.
  revert m. induction l as [| f l IH]; intros m; simpl; [set_solver |].
  rewrite IH, dom_insert_L. set_solver.
Qed.

Lemma lookup_foldl_insert (l : list Segment) (m : JobResult) (k : Z) (u : string) :
  foldl (fun res f => <[idx f := uri f]> res) m l !! k = Some u ->
  m !! k = Some u \/ exists f, f ∈ l /\ idx f = k /\ uri f = u.
Proof.
  revert m. induction l as [| f l IH]; intros m; simpl; [by left |].
  intros [H | (f' & Hf' & Hk & Hu)]%IH.
  - destruct (decide (idx f = k)) as [<- | Hne].
    + rewrite lookup_insert_eq in H. injection H as <-. right. exists f.
      by repeat split; [left | ..].
    + rewrite lookup_insert_ne in H by done. by left.
  - right. exists f'. by repeat split; [right | ..].
Qed.

(** The key set of the merged result is the set of the indices of the
    merged segments, and each key is mapped to the URI of one of them. *)
Lemma merge_results_spec (results : list (list Segment)) :
  dom (merge_results results) = list_to_set (idx <$> concat results)
  /\ forall k u, merge_results results !! k = Some u ->
       exists f, f ∈ concat results /\ idx f = k /\ uri f = u.
Proof.
  rewrite merge_results_concat. split.
  - rewrite dom_foldl_insert. set_solver.
  - intros k u [H | H]%lookup_foldl_insert; [by rewrite lookup_empty in H | done].
Qed.

Section LeadsTo.
Context (U : M unit -> Prop).

Lemma leads_quiet {A} (m : M A) : always quiet m -> leads_to U m.
Proof. by left. Qed.

Lemma leads_here (u : M unit) : U u -> leads_to U u.
Proof. intros Hu. right. by exists [], u. Qed.

Lemma leads_bind {A B} (m : M A) (k : A -> M B) :
  always quiet m -> (forall a, outcome m = inr a -> leads_to U (k a)) ->
  leads_to U (m ≫= k).
Proof.
  intros Hm Hk. unfold leads_to. rewrite trace_bind.
  destruct (outcome m) as [x | a]; [by left |].
  destruct (Hk a eq_refl) as [Hq | (pre & u & Hpre & Hu & ->)].
  - left. by apply Forall_app.
  - right. exists (trace m ++ pre)%list, u. rewrite app_assoc.
    split; [by apply Forall_app | done].
Qed.

Lemma leads_tell {B} (e : Event) (k : unit -> M B) :
  quiet e -> leads_to U (k tt) -> leads_to U (tell e ≫= k).
Proof.
  intros He Hk. apply leads_bind; [by apply always_tell |]. by intros [] _.
Qed.
End LeadsTo.

(** A run of the pipeline is quiet up to the upload phase, if it gets
    there. *)
Lemma leads_downloadAndExtractToS3 (G : Globals) (W : World) (segmenter : Segmenter)
    (video_uri s3_bucket : string) (fn : Callback JobResult) :
  (forall err, always quiet (handleError segmenter fn err)) ->
  leads_to (fun u => exists metadata,
              u = upload_and_finish G W segmenter video_uri s3_bucket metadata fn)
           (downloadAndExtractToS3 G W segmenter video_uri s3_bucket (Some fn)).
Proof.
  intros Herr. unfold downloadAndExtractToS3. cbv zeta. cbn [from_option id].
  apply leads_tell; [done |].
  destruct (tmp_file W) as [e | video_path]; [apply leads_quiet, Herr |].
  unfold downloadToLocal. apply leads_tell; [done |].
  apply leads_bind.
  { destruct (response (http W)) as [[statusCode content_type] |]; [| apply always_ret].
    unfold download_on_response. destruct (negb _); [| apply always_ret].
    apply always_bind; [apply Herr | intros; apply always_ret]. }
  intros [error contentType] _. cbn [fst snd]. unfold download_on_error, download_on_finish.
  destruct (ending (http W)) as [e | close_error]; [apply leads_quiet, Herr |].
  destruct error; [apply leads_quiet, always_ret |].
  destruct close_error; [apply leads_quiet, Herr |].
  assert (forall err metadata,
             leads_to (fun u => exists metadata,
                         u = upload_and_finish G W segmenter video_uri s3_bucket metadata fn)
               (after_probe G W segmenter video_uri s3_bucket video_path fn err metadata))
    as Hafter.
  { intros err metadata. unfold after_probe. apply leads_tell; [done |].
    destruct (tmp_dir W) as [e | dir_path]; [apply leads_quiet, Herr |].
    destruct (g_videoUri G) as [videoUri |]; [| apply leads_quiet, always_throw].
    rewrite bind_lookup_global. unfold extractSegments. apply leads_tell; [done |].
    assert (forall e, always quiet (tell CleanupFile;; handleError segmenter fn e)) as Hfail.
    { intros e. apply always_bind; [by apply always_tell | intros; apply Herr]. }
    destruct (ffmpeg_extract W) as [e | e | [e | files]]; try apply leads_quiet, Hfail.
    - apply leads_tell; [done |]. apply leads_quiet, Hfail.
    - apply leads_tell; [done |]. apply leads_tell; [done |]. apply leads_here. eauto. }
  unfold getVideoMetadata. apply leads_tell; [done |].
  destruct (ffmpeg_probe W); apply Hafter.
Qed.

Section JobResult.
Context (G : Globals) (W : World) (bucket : string) (video : Job).

Lemma handleError_quiet (err : JsError) :
  always quiet (handleError (Worker.segmenter_of W video) (Worker.on_processed video) err).
Proof.
  rewrite handleError_worker. unfold always. simpl.
  destruct (is_fatal err); by repeat constructor.
Qed.

Lemma processSegment_silent (t : Task) :
  always (fun e => match e with S3Upload _ _ _ => True | _ => False end)
         (processSegment G bucket (s3_dir_of (job_uri video)) t).
Proof.
  rewrite processSegment_cases. destruct (g_contentType G); by repeat constructor.
Qed.

Lemma processSegment_done_emits (t : Task) (tr : list Event) (segment : Segment) :
  processSegment_done G W (Worker.segmenter_of W video) bucket (s3_dir_of (job_uri video)) t
    = (tr, inr (inr segment)) ->
  emitted_segments tr = [segment].
Proof.
  rewrite processSegment_done_worker.
  destruct (s3_upload W (task_no t)); [done |].
  destruct (g_shivaUtils G); [| done]. destruct (pattern_exec _); [| done].
  intros [= <- <-]. by destruct (bus_publish W _).
Qed.

Lemma processSegment_done_returns_nothing (t : Task) :
  returned_results
    (trace (processSegment_done G W (Worker.segmenter_of W video) bucket
              (s3_dir_of (job_uri video)) t)) = [].
Proof.
  rewrite processSegment_done_worker.
  destruct (s3_upload W (task_no t)); [done |].
  destruct (g_shivaUtils G); [| done]. destruct (pattern_exec _); [| done].
  cbv zeta. simpl. by destruct (bus_publish W _).
Qed.

(** The upload phase returns at most the merge of the segments it
    emitted. *)
Lemma upload_and_finish_result (metadata : option Metadata) (res : JobResult) :
  let t := trace (upload_and_finish G W (Worker.segmenter_of W video) (job_uri video) bucket
                    metadata (Worker.on_processed video)) in
  res ∈ returned_results t ->
  exists results,
    res = merge_results results
    /\ concat results ≡ₚ emitted_segments t
    /\ occurrences is_upload t = length (emitted_segments t).
Proof.
  unfold upload_and_finish.
  destruct (g_frames G) as [frames |]; [| by intros ?%elem_of_nil].
  rewrite bind_lookup_global.
  destruct (segmentTasks_spec frames metadata) as [Ht _].
  destruct (segmentTasks frames metadata) as [tt' [x | tasks]]; simpl in Ht; subst tt';
    [by intros ?%elem_of_nil |].
  rewrite bind_inr. rewrite app_nil_l. cbn [trace fst].
  set (bs := batches (batchSize (Worker.segmenter_of W video)) tasks).
  assert (forall t, always (fun e => match e with Return _ _ => False | _ => True end)
                      (processSegment_done G W (Worker.segmenter_of W video) bucket
                         (s3_dir_of (job_uri video)) t)) as Hdone.
  { intros t. rewrite processSegment_done_worker.
    destruct (s3_upload W (task_no t)); [constructor |].
    destruct (g_shivaUtils G); [| constructor]. destruct (pattern_exec _); [| constructor].
    unfold always. simpl. destruct (bus_publish W _); by repeat constructor. }
  assert (always (fun e => match e with Return _ _ => False | _ => True end)
            (series (processSegment G bucket (s3_dir_of (job_uri video)))
                    (processSegment_done G W (Worker.segmenter_of W video) bucket
                       (s3_dir_of (job_uri video)))
                    (fun t => s3_latency W (task_no t)) bs)) as Hnoret.
  { apply always_series; intros b t _ _; [| apply Hdone].
    eapply Forall_impl; [apply processSegment_silent |]. by intros []. }
  assert (forall l, Forall (fun e => match e with Return _ _ => False | _ => True end) l ->
            returned_results l = []) as Hnone.
  { unfold returned_results. induction 1 as [| e l He _ IH]; [done |].
    by destruct e. }
  destruct (series _ _ _ bs) as [ts [x | [results | err in_flight]]] eqn:Hseries;
    apply Hnone in Hnoret; cbn [trace fst] in Hnoret.
  - rewrite bind_inl. simpl. rewrite Hnoret. by intros ?%elem_of_nil.
  - rewrite bind_inr. cbn [trace fst]. rewrite returned_results_app, Hnoret, app_nil_l.
    rewrite bind_tell.
    destruct (g_sequencer G); [| by intros ?%elem_of_nil].
    rewrite bind_lookup_global. unfold invoke, Worker.on_processed. simpl.
    intros ->%list_elem_of_singleton. eexists. split; [done |].
    rewrite occurrences_app, emitted_segments_app. simpl.
    rewrite app_nil_r, Nat.add_0_r.
    split.
    + eapply series_done; [| | exact Hseries].
      * intros t. pose proof (processSegment_silent t) as Hs.
        unfold always, emitted_segments in *. induction Hs as [| e l He _ IH]; [done |].
        by destruct e.
      * apply processSegment_done_emits.
    + eapply series_count; [| | exact Hseries].
      * intros t tr. rewrite processSegment_cases.
        destruct (g_contentType G); [| done]. by intros [= <-].
      * intros t tr segment. rewrite processSegment_done_worker.
        destruct (s3_upload W (task_no t)); [done |].
        destruct (g_shivaUtils G); [| done]. destruct (pattern_exec _); [| done].
        intros [= <- <-]. by destruct (bus_publish W _).
  - rewrite bind_inr. cbn [trace fst]. rewrite returned_results_app, Hnoret, app_nil_l.
    rewrite trace_bind.
    destruct (quiet_trace _ (handleError_quiet err)) as [_ Hq].
    assert (returned_results
              (trace (stragglers
                        (processSegment_done G W (Worker.segmenter_of W video) bucket
                           (s3_dir_of (job_uri video))) in_flight)) = [])
      as Hst by (apply Hnone, always_stragglers; intros; apply Hdone).
    destruct (outcome _); [| rewrite returned_results_app, Hst]; rewrite Hq;
      by intros ?%elem_of_nil.
Qed.
End JobResult.

Lemma lookup_foldl_insert_last (l : list Segment) (m : JobResult) (k : Z) :
  foldl (fun res f => <[idx f := uri f]> res) m l !! k
  = match last (filter (fun f => idx f = k) l) with
    | Some f => Some (uri f)
    | None => m !! k
    end.
Proof.
  induction l as [| f l IH] using rev_ind; [done |].
  rewrite foldl_app, filter_app. cbn [foldl].
  destruct (decide (idx f = k)) as [<- | Hne].
  - rewrite lookup_insert_eq, filter_cons_True by done.
    rewrite filter_nil, last_snoc. done.
  - rewrite lookup_insert_ne by done. rewrite filter_cons_False by done.
    rewrite filter_nil, app_nil_r. apply IH.
Qed.
(** ** Reports of the worker *)

Lemma published_app (t1 t2 : list Event) :
  published (t1 ++ t2) = (published t1 ++ published t2)%list.
Proof. apply omap_app. Qed.

Lemma emitted_errors_app (t1 t2 : list Event) :
  emitted_errors (t1 ++ t2) = (emitted_errors t1 ++ emitted_errors t2)%list.
Proof. apply omap_app. Qed.

Lemma returned_errors_app (t1 t2 : list Event) :
  returned_errors (t1 ++ t2) = (returned_errors t1 ++ returned_errors t2)%list.
Proof. apply omap_app. Qed.

#[export] Instance published_as_emitted_additive (video : Job) :
  Additive (published_as_emitted video).
Proof.
  split; [done |]. unfold published_as_emitted. intros t1 t2 H1 H2.
  by rewrite published_app, emitted_segments_app, fmap_app, H1, H2.
Qed.

#[export] Instance errors_paired_additive : Additive errors_paired.
Proof.
  split; [done |]. unfold errors_paired. intros t1 t2 H1 H2.
  by rewrite returned_errors_app, emitted_errors_app, H1, H2.
Qed.

Section Reports.
Context (G : Globals) (W : World) (bucket : string) (video : Job).

(** A property of traces that every run of the handler has, when the
    requests of the stages, the failure handler, the upload tasks and the
    success path have it. *)
Lemma holds_on_video (I : list Event -> Prop) `{!Additive I} :
  I [Log (NewVideo video)] ->
  (forall e, stage_event e = true -> I [e]) ->
  (forall err, holds I (handleError (Worker.segmenter_of W video)
                          (Worker.on_processed video) err)) ->
  (forall t, holds I (processSegment G bucket (s3_dir_of (job_uri video)) t)) ->
  (forall t, holds I (processSegment_done G W (Worker.segmenter_of W video) bucket
                        (s3_dir_of (job_uri video)) t)) ->
  I [CleanupDir] ->
  (forall res, I [EmitEnd res]
               /\ holds I (invoke (Worker.on_processed video) None (Some res))) ->
  holds I (Worker.on_video G W bucket video).
Proof.
  intros Hnew Hstage Herr Hstart Hdone Hdir Hres. unfold Worker.on_video.
  apply holds_bind; [done | done |]. intros _ _.
  apply holds_downloadAndExtractToS3; [done | auto | auto | auto |].
  intros metadata _. apply holds_upload_and_finish; auto.
Qed.

Lemma always_on_video (P : Event -> Prop) :
  P (Log (NewVideo video)) ->
  (forall e, stage_event e = true -> P e) ->
  (forall err, always P (handleError (Worker.segmenter_of W video)
                           (Worker.on_processed video) err)) ->
  (forall t, always P (processSegment G bucket (s3_dir_of (job_uri video)) t)) ->
  (forall t, always P (processSegment_done G W (Worker.segmenter_of W video) bucket
                         (s3_dir_of (job_uri video)) t)) ->
  P CleanupDir ->
  (forall res, P (EmitEnd res)
               /\ always P (invoke (Worker.on_processed video) None (Some res))) ->
  always P (Worker.on_video G W bucket video).
Proof.
  intros Hnew Hstage Herr Hstart Hdone Hdir Hres.
  apply (holds_on_video (Forall P)); try done.
  - by apply Forall_singleton.
  - intros e He. by apply Forall_singleton, Hstage.
  - by apply Forall_singleton.
  - intros res. destruct (Hres res). split; [by apply Forall_singleton | done].
Qed.

(** What is published is what was emitted. *)
Lemma published_of_run :
  published (trace (Worker.on_video G W bucket video))
  = segment_event_of video <$> emitted_segments (trace (Worker.on_video G W bucket video)).
Proof.
  apply (holds_on_video (published_as_emitted video)); try done.
  - intros e He. by destruct e.
  - intros err. rewrite handleError_worker. unfold holds. simpl.
    by destruct (is_fatal err).
  - intros t. rewrite processSegment_cases. by destruct (g_contentType G).
  - intros t. rewrite processSegment_done_worker.
    destruct (s3_upload W (task_no t)); [done |].
    destruct (g_shivaUtils G); [| done]. destruct (pattern_exec _); [| done].
    unfold holds. cbv zeta. simpl. by destruct (bus_publish W _).
Qed.
End Reports.
(** ** The order of the uploads *)

Lemma uploaded_keys_app (t1 t2 : list Event) :
  uploaded_keys (t1 ++ t2) = (uploaded_keys t1 ++ uploaded_keys t2)%list.
Proof. apply omap_app. Qed.

Lemma quiet_no_keys (t : list Event) : Forall quiet t -> uploaded_keys t = [].
Proof.
  unfold uploaded_keys. induction 1 as [| e t He _ IH]; [done |]. by destruct e.
Qed.

Section AsyncUploads.
Context {T R : Type}.
Variable start : T -> M unit.
Variable done : T -> M (JsError + R).
Variable latency : T -> nat.
Variable key : T -> string.
Hypothesis start_key : forall t,
  uploaded_keys (trace (start t)) = match outcome (start t) with
                                    | inr _ => [key t]
                                    | inl _ => []
                                    end.
Hypothesis done_no_upload : forall t, uploaded_keys (trace (done t)) = [].

Lemma for_each_keys (tasks : list T) :
  uploaded_keys (trace (for_each start tasks)) `prefix_of` key <$> tasks
  /\ (outcome (for_each start tasks) = inr tt ->
      uploaded_keys (trace (for_each start tasks)) = key <$> tasks).
Proof.
  induction tasks as [| x tasks [IH1 IH2]]; [done |]. cbn [for_each].
  rewrite trace_bind. pose proof (start_key x) as Hx.
  destruct (start x) as [tx [e | []]]; cbn [trace outcome fst snd] in *.
  - rewrite Hx. split; [apply prefix_nil | done].
  - rewrite bind_inr, uploaded_keys_app, Hx. cbn [outcome snd]. split.
    + rewrite fmap_cons. by apply prefix_cons.
    + intros H. by rewrite IH2.
Qed.

Lemma completions_keys (cs : list (nat * T)) (results : list (option R)) :
  uploaded_keys (trace (completions done cs results)) = [].
Proof.
  revert results. induction cs as [| [k x] cs IH]; intros results; [done |].
  cbn [completions]. rewrite trace_bind. pose proof (done_no_upload x) as Hx.
  destruct (done x) as [tx [e | [err | value]]]; cbn [trace outcome fst snd] in *;
    [done | by rewrite uploaded_keys_app, Hx |].
  by rewrite uploaded_keys_app, Hx, IH.
Qed.

Lemma parallel_keys (tasks : list T) :
  uploaded_keys (trace (parallel start done latency tasks)) `prefix_of` key <$> tasks
  /\ (forall r, outcome (parallel start done latency tasks) = inr r ->
      uploaded_keys (trace (parallel start done latency tasks)) = key <$> tasks).
Proof.
  unfold parallel. destruct (for_each_keys tasks) as [H1 H2]. rewrite trace_bind.
  destruct (for_each start tasks) as [ts [e | []]]; cbn [trace outcome fst snd] in *;
    [by split |].
  rewrite bind_inr, uploaded_keys_app, completions_keys, app_nil_r. by rewrite H2.
Qed.

(** The objects of the batches are sent in order, batch after batch; all
    of them when the series is done. *)
Lemma series_keys (bs : list (list T)) :
  uploaded_keys (trace (series start done latency bs)) `prefix_of` key <$> concat bs
  /\ (forall rss, outcome (series start done latency bs) = inr (Done rss) ->
      uploaded_keys (trace (series start done latency bs)) = key <$> concat bs).
Proof.
  induction bs as [| b bs [IH1 IH2]]; [done |]. cbn [series concat].
  rewrite fmap_app. destruct (parallel_keys b) as [H1 H2]. rewrite trace_bind.
  destruct (parallel start done latency b) as [tb [e | [rs | err fl]]];
    cbn [trace outcome fst snd] in *.
  - split; [by apply prefix_app_r | done].
  - rewrite bind_inr. cbn [outcome snd].
    rewrite uploaded_keys_app, (H2 _ eq_refl), trace_bind.
    destruct (series start done latency bs) as [ts [e | [more | err fl]]];
      cbn [trace outcome fst snd] in *;
      rewrite ?uploaded_keys_app; cbn [uploaded_keys omap]; rewrite ?app_nil_r.
    + split; [by apply prefix_app | done].
    + rewrite (IH2 _ eq_refl). by split.
    + split; [by apply prefix_app | done].
  - rewrite uploaded_keys_app, app_nil_r. split; [by apply prefix_app_r | done].
Qed.
End AsyncUploads.

Lemma no_results (t : list Event) : Forall not_a_result t -> returned_results t = [].
Proof.
  unfold returned_results. induction 1 as [| e t He _ IH]; [done |].
  by destruct e as [| | | | | | | | | | | | | | | [err |] [res |]].
Qed.

Lemma no_keys (t : list Event) :
  Forall (fun e => is_upload e = false) t -> uploaded_keys t = [].
Proof.
  unfold uploaded_keys. induction 1 as [| e t He _ IH]; [done |]. by destruct e.
Qed.

Section UploadOrder.
Context (G : Globals) (W : World) (bucket : string) (video : Job).

Lemma processSegment_key (t : Task) :
  uploaded_keys (trace (processSegment G bucket (s3_dir_of (job_uri video)) t))
  = match outcome (processSegment G bucket (s3_dir_of (job_uri video)) t) with
    | inr _ => [s3_key (task_file t) (s3_dir_of (job_uri video)) None]
    | inl _ => []
    end.
Proof. rewrite processSegment_cases. by destruct (g_contentType G). Qed.

Lemma processSegment_done_tail (t : Task) :
  always (fun e => is_upload e = false /\ not_a_result e)
         (processSegment_done G W (Worker.segmenter_of W video) bucket
            (s3_dir_of (job_uri video)) t).
Proof.
  rewrite processSegment_done_worker.
  destruct (s3_upload W (task_no t)); [constructor |].
  destruct (g_shivaUtils G); [| constructor]. destruct (pattern_exec _); [| constructor].
  unfold always. cbv zeta. simpl. destruct (bus_publish W _); by repeat constructor.
Qed.

Lemma processSegment_done_no_upload (t : Task) :
  uploaded_keys (trace (processSegment_done G W (Worker.segmenter_of W video) bucket
                          (s3_dir_of (job_uri video)) t)) = [].
Proof.
  apply no_keys. eapply Forall_impl; [apply processSegment_done_tail |]. by intros e [].
Qed.

Lemma processSegment_done_not_a_result (t : Task) :
  always not_a_result (processSegment_done G W (Worker.segmenter_of W video) bucket
                         (s3_dir_of (job_uri video)) t).
Proof. eapply Forall_impl; [apply processSegment_done_tail |]. by intros e []. Qed.

Lemma stragglers_no_upload (in_flight : list Task) :
  uploaded_keys (trace (stragglers (processSegment_done G W (Worker.segmenter_of W video)
                                      bucket (s3_dir_of (job_uri video))) in_flight)) = [].
Proof.
  apply no_keys, always_stragglers. intros t _.
  eapply Forall_impl; [apply processSegment_done_tail |]. by intros e [].
Qed.

(** The tasks carry the files of [frames], in order. *)
Lemma segmentTasks_files (frames : list string) (metadata : option Metadata)
    (tasks : list Task) :
  outcome (segmentTasks frames metadata) = inr tasks -> task_file <$> tasks = frames.
Proof.
  destruct metadata as [m |].
  - rewrite segmentTasks_probed. intros [= <-].
    rewrite fmap_imap. etransitivity; [apply (imap_const id frames) |].
    apply list_fmap_id.
  - rewrite segmentTasks_unprobed. destruct frames; [by intros [= <-] | done].
Qed.

Lemma upload_and_finish_keys (metadata : option Metadata) :
  let t := trace (upload_and_finish G W (Worker.segmenter_of W video) (job_uri video) bucket
                    metadata (Worker.on_processed video)) in
  uploaded_keys t `prefix_of` frame_keys G (job_uri video)
  /\ (returned_results t <> [] -> uploaded_keys t = frame_keys G (job_uri video)).
Proof.
  unfold upload_and_finish, frame_keys.
  destruct (g_frames G) as [frames |]; [| split; [apply prefix_nil | done]].
  rewrite bind_lookup_global. cbn [default from_option id].
  destruct (segmentTasks_spec frames metadata) as [Ht _].
  pose proof (segmentTasks_files frames metadata) as Hfiles.
  destruct (segmentTasks frames metadata) as [tt' [x | tasks]]; simpl in Ht; subst tt';
    [split; [apply prefix_nil | done] |].
  specialize (Hfiles tasks eq_refl). subst frames.
  rewrite bind_inr, app_nil_l. cbn [trace fst]. rewrite <- list_fmap_compose.
  set (key := (fun file => s3_key file (s3_dir_of (job_uri video)) None) ∘ task_file).
  destruct (series_keys _ _ (fun t => s3_latency W (task_no t)) key
              processSegment_key processSegment_done_no_upload
              (batches (batchSize (Worker.segmenter_of W video)) tasks)) as [H1 H2].
  rewrite batches_concat in H1, H2 by done.
  assert (always not_a_result
            (series (processSegment G bucket (s3_dir_of (job_uri video)))
               (processSegment_done G W (Worker.segmenter_of W video) bucket
                  (s3_dir_of (job_uri video)))
               (fun t => s3_latency W (task_no t))
               (batches (batchSize (Worker.segmenter_of W video)) tasks))) as Hnone.
  { apply always_series; intros b t _ _; [| apply processSegment_done_not_a_result].
    eapply Forall_impl; [apply processSegment_silent |]. by intros []. }
  apply no_results in Hnone. rewrite trace_bind.
  destruct (series _ _ _ _) as [ts [x | [results | err in_flight]]];
    cbn [trace outcome fst snd] in *.
  - split; [done | by rewrite Hnone].
  - rewrite uploaded_keys_app, (H2 _ eq_refl).
    assert (uploaded_keys (trace (tell CleanupDir;;
              _ ← lookup_global "sequencer" (g_sequencer G);
              tell (EmitEnd (merge_results results));;
              invoke (Worker.on_processed video) None (Some (merge_results results)))) = [])
      as ->.
    { rewrite bind_tell. destruct (g_sequencer G); [| done]. by rewrite bind_lookup_global. }
    by rewrite app_nil_r.
  - rewrite uploaded_keys_app, returned_results_app, Hnone, app_nil_l.
    rewrite trace_bind, handleError_worker. cbn [trace outcome fst snd].
    rewrite uploaded_keys_app, stragglers_no_upload, app_nil_r.
    assert (forall l : list Event, Forall quiet l -> uploaded_keys l = []) as Hq
      by apply quiet_no_keys.
    pose proof (handleError_quiet W video err) as Herr.
    rewrite handleError_worker in Herr. unfold always in Herr. cbn [trace fst] in Herr.
    rewrite (Hq _ Herr), app_nil_r. split; [done |].
    intros Hres. exfalso. apply Hres. rewrite returned_results_app.
    rewrite (proj2 (quiet_trace _ Herr)), app_nil_l.
    apply no_results, always_stragglers. intros; apply processSegment_done_not_a_result.
Qed.
End UploadOrder.
(** ** Digits *)

Section Digits.
Import Str.

Lemma uint_all_digits (d : Decimal.uint) : all_digits (NilEmpty.string_of_uint d) = true.
Proof. induction d; simpl; auto. Qed.

Lemma parse_uint_acc (d : Decimal.uint) (acc : positive) :
  fold_left parse_step (chars (NilEmpty.string_of_uint d)) (Z.pos acc)
  = Z.pos (Pos.of_uint_acc d acc).
Proof.
  revert acc.
  induction d as [| d IH | d IH | d IH | d IH | d IH | d IH | d IH | d IH | d IH | d IH];
    intros acc; [reflexivity | ..];
    cbn [NilEmpty.string_of_uint chars list_ascii_of_string fold_left];
    fold (chars (NilEmpty.string_of_uint d)); cbn [Pos.of_uint_acc]; rewrite <- IH; f_equal;
    unfold parse_step, digit_value;
    match goal with
    | |- context [nat_of_ascii ?c] =>
        let v := eval vm_compute in (nat_of_ascii c) in change (nat_of_ascii c) with v
    end; lia.
Qed.

Lemma parse_uint (d : Decimal.uint) :
  fold_left parse_step (chars (NilEmpty.string_of_uint d)) 0 = Z.of_N (Pos.of_uint d).
Proof.
  induction d as [| d IH | d IH | d IH | d IH | d IH | d IH | d IH | d IH | d IH | d IH];
    [reflexivity | exact IH | ..];
    cbn [NilEmpty.string_of_uint chars list_ascii_of_string fold_left Pos.of_uint Z.of_N];
    fold (chars (NilEmpty.string_of_uint d)); rewrite <- parse_uint_acc; reflexivity.
Qed.

(** Printing a natural number in decimal and parsing it back. *)
Lemma parseInt_string_of_Z (n : Z) : 0 <= n -> parseInt (string_of_Z n) = n.
Proof.
  intros Hn. unfold parseInt, string_of_Z.
  destruct n as [| p | p]; [reflexivity | | lia].
  cbn [Z.to_int NilZero.string_of_int]. unfold NilZero.string_of_uint.
  destruct (Pos.to_uint p) eqn:E;
    [by apply DecimalPos.Unsigned.to_uint_nonnil in E | ..];
    rewrite <- E, parse_uint, DecimalPos.Unsigned.of_to; reflexivity.
Qed.

Lemma string_of_Z_digits (n : Z) :
  0 <= n -> all_digits (string_of_Z n) = true /\ string_of_Z n <> "".
Proof.
  intros Hn. unfold string_of_Z.
  destruct n as [| p | p]; [by split | | lia].
  cbn [Z.to_int NilZero.string_of_int]. unfold NilZero.string_of_uint.
  destruct (Pos.to_uint p) eqn:E;
    [by apply DecimalPos.Unsigned.to_uint_nonnil in E | ..];
    rewrite <- E; (split; [apply uint_all_digits |]); rewrite E; discriminate.
Qed.

(** The digits of a run that something other than a digit ends. *)
Lemma take_digits_run (digits rest : string) :
  all_digits digits = true -> take_digits rest = "" ->
  take_digits (digits +:+ rest) = digits.
Proof.
  intros Hd Hr. induction digits as [| c digits IH]; [done |].
  simpl in Hd. apply andb_prop in Hd as [Hc Hd].
  change (take_digits (String c (digits +:+ rest)) = String c digits).
  simpl. rewrite Hc. by rewrite IH.
Qed.

(** The pattern skips a prefix in which no underscore is followed by a
    digit, and matches the run of digits after the next underscore. *)
Lemma pattern_exec_suffix (stem digits rest : string) :
  pattern_exec stem = None ->
  all_digits digits = true -> digits <> "" -> take_digits rest = "" ->
  pattern_exec (stem +:+ "_" +:+ digits +:+ rest) = Some digits.
Proof.
  intros Hstem Hd Hne Hr. induction stem as [| c stem IH].
  - change (pattern_exec (String "_" (digits +:+ rest)) = Some digits).
    simpl. rewrite take_digits_run by done. by destruct digits.
  - change (pattern_exec (String c (stem +:+ "_" +:+ digits +:+ rest)) = Some digits).
    simpl in *. destruct (Ascii.eqb c "_"); [| by apply IH].
    destruct (take_digits stem) eqn:E; [| done].
    replace (take_digits (stem +:+ "_" +:+ digits +:+ rest)) with "";
      [by apply IH |].
    destruct stem as [| c' stem]; [reflexivity |].
    change (take_digits (String c' stem))
      with (if is_digit c' then String c' (take_digits stem) else "") in E.
    change ("" = if is_digit c'
                 then String c' (take_digits (stem +:+ "_" +:+ digits +:+ rest)) else "").
    destruct (is_digit c'); [discriminate | reflexivity].
Qed.

(** The number the task parses from a name made by the pattern is the
    ordinal of the frame. *)
Lemma pattern_made_digits (file : string) (n : Z) :
  pattern_made file n ->
  pattern_exec (Path.basename file None) = Some (string_of_Z n)
  /\ parseInt (string_of_Z n) = n.
Proof.
  intros (stem & rest & Hname & Hstem & Hn). rewrite Hname.
  destruct (string_of_Z_digits n) as [Hd Hne]; [lia |].
  split; [by apply pattern_exec_suffix | apply parseInt_string_of_Z; lia].
Qed.

(** A name without an underscore holds no index. *)
Lemma pattern_exec_no_underscore (stem : string) :
  count_char "_" stem = 0%nat -> pattern_exec stem = None.
Proof.
  unfold count_char. induction stem as [| c stem IH]; [done |]. simpl.
  destruct (Ascii.eqb c "_"); [done | apply IH].
Qed.
End Digits.
(** ** Paths and names *)

Section PathFacts.
Import Str.

Lemma take_drop_while {A} (p : A -> bool) (l : list A) :
  (take_while p l ++ drop_while p l)%list = l.
Proof. induction l as [| x l IH]; [done |]. simpl. destruct (p x); simpl; by f_equal. Qed.

Lemma drop_while_head {A} (p : A -> bool) (l : list A) (x : A) (r : list A) :
  drop_while p l = x :: r -> p x = false.
Proof.
  induction l as [| y l IH]; [done |]. simpl. destruct (p y) eqn:E; [done |].
  by intros [= <- <-].
Qed.

Lemma length_take_while {A} (p : A -> bool) (l : list A) :
  (length (take_while p l) <= length l)%nat.
Proof. induction l as [| x l IH]; [done |]. simpl. destruct (p x); simpl; lia. Qed.

Lemma length_drop_while {A} (p : A -> bool) (l : list A) :
  (length (drop_while p l) <= length l)%nat.
Proof. induction l as [| x l IH]; [done |]. simpl. destruct (p x); simpl; lia. Qed.

Lemma of_chars_app (l1 l2 : list ascii) : of_chars (l1 ++ l2) = of_chars l1 +:+ of_chars l2.
Proof.
  induction l1 as [| c l1 IH]; [done |].
  change (String c (of_chars (l1 ++ l2)) = String c (of_chars l1 +:+ of_chars l2)).
  by rewrite IH.
Qed.

Lemma append_empty_r (s : string) : s +:+ "" = s.
Proof.
  induction s as [| c s IH]; [done |].
  change (String c (s +:+ "") = String c s). by rewrite IH.
Qed.

Lemma ends_with_chars_app (s l : list ascii) : ends_with_chars s (s ++ l) = true.
Proof.
  induction s as [| c s IH]; [done |]. simpl. by rewrite Ascii.eqb_refl, IH.
Qed.

Lemma length_last_portion_rev (p : string) :
  (length (Path.last_portion_rev p) <= length (chars p))%nat.
Proof.
  unfold Path.last_portion_rev.
  etransitivity; [apply length_take_while |].
  etransitivity; [apply length_drop_while |]. by rewrite length_rev.
Qed.

(** The base name cut by [path.basename(p, path.extname(p))], followed by
    the extension, is the base name: the cut removes the extension and
    nothing else. *)
Lemma basename_without_extension (p : string) :
  Path.basename p (Some (Path.extname p)) +:+ Path.extname p = Path.basename p None.
Proof.
  unfold Path.basename, Path.extname.
  set (b := Path.last_portion_rev p).
  pose proof (take_drop_while (fun c => negb (is_dot c)) b) as Hb.
  destruct (drop_while (fun c => negb (is_dot c)) b) as [| dot [| c before]] eqn:Hrest;
    [by rewrite append_empty_r | by rewrite append_empty_r |].
  destruct (bool_decide (b = ["."%char; "."%char])); [by rewrite append_empty_r |].
  set (after := take_while (fun c => negb (is_dot c)) b) in *.
  assert (dot = "."%char) as ->.
  { apply drop_while_head in Hrest. apply negb_false_iff in Hrest.
    by apply Ascii.eqb_eq in Hrest. }
  assert (rev (chars (of_chars (rev (after ++ ["."%char])))) = (after ++ ["."%char])%list) as ->.
  { unfold chars, of_chars. by rewrite list_ascii_of_string_of_list_ascii, rev_involutive. }
  assert (length b = length after + S (S (length before)))%nat as Hlen
    by (rewrite <- Hb, length_app; done).
  rewrite length_app. simpl length.
  rewrite bool_decide_false.
  2: { intros E. pose proof (length_last_portion_rev p) as Hp. fold b in Hp.
       rewrite <- E in Hp. unfold chars, of_chars in Hp.
       rewrite list_ascii_of_string_of_list_ascii, length_rev, length_app in Hp.
       simpl in Hp. lia. }
  replace (0 <? length after + 1)%nat with true by (symmetry; apply Nat.ltb_lt; lia).
  replace (length after + 1 <? length b)%nat with true by (symmetry; apply Nat.ltb_lt; lia).
  assert (b = ((after ++ ["."%char]) ++ c :: before)%list) as Hb'
    by (by rewrite <- Hb, <- app_assoc).
  clearbody after b. clear Hb Hlen Hrest. subst b. rewrite ends_with_chars_app.
  simpl andb. cbv iota.
  rewrite drop_app_length' by (rewrite length_app; simpl; lia).
  by rewrite <- of_chars_app, <- rev_app_distr.
Qed.
End PathFacts.

Section NameFacts.
Import Str.

Lemma chars_append (a b : string) : chars (a +:+ b) = (chars a ++ chars b)%list.
Proof.
  induction a as [| c a IH]; [done |].
  change (c :: chars (a +:+ b) = c :: (chars a ++ chars b)%list). by rewrite IH.
Qed.

Lemma chars_of_chars (l : list ascii) : chars (of_chars l) = l.
Proof. apply list_ascii_of_string_of_list_ascii. Qed.

Lemma of_chars_chars (s : string) : of_chars (chars s) = s.
Proof. apply string_of_list_ascii_of_string. Qed.

Lemma count_char_append (c : ascii) (a b : string) :
  count_char c (a +:+ b) = (count_char c a + count_char c b)%nat.
Proof. unfold count_char. by rewrite chars_append, List.filter_app, length_app. Qed.

Lemma count_char_none (c : ascii) (s : string) :
  count_char c s = 0%nat <-> Forall (fun x => Ascii.eqb x c = false) (chars s).
Proof.
  unfold count_char. induction (chars s) as [| x l IH]; [done |]. simpl.
  destruct (Ascii.eqb x c) eqn:E; simpl.
  - split; [done |]. intros H. apply Forall_cons in H as [H _]. congruence.
  - rewrite IH. split; [by constructor | by intros [_ H]%Forall_cons].
Qed.

Lemma take_while_all {A} (p : A -> bool) (l : list A) :
  Forall (fun x => p x = true) (take_while p l).
Proof.
  induction l as [| x l IH]; [constructor |]. simpl.
  destruct (p x) eqn:E; by constructor.
Qed.

Lemma take_while_app {A} (p : A -> bool) (l : list A) (x : A) (r : list A) :
  Forall (fun y => p y = true) l -> p x = false -> take_while p (l ++ x :: r) = l.
Proof.
  induction 1 as [| y l Hy _ IH]; intros Hx; simpl; [by rewrite Hx |].
  by rewrite Hy, IH.
Qed.

Lemma take_while_id {A} (p : A -> bool) (l : list A) :
  Forall (fun y => p y = true) l -> take_while p l = l.
Proof. induction 1 as [| y l Hy _ IH]; simpl; [done |]. by rewrite Hy, IH. Qed.

(** A base name holds no slash. *)
Lemma basename_no_slash (p : string) : count_char "/" (Path.basename p None) = 0%nat.
Proof.
  apply count_char_none. unfold Path.basename, Path.last_portion_rev.
  rewrite chars_of_chars. apply Forall_rev.
  eapply Forall_impl; [apply take_while_all |]. intros c Hc. simpl in Hc.
  by apply negb_true_iff in Hc.
Qed.

(** The last portion of [<dir>/<name>] is [<name>], for a name without a
    slash that is not empty; and such a name is its own base name. *)
Lemma last_portion_of_name (prefix name : list ascii) :
  Forall (fun c => is_slash c = false) name -> name <> [] ->
  take_while (fun c => negb (is_slash c))
    (drop_while is_slash (rev name ++ prefix))
  = take_while (fun c => negb (is_slash c)) (rev name ++ prefix).
Proof.
  intros Hname Hne. f_equal.
  destruct (rev name) as [| c r] eqn:E.
  - apply (f_equal (@rev _)) in E. rewrite rev_involutive in E. done.
  - apply Forall_rev in Hname. rewrite E in Hname.
    apply Forall_cons in Hname as [Hc _]. simpl. by rewrite Hc.
Qed.

Lemma basename_of_join (dir name : string) :
  count_char "/" name = 0%nat -> name <> "" ->
  Path.basename (dir +:+ "/" +:+ name) None = name
  /\ Path.basename name None = name.
Proof.
  intros Hname%count_char_none Hne.
  assert (chars name <> []) as Hne'.
  { intros E. apply Hne. by rewrite <- (of_chars_chars name), E. }
  assert (Forall (fun y => negb (is_slash y) = true) (rev (chars name))) as Hrev.
  { apply Forall_rev. eapply Forall_impl; [exact Hname |]. intros c Hc.
    unfold is_slash. by rewrite Hc. }
  unfold Path.basename, Path.last_portion_rev. split.
  - rewrite !chars_append, !rev_app_distr. simpl rev at 2. rewrite <- app_assoc.
    rewrite last_portion_of_name by done. simpl app at 2.
    rewrite take_while_app by done. by rewrite rev_involutive, of_chars_chars.
  - rewrite <- (app_nil_r (rev (chars name))).
    rewrite last_portion_of_name by done. rewrite app_nil_r.
    rewrite take_while_id by done. by rewrite rev_involutive, of_chars_chars.
Qed.
End NameFacts.


Section PatternFacts.
Import Str.

Lemma chars_nonempty (s : string) : s <> "" -> chars s <> [].
Proof. intros Hs E. apply Hs. by rewrite <- (of_chars_chars s), E. Qed.

Lemma substring_all (s : string) : String.substring 0 (String.length s) s = s.
Proof. induction s as [| c s IH]; [done |]. simpl. by rewrite IH. Qed.

Lemma substring_end (s : string) (n : nat) : String.substring (String.length s) n s = "".
Proof. induction s as [| c s IH]; [by destruct n |]. simpl. apply IH. Qed.

Lemma prefix_refl (s : string) : String.prefix s s = true.
Proof. induction s as [| c s IH]; [done |]. simpl. by destruct (ascii_dec c c). Qed.

(** A replacement text without a dollar sign is copied as it is. *)
Lemma expand_plain (rep matched before after : string) :
  count_char "$" rep = 0%nat -> expand rep matched before after = rep.
Proof.
  intros Hrep%count_char_none. induction rep as [| c rep IH]; [done |].
  apply Forall_cons in Hrep as [Hc Hrep]. cbn [expand]. rewrite Hc. by rewrite IH.
Qed.

(** An empty pattern matches at the start: the replacement comes first. *)
Lemma replace_first_empty (s rep : string) :
  count_char "$" rep = 0%nat -> replace_first s "" rep = rep +:+ s.
Proof.
  intros Hrep. unfold replace_first.
  destruct s as [| c s]; cbn [replace_at String.prefix]; rewrite expand_plain by done.
  - done.
  - by rewrite substring_all.
Qed.

(** A pattern that starts with a character the text before it does not
    hold is first matched where it stands. *)
Lemma replace_at_suffix (before_rev : list ascii) (stem e rep : string) (c : ascii) :
  count_char c stem = 0%nat -> count_char "$" rep = 0%nat ->
  replace_at before_rev (stem +:+ String c e) (String c e) rep = stem +:+ rep.
Proof.
  intros Hstem%count_char_none Hrep. revert before_rev.
  induction stem as [| x stem IH]; intros before_rev.
  - change ("" +:+ String c e) with (String c e). change ("" +:+ rep) with rep.
    destruct (String c e) as [| y r] eqn:E; [done |].
    cbn [replace_at]. rewrite prefix_refl, substring_end, expand_plain by done.
    apply append_empty_r.
  - apply Forall_cons in Hstem as [Hx Hstem].
    change (String x stem +:+ String c e) with (String x (stem +:+ String c e)).
    change (String x stem +:+ rep) with (String x (stem +:+ rep)).
    cbn [replace_at String.prefix].
    destruct (ascii_dec c x) as [-> | _]; [by rewrite Ascii.eqb_refl in Hx |].
    by rewrite IH.
Qed.

Lemma replace_first_suffix (stem e rep : string) (c : ascii) :
  count_char c stem = 0%nat -> count_char "$" rep = 0%nat ->
  replace_first (stem +:+ String c e) (String c e) rep = stem +:+ rep.
Proof. apply replace_at_suffix. Qed.

(** An extension starts with a dot. *)
Lemma extname_dot (p : string) :
  Path.extname p = "" \/ exists e, Path.extname p = String "." e.
Proof.
  unfold Path.extname.
  destruct (drop_while _ _) as [| dot [| c before]]; [by left | by left |].
  destruct (bool_decide _); [by left |]. right.
  rewrite rev_app_distr. simpl. by eexists.
Qed.

Lemma stem_no_slash (p : string) :
  count_char "/" (Path.basename p (Some (Path.extname p))) = 0%nat.
Proof.
  pose proof (basename_no_slash p) as H.
  rewrite <- basename_without_extension, count_char_append in H. lia.
Qed.

(** [path.join] keeps a file name as the last portion of the result. *)
Lemma split_slash_name (cur_rev name : list ascii) :
  Forall (fun c => is_slash c = false) name ->
  Path.split_slash cur_rev name = [(rev cur_rev ++ name)%list].
Proof.
  intros Hname. revert cur_rev. induction Hname as [| c name Hc _ IH]; intros cur_rev.
  - simpl. by rewrite app_nil_r.
  - cbn [Path.split_slash]. rewrite Hc, IH. simpl. by rewrite <- app_assoc.
Qed.

Lemma split_slash_app (cur_rev pre name : list ascii) :
  Forall (fun c => is_slash c = false) name ->
  Path.split_slash cur_rev (pre ++ "/"%char :: name)
  = (Path.split_slash cur_rev pre ++ [name])%list.
Proof.
  intros Hname. revert cur_rev. induction pre as [| c pre IH]; intros cur_rev.
  - simpl. by rewrite split_slash_name.
  - cbn [app Path.split_slash]. destruct (is_slash c); rewrite IH; done.
Qed.

Lemma resolve_name (allowAboveRoot : bool) (res_rev : list (list ascii)) (name : list ascii) :
  name <> [] -> name <> ["."%char] -> name <> ["."%char; "."%char] ->
  Path.resolve allowAboveRoot res_rev name = name :: res_rev.
Proof. intros. unfold Path.resolve. by rewrite !bool_decide_eq_false_2 by done. Qed.

Lemma join_segments_snoc (segs : list (list ascii)) (name : list ascii) :
  Path.join_segments (segs ++ [name])
  = match segs with
    | [] => name
    | _ :: _ => (Path.join_segments segs ++ "/"%char :: name)%list
    end.
Proof.
  induction segs as [| seg segs IH]; [done |].
  cbn [app Path.join_segments]. rewrite IH.
  destruct segs as [| seg' segs]; [done |].
  cbn [app]. by rewrite <- app_assoc.
Qed.

Lemma basename_of_portion (q name : list ascii) :
  Forall (fun c => is_slash c = false) name -> name <> [] ->
  q = [] \/ (exists q', q = (q' ++ ["/"%char])%list) ->
  Path.basename (of_chars (q ++ name)) None = of_chars name.
Proof.
  intros Hname Hne Hq.
  assert (Forall (fun y => negb (is_slash y) = true) (rev name)) as Hrev.
  { apply Forall_rev. eapply Forall_impl; [exact Hname |]. intros c Hc. by rewrite Hc. }
  unfold Path.basename, Path.last_portion_rev.
  rewrite chars_of_chars, rev_app_distr, last_portion_of_name by done.
  destruct Hq as [-> | [q' ->]].
  - simpl. rewrite app_nil_r, take_while_id by done. by rewrite rev_involutive.
  - rewrite rev_app_distr. simpl. rewrite take_while_app by done. by rewrite rev_involutive.
Qed.

Lemma normalize_keeps_name (pre name : list ascii) :
  Forall (fun c => is_slash c = false) name ->
  name <> [] -> name <> ["."%char] -> name <> ["."%char; "."%char] ->
  pre = [] \/ (exists pre', pre = (pre' ++ ["/"%char])%list) ->
  Path.basename (Path.normalize (of_chars (pre ++ name))) None = of_chars name.
Proof.
  intros Hname Hne Hdot Hdots Hpre. unfold Path.normalize. rewrite chars_of_chars.
  destruct (pre ++ name)%list as [| first rest] eqn:El.
  { by destruct pre, name. }
  generalize (is_slash first). intros abs. rewrite <- El. clear first rest El.
  assert (exists segs, Path.split_slash [] (pre ++ name) = (segs ++ [name])%list) as [segs ->].
  { destruct Hpre as [-> | [pre' ->]].
    - exists []. by rewrite split_slash_name.
    - rewrite <- app_assoc. eexists. by apply split_slash_app. }
  rewrite fold_left_app. cbn [fold_left]. rewrite resolve_name by done. cbn [rev].
  rewrite join_segments_snoc.
  assert (match rev (pre ++ name) with c :: _ => is_slash c | [] => false end = false) as ->.
  { rewrite rev_app_distr. destruct (rev name) as [| c r] eqn:E.
    - apply (f_equal (@rev _)) in E. by rewrite rev_involutive in E.
    - apply Forall_rev in Hname. rewrite E in Hname.
      by apply Forall_cons in Hname as [Hc _]. }
  rewrite app_nil_r.
  destruct (rev (fold_left _ segs [])) as [| seg kept] eqn:Ek.
  - destruct name as [| c name]; [done |].
    apply (basename_of_portion _ (c :: name)); [done | done |].
    destruct abs; [right; by exists [] | by left].
  - destruct (_ ++ _ :: name)%list as [| c body] eqn:Eb.
    { by destruct (Path.join_segments (seg :: kept)). }
    rewrite <- Eb. change ("/"%char :: name) with (["/"%char] ++ name)%list.
    rewrite !app_assoc.
    apply basename_of_portion; [done | done |]. right. by eexists.
Qed.

(** A name that holds an underscore is a file name proper. *)
Lemma underscored_name (name : string) :
  (0 < count_char "_" name)%nat -> name <> "" /\ name <> "." /\ name <> "..".
Proof. intros H. repeat split; intros ->; vm_compute in H; lia. Qed.

Lemma basename_of_path_join (dir name : string) :
  count_char "/" name = 0%nat -> name <> "" -> name <> "." -> name <> ".." ->
  Path.basename (Path.join dir name) None = name.
Proof.
  intros Hname%count_char_none Hne Hdot Hdots.
  assert (forall l, name <> of_chars l -> chars name <> l) as Hchars.
  { intros l H E. apply H. by rewrite <- E, of_chars_chars. }
  assert (Path.basename (Path.normalize name) None = name) as Hself.
  { pose proof (normalize_keeps_name [] (chars name)) as H. cbn [app] in H.
    rewrite of_chars_chars in H. apply H; auto. }
  assert (Path.basename (Path.normalize (dir +:+ "/" +:+ name)) None = name) as Hjoin.
  { pose proof (normalize_keeps_name (chars dir ++ ["/"%char]) (chars name)) as H.
    rewrite <- app_assoc in H.
    change (["/"%char] ++ chars name)%list with (chars ("/" +:+ name)) in H.
    rewrite <- chars_append, !of_chars_chars in H. apply H; auto. right. by eexists. }
  unfold Path.join. destruct dir as [| d dir], name as [| c n]; done.
Qed.


End PatternFacts.
(** ** The results of the tasks, in the order of the tasks *)

Lemma Forall2_concat {A B} (P : A -> B -> Prop) (ls : list (list A)) (ks : list (list B)) :
  Forall2 (Forall2 P) ls ks -> Forall2 P (concat ls) (concat ks).
Proof. induction 1 as [| l k ls ks H _ IH]; [constructor |]. simpl. by apply Forall2_app. Qed.

Section AsyncValues.
Context {T R : Type}.
Variable start : T -> M unit.
Variable done : T -> M (JsError + R).
Variable latency : T -> nat.

(** When all the tasks completing have succeeded, each of them has left
    its result at its key. *)
Lemma completions_values (cs : list (nat * T)) (results : list (option R))
    (t : list Event) (rs : list R) :
  completions done cs results = (t, inr (Done rs)) ->
  Forall (fun c => is_Some (result_of done (snd c))) cs
  /\ rs = omap id (filled done cs results).
Proof.
  revert results t. induction cs as [| [key x] cs IH]; intros results t.
  - intros [= <- <-]. by split.
  - cbn [completions]. destruct (done x) as [tr [e | [err | value]]] eqn:Hx; [done | done |].
    rewrite bind_inr.
    destruct (completions done cs (<[key:=Some value]> results)) as [t' r'] eqn:Hcs.
    simpl. intros [= <- ->].
    assert (result_of done x = Some value) as Hv by (unfold result_of; by rewrite Hx).
    destruct (IH _ _ Hcs) as [Hall ->]. split.
    + constructor; [simpl; rewrite Hv; by eexists | done].
    + unfold filled. simpl. by rewrite Hv.
Qed.

Lemma length_filled (cs : list (nat * T)) (results : list (option R)) :
  length (filled done cs results) = length results.
Proof.
  revert results. induction cs as [| c cs IH]; intros results; [done |].
  unfold filled in *. simpl. by rewrite IH, length_insert.
Qed.

Lemma filled_other (cs : list (nat * T)) (results : list (option R)) (i : nat) :
  i ∉ fst <$> cs -> filled done cs results !! i = results !! i.
Proof.
  revert results. induction cs as [| [key x] cs IH]; intros results Hi; [done |].
  rewrite fmap_cons, not_elem_of_cons in Hi. destruct Hi as [Hne Hi].
  unfold filled in *. simpl. rewrite IH by done. by apply list_lookup_insert_ne.
Qed.

Lemma filled_lookup (cs : list (nat * T)) (results : list (option R)) (i : nat) (x : T) :
  NoDup (fst <$> cs) -> (i, x) ∈ cs -> (i < length results)%nat ->
  filled done cs results !! i = Some (result_of done x).
Proof.
  revert results. induction cs as [| [key y] cs IH]; intros results Hnd Hin Hlt.
  - by apply elem_of_nil in Hin.
  - rewrite fmap_cons in Hnd. apply NoDup_cons in Hnd as [Hkey Hnd].
    apply elem_of_cons in Hin as [[= -> ->] | Hin].
    + change (filled done ((key, y) :: cs) results)
        with (filled done cs (<[key := result_of done y]> results)).
      rewrite filled_other by done. by apply list_lookup_insert_eq.
    + change (filled done ((key, y) :: cs) results)
        with (filled done cs (<[key := result_of done y]> results)).
      apply IH; [done | done | by rewrite length_insert].
Qed.

(** The results of [async.parallel] are those of its tasks, in the order
    of the tasks, whatever the order in which they completed. *)
Lemma parallel_values (tasks : list T) (t : list Event) (rs : list R) :
  parallel start done latency tasks = (t, inr (Done rs)) ->
  Forall2 (fun x r => result_of done x = Some r) tasks rs.
Proof.
  unfold parallel.
  destruct (for_each start tasks) as [ts [x | []]]; [done |]. rewrite bind_inr.
  destruct (completions _ _ _) as [tc rc] eqn:Hc. simpl. intros [= <- ->].
  apply completions_values in Hc as [Hall ->].
  assert (NoDup (fst <$> completion_order latency (imap pair tasks))) as Hnd.
  { rewrite completion_order_perm.
    replace (fst <$> imap pair tasks) with (seq 0 (length tasks)); [apply NoDup_seq |].
    rewrite fmap_imap. rewrite (imap_ext _ (fun n _ => n)) by done.
    by rewrite imap_seq_0, list_fmap_id. }
  assert (filled done (completion_order latency (imap pair tasks))
            (replicate (length tasks) None) = result_of done <$> tasks) as ->.
  { apply list_eq. intros i. rewrite list_lookup_fmap.
    destruct (tasks !! i) as [x |] eqn:Hx; simpl.
    - apply filled_lookup; [done | |].
      + rewrite completion_order_perm. apply elem_of_lookup_imap. by exists i, x.
      + rewrite length_replicate. by eapply lookup_lt_Some.
    - apply lookup_ge_None. rewrite length_filled, length_replicate.
      by apply lookup_ge_None. }
  assert (Forall (fun x => is_Some (result_of done x)) tasks) as Htasks.
  { apply Forall_forall. intros x Hx. apply list_elem_of_lookup in Hx as [i Hi].
    rewrite Forall_forall in Hall. apply (Hall (i, x)).
    rewrite completion_order_perm. apply elem_of_lookup_imap. by exists i, x. }
  clear -Htasks. induction Htasks as [| x tasks [r Hr] _ IH]; [constructor |].
  simpl. rewrite Hr. simpl. by constructor.
Qed.

Lemma series_values (bs : list (list T)) (t : list Event) (rss : list (list R)) :
  series start done latency bs = (t, inr (Done rss)) ->
  Forall2 (Forall2 (fun x r => result_of done x = Some r)) bs rss.
Proof.
  revert t rss. induction bs as [| b bs IH]; intros t rss; [intros [= <- <-]; constructor |].
  cbn [series]. destruct (parallel start done latency b) as [tb [x | [rs | e fl]]] eqn:Hb;
    [done | | done].
  rewrite bind_inr.
  destruct (series start done latency bs) as [ts [x | [more | e fl]]] eqn:Hbs; [done | | done].
  simpl. intros [= <- <-]. constructor; [by eapply parallel_values | by eapply IH].
Qed.
End AsyncValues.

Section FrameSegments.
Context (G : Globals) (W : World) (bucket : string) (video : Job).

(** A task that succeeds is one whose upload succeeded, and its result is
    the segment of its file. *)
Lemma result_of_processSegment (t : Task) (s : Segment) :
  result_of (processSegment_done G W (Worker.segmenter_of W video) bucket
               (s3_dir_of (job_uri video))) t = Some s ->
  s3_upload W (task_no t) = None
  /\ segment_of_frame G bucket (s3_dir_of (job_uri video)) (task_file t) s.
Proof.
  unfold result_of. rewrite processSegment_done_worker.
  destruct (s3_upload W (task_no t)); [done |].
  destruct (g_shivaUtils G) as [getS3Uri |] eqn:E; [| done].
  destruct (pattern_exec _) as [digits |] eqn:Ep; [| done].
  cbv zeta. simpl. intros [= <-]. split; [done |]. by exists digits, getS3Uri.
Qed.

Lemma segmentTasks_numbers (frames : list string) (metadata : option Metadata)
    (tasks : list Task) :
  outcome (segmentTasks frames metadata) = inr tasks ->
  task_no <$> tasks = seq 0 (length frames).
Proof.
  destruct metadata as [m |].
  - rewrite segmentTasks_probed. intros [= <-].
    rewrite fmap_imap. rewrite (imap_ext _ (fun n _ => n)) by done.
    by rewrite imap_seq_0, list_fmap_id.
  - rewrite segmentTasks_unprobed. destruct frames; [by intros [= <-] | done].
Qed.

(** A Job Result handed to the callback is the merge of the segments of
    all the files of [frames], batch after batch and file after file, each
    of them emitted once on the way. *)
Lemma upload_and_finish_segments (metadata : option Metadata) (res : JobResult) :
  let t := trace (upload_and_finish G W (Worker.segmenter_of W video) (job_uri video) bucket
                    metadata (Worker.on_processed video)) in
  res ∈ returned_results t ->
  exists frames segments results,
    g_frames G = Some frames
    /\ (forall n, (n < length frames)%nat -> s3_upload W n = None)
    /\ Forall2 (segment_of_frame G bucket (s3_dir_of (job_uri video))) frames segments
    /\ emitted_segments t ≡ₚ segments
    /\ concat results = segments
    /\ res = merge_results results.
Proof.
  unfold upload_and_finish.
  destruct (g_frames G) as [frames |]; [| by intros ?%elem_of_nil].
  rewrite bind_lookup_global.
  destruct (segmentTasks_spec frames metadata) as [Ht _].
  pose proof (segmentTasks_files frames metadata) as Hfiles.
  pose proof (segmentTasks_numbers frames metadata) as Hnos.
  destruct (segmentTasks frames metadata) as [tt' [x | tasks]]; simpl in Ht; subst tt';
    [by intros ?%elem_of_nil |].
  specialize (Hfiles tasks eq_refl). specialize (Hnos tasks eq_refl).
  rewrite bind_inr. rewrite app_nil_l. cbn [trace fst].
  set (bs := batches (batchSize (Worker.segmenter_of W video)) tasks).
  assert (concat bs = tasks) as Hbs by (by apply batches_concat).
  assert (always not_a_result
            (series (processSegment G bucket (s3_dir_of (job_uri video)))
                    (processSegment_done G W (Worker.segmenter_of W video) bucket
                       (s3_dir_of (job_uri video)))
                    (fun t => s3_latency W (task_no t)) bs)) as Hnoret.
  { apply always_series; intros b t _ _; [| apply processSegment_done_not_a_result].
    eapply Forall_impl; [apply processSegment_silent |]. by intros []. }
  apply no_results in Hnoret.
  destruct (series _ _ _ bs) as [ts [x | [results | err in_flight]]] eqn:Hseries;
    cbn [trace fst] in Hnoret.
  - rewrite bind_inl. simpl. rewrite Hnoret. by intros ?%elem_of_nil.
  - rewrite bind_inr. cbn [trace fst]. rewrite returned_results_app, Hnoret, app_nil_l.
    rewrite bind_tell.
    destruct (g_sequencer G); [| by intros ?%elem_of_nil].
    rewrite bind_lookup_global. unfold invoke, Worker.on_processed. simpl.
    intros ->%list_elem_of_singleton.
    pose proof (series_values _ _ _ _ _ _ Hseries) as Hvalues.
    apply Forall2_concat in Hvalues. rewrite Hbs in Hvalues.
    exists frames, (concat results), results.
    split; [done |]. split; [| split; [| split; [| done]]].
    + intros n Hn.
      assert (n ∈ task_no <$> tasks) as (x & -> & Hx)%list_elem_of_fmap.
      { rewrite Hnos. apply elem_of_seq. lia. }
      apply list_elem_of_lookup in Hx as [i Hi].
      destruct (Forall2_lookup_l _ _ _ _ _ Hvalues Hi) as (r & _ & Hr).
      by apply result_of_processSegment in Hr as [Hr _].
    + rewrite <- Hfiles. apply Forall2_fmap_l.
      eapply Forall2_impl; [exact Hvalues |]. intros x r Hr.
      by apply result_of_processSegment in Hr as [_ Hr].
    + rewrite emitted_segments_app. simpl. rewrite app_nil_r. symmetry.
      eapply series_done; [| | exact Hseries].
      * intros t. pose proof (processSegment_silent G bucket video t) as Hs.
        unfold always, emitted_segments in *. induction Hs as [| e l He _ IH]; [done |].
        by destruct e.
      * apply processSegment_done_emits.
  - rewrite bind_inr. cbn [trace fst]. rewrite returned_results_app, Hnoret, app_nil_l.
    rewrite trace_bind, handleError_worker. cbn [trace outcome fst snd].
    rewrite returned_results_app.
    assert (returned_results
              (trace (stragglers
                        (processSegment_done G W (Worker.segmenter_of W video) bucket
                           (s3_dir_of (job_uri video))) in_flight)) = []) as ->.
    { apply no_results, always_stragglers. intros; apply processSegment_done_not_a_result. }
    destruct (is_fatal err); by intros ?%elem_of_nil.
Qed.

(** A Job Result handed to the callback by a run of the handler. *)
Lemma on_video_segments (res : JobResult) :
  let t := trace (Worker.on_video G W bucket video) in
  res ∈ returned_results t ->
  exists frames segments results,
    g_frames G = Some frames
    /\ (forall n, (n < length frames)%nat -> s3_upload W n = None)
    /\ uploaded_keys t = frame_keys G (job_uri video)
    /\ Forall2 (segment_of_frame G bucket (s3_dir_of (job_uri video))) frames segments
    /\ emitted_segments t ≡ₚ segments
    /\ concat results = segments
    /\ res = merge_results results.
Proof.
  intros t Hres. subst t. unfold Worker.on_video in *. rewrite bind_tell in *.
  cbn [trace fst] in *.
  change (returned_results (Log ?x :: ?l)) with (returned_results l) in Hres.
  change (emitted_segments (Log ?x :: ?l)) with (emitted_segments l).
  change (uploaded_keys (Log ?x :: ?l)) with (uploaded_keys l).
  destruct (leads_downloadAndExtractToS3 G W (Worker.segmenter_of W video) (job_uri video)
              bucket (Worker.on_processed video) (handleError_quiet W video))
    as [Hq | (pre & u & Hpre & [metadata ->] & Ht)].
  { apply quiet_trace in Hq as [_ Hq]. rewrite Hq in Hres. by apply elem_of_nil in Hres. }
  rewrite Ht in *. rewrite returned_results_app in Hres.
  rewrite emitted_segments_app, uploaded_keys_app, (quiet_no_keys _ Hpre).
  apply quiet_trace in Hpre as [Hpre1 Hpre2]. rewrite Hpre2 in Hres. rewrite Hpre1.
  rewrite !app_nil_l in *.
  destruct (upload_and_finish_keys G W bucket video metadata) as [_ Hkeys].
  destruct (upload_and_finish_segments metadata res Hres)
    as (frames & segments & results & Hf & Hup & Hseg & Hem & Hcat & ->).
  exists frames, segments, results.
  split; [done |]. split; [done |]. split; [| done].
  apply Hkeys. intros E. rewrite E in Hres. by apply elem_of_nil in Hres.
Qed.
End FrameSegments.
(** * The statements of the specification *)

(** ** C1: the ack decision of the consumer *)

(** C1 (as stated, refuted): on a job whose source answers 404 the pipeline
    reports a fatal error to the consumer's callback, and the consumer calls
    [msg.finish()]: the message is acknowledged. *)
Lemma fatal_failure_is_acknowledged :
  let t := trace (Worker.on_video shipped Sample.not_found "bucket" Sample.job) in
  returned_errors t = [Sample.invalid_status_404]
  /\ fatal Sample.invalid_status_404 = Some true
  /\ occurrences is_finish t = 1%nat.
Proof. vm_compute. auto. Qed.

#[export] Instance ack_balance_additive : Additive ack_balance.
Proof.
  split; [done |]. unfold ack_balance. intros t1 t2 H1 H2.
  rewrite !occurrences_app. lia.
Qed.

(** C1 (amended): what the callback of the consumer does with an error is
    decided by its fatal flag. A fatal error is handled as a success is: the
    "completed" line is logged and [msg.finish()] is called, once. A
    non-fatal error logs the "failed" line and leaves the message
    un-acknowledged. So in every run of the handler there are as many calls
    of [msg.finish()] as calls of the callback without an error or with a
    fatal one. *)
Theorem ack_decided_by_fatal_flag (G : Globals) (W : World) (bucket : string) (video : Job)
    (err : JsError) (res : option JobResult) :
  Worker.on_processed video (Some err) res =
    (if is_fatal err
     then [Log (ProcessingCompleted (job_uri video)); MsgFinish]
     else [Log (ProcessingFailed (job_uri video) err)],
     inr tt)
  /\ Worker.on_processed video None res =
       ([Log (ProcessingCompleted (job_uri video)); MsgFinish], inr tt)
  /\ ack_balance (trace (Worker.on_video G W bucket video)).
Proof.
  split; [| split; [reflexivity |]].
  { unfold Worker.on_processed. destruct (is_fatal err); reflexivity. }
  unfold Worker.on_video.
  apply (holds_bind ack_balance); [done |]. intros _ _.
  apply (holds_downloadAndExtractToS3 ack_balance).
  - intros e He Hx. by destruct e.
  - intros Hv e He. by destruct e.
  - intros e _. rewrite handleError_worker. unfold holds, ack_balance, occurrences.
    cbn [trace fst app List.filter is_finish acked_return].
    destruct (is_fatal e); reflexivity.
  - intros metadata Hv. apply (holds_upload_and_finish ack_balance).
    + intros e _. rewrite handleError_worker. unfold holds, ack_balance, occurrences.
      cbn [trace fst app List.filter is_finish acked_return].
      destruct (is_fatal e); reflexivity.
    + intros frames t Hf Hin. split.
      * rewrite processSegment_cases. by destruct (g_contentType G).
      * rewrite processSegment_done_worker.
        destruct (s3_upload W (task_no t)); [done |].
        destruct (g_shivaUtils G); [| done]. destruct (pattern_exec _); [| done].
        unfold holds. cbv zeta. simpl. by destruct (bus_publish W _).
    + done.
    + done.
Qed.
(** ** C2: release of the temporary file and directory *)

(** C2 (the code on failing runs): whenever the temporary file has been
    made and the source answers with a status other than 200, the callback
    gets the status error and [cleanup_file] is never called, whatever the
    collaborators do afterwards. And whenever the run reaches the extraction
    and the extraction fails, the temporary directory has been made, the
    callback gets the error, [cleanup_file] has been called once and
    [cleanup_dir] is never called. *)
Theorem temporary_resources_leak_on_failure :
  (forall (G : Globals) (W : World) (bucket : string) (video : Job) (video_path : string)
          (statusCode : Z) (content_type : option string),
      tmp_file W = inr video_path ->
      response (http W) = Some (statusCode, content_type) ->
      statusCode <> 200 ->
      let t := trace (Worker.on_video G W bucket video) in
      In TmpFile t
      /\ In (status_error (job_uri video) statusCode) (returned_errors t)
      /\ occurrences is_cleanup_file t = 0%nat)
  /\ (forall (G : Globals) (W : World) (bucket : string) (video : Job)
             (video_path dir_path videoUri : string) (err : JsError),
      tmp_file W = inr video_path ->
      download_ok (http W) = true ->
      tmp_dir W = inr dir_path ->
      g_videoUri G = Some videoUri ->
      extraction_fails (ffmpeg_extract W) err ->
      let t := trace (Worker.on_video G W bucket video) in
      In TmpDir t
      /\ returned_errors t = [err]
      /\ occurrences is_cleanup_file t = 1%nat
      /\ occurrences is_cleanup_dir t = 0%nat).
Proof.
  split.
  - intros G W bucket video video_path statusCode content_type Hfile Hresp Hstatus.
    unfold Worker.on_video, downloadAndExtractToS3. rewrite Hfile.
    unfold downloadToLocal, download_on_response. rewrite Hresp.
    apply Z.eqb_neq in Hstatus. rewrite Z.eqb_sym in Hstatus. rewrite Hstatus.
    destruct (ending (http W)) as [[msg [[|] |]] | [e |]]; vm_compute; auto.
  - intros G W bucket video video_path dir_path videoUri err Hfile Hdl Hdir Huri Hx.
    unfold Worker.on_video, downloadAndExtractToS3. rewrite Hfile.
    unfold downloadToLocal, download_ok in *.
    destruct (http W) as [[[status ct] |] [e | [e |]]]; simpl in Hdl; try discriminate;
      [apply Z.eqb_eq in Hdl; subst status |];
      unfold getVideoMetadata, after_probe, extractSegments; rewrite Hdir, Huri;
      destruct (ffmpeg_probe W);
      destruct Hx as [-> | [-> | ->]]; destruct err as [msg [[|] |]]; vm_compute; auto 10.
Qed.

Lemma temporary_resources_leak_on_failure_witness :
  (let t := trace (Worker.on_video shipped Sample.not_found "bucket" Sample.job) in
   In TmpFile t
   /\ In (status_error (job_uri Sample.job) 404) (returned_errors t)
   /\ occurrences is_cleanup_file t = 0%nat)
  /\ (let t := trace (Worker.on_video Sample.patched Sample.unextractable "bucket" Sample.job) in
      In TmpDir t
      /\ returned_errors t = [Sample.corrupt]
      /\ occurrences is_cleanup_file t = 1%nat
      /\ occurrences is_cleanup_dir t = 0%nat).
Proof.
  destruct temporary_resources_leak_on_failure as [Hfile Hdir]. split.
  - apply (Hfile shipped Sample.not_found "bucket" Sample.job "/tmp/tmp-42abc.tmp" 404
             (Some "text/html")).
    + reflexivity.
    + reflexivity.
    + discriminate.
  - apply (Hdir Sample.patched Sample.unextractable "bucket" Sample.job "/tmp/tmp-42abc.tmp"
             "/tmp/tmp-42dir" "https://host/movie.mp4" Sample.corrupt).
    + reflexivity.
    + reflexivity.
    + reflexivity.
    + reflexivity.
    + right. right. reflexivity.
Defined.
(** ** C3: the batches *)

(** C3 (the code at failing inputs): when the batch size is at least 1 and
    divides the number of files, [n = k * batchSize] with [k >= 1], the loop
    makes [k + 1] batches, one more than ⌈n / batchSize⌉ = [k], and the
    last of them is empty. *)
Theorem batches_one_too_many (batchSize k : Z) (files : list string) :
  1 <= batchSize -> 1 <= k ->
  Z.of_nat (length files) = k * batchSize ->
  Z.of_nat (length (batches batchSize files)) = k + 1
  /\ ceil_div (Z.of_nat (length files)) batchSize = k
  /\ last (batches batchSize files) = Some [].
Proof.
  intros Hb Hk Hn. split; [| split].
  - rewrite batches_length by lia. rewrite Hn, Z.div_mul by lia. lia.
  - unfold ceil_div. rewrite Hn.
    replace (k * batchSize + batchSize - 1) with (batchSize - 1 + k * batchSize) by lia.
    rewrite Z.div_add by lia. rewrite Z.div_small by lia. lia.
  - destruct (batches_last files batchSize Hb) as (b & -> & Hlen).
    rewrite Hn, Z.mod_mul in Hlen by lia.
    destruct b; [reflexivity | simpl in Hlen; lia].
Qed.

Lemma batches_one_too_many_witness :
  Z.of_nat (length (batches 10 (replicate 10 "f_1.jpg"))) = 1 + 1
  /\ ceil_div (Z.of_nat (length (replicate 10 "f_1.jpg"))) 10 = 1
  /\ last (batches 10 (replicate 10 "f_1.jpg")) = Some [].
Proof.
  apply (batches_one_too_many 10 1 (replicate 10 "f_1.jpg")).
  - lia.
  - lia.
  - reflexivity.
Defined.

(** ** C4: the Job Result *)

(** C4 (as stated, refuted): the URIs of a Job Result are not answers of
    the object store. The callback given to [s3.upload] reads its error and
    nothing else, and the URI is what [shivaUtils.getS3Uri] makes of the
    bucket and the key: against one and the same store, and with the same
    objects sent to it, two helpers give two different URIs for the frame
    of index 1. *)
Lemma result_uris_are_made_by_the_helper :
  let t := trace (Worker.on_video Sample.extracted Sample.extracting "bucket" Sample.job) in
  let t' := trace (Worker.on_video Sample.relabelled Sample.extracting "bucket" Sample.job) in
  filter (fun e => is_upload e = true) t = filter (fun e => is_upload e = true) t'
  /\ (fun res : JobResult => res !! 1) <$> returned_results t
     = [Some "https://bucket.s3.amazonaws.com/movie/tmp-42abc_1.mp4"]
  /\ (fun res : JobResult => res !! 1) <$> returned_results t'
     = [Some "s3://bucket/movie/tmp-42abc_1.mp4"].
Proof. vm_compute. done. Qed.

(** C4 (amended): in a run that hands a Job Result to the callback, every
    file of [frames] was sent to the store, once and in order, and every
    upload succeeded; every file gave one segment, emitted once, whose
    index is the number parsed from the name of the file and whose URI is
    what [shivaUtils.getS3Uri] makes of the bucket and of the key of the
    file. The Job Result is the merge of the results of the batches, which
    are these segments in the order of the files: its keys are exactly the
    indices of the files of [frames], and each key is mapped to the URI of
    the last file that carries it. (The numbers in the names are below
    2^53.) *)
Theorem job_result_keys (G : Globals) (W : World) (bucket : string) (video : Job)
    (res : JobResult) :
  exact_indices (default [] (g_frames G)) = true ->
  let t := trace (Worker.on_video G W bucket video) in
  res ∈ returned_results t ->
  exists frames segments results,
    g_frames G = Some frames
    /\ (forall n, (n < length frames)%nat -> s3_upload W n = None)
    /\ uploaded_keys t = frame_keys G (job_uri video)
    /\ Forall2 (segment_of_frame G bucket (s3_dir_of (job_uri video))) frames segments
    /\ emitted_segments t ≡ₚ segments
    /\ concat results = segments
    /\ res = merge_results results
    /\ dom res = list_to_set (idx <$> segments)
    /\ forall k, res !! k = uri <$> last (filter (fun s => idx s = k) segments).
Proof.
  intros _ t Hres.
  destruct (on_video_segments G W bucket video res Hres)
    as (frames & segments & results & Hf & Hup & Hkeys & Hseg & Hem & Hcat & ->).
  exists frames, segments, results. repeat (split; [done |]). split.
  - destruct (merge_results_spec results) as [Hdom _]. by rewrite Hdom, Hcat.
  - intros k. rewrite merge_results_concat, lookup_foldl_insert_last, lookup_empty, Hcat.
    by destruct (last _).
Qed.

Lemma job_result_keys_witness :
  let t := trace (Worker.on_video Sample.extracted Sample.extracting "bucket" Sample.job) in
  let res := default ∅ (head (returned_results t)) in
  res ∈ returned_results t
  /\ exists frames segments results,
       g_frames Sample.extracted = Some frames
       /\ (forall n, (n < length frames)%nat -> s3_upload Sample.extracting n = None)
       /\ uploaded_keys t = frame_keys Sample.extracted (job_uri Sample.job)
       /\ Forall2 (segment_of_frame Sample.extracted "bucket" (s3_dir_of (job_uri Sample.job)))
            frames segments
       /\ emitted_segments t ≡ₚ segments
       /\ concat results = segments
       /\ res = merge_results results
       /\ dom res = list_to_set (idx <$> segments)
       /\ forall k, res !! k = uri <$> last (filter (fun s => idx s = k) segments).
Proof.
  assert (default ∅ (head (returned_results
            (trace (Worker.on_video Sample.extracted Sample.extracting "bucket" Sample.job))))
          ∈ returned_results
              (trace (Worker.on_video Sample.extracted Sample.extracting "bucket" Sample.job))) as H
    by (vm_compute; left).
  split; [exact H |].
  exact (job_result_keys Sample.extracted Sample.extracting "bucket" Sample.job _ eq_refl H).
Defined.
(** ** C5: how the download stage classifies its failures *)

(** C5: a response whose status is not 2xx makes [downloadToLocal] call
    back with a new error whose [fatal] is [true] (and the later ['finish']
    does not call back again); an ['error'] of the request, before any
    response or after a 200 one, is passed to the callback as it is, so an
    error that came without a fatal flag is reported without one. *)
Theorem download_classification (uri filePath : string) (fn : Callback string)
    (statusCode : Z) (content_type : option string) (close_error : option JsError)
    (err : JsError) :
  ~ (200 <= statusCode <= 299) ->
  fatal err = None ->
  (exists error,
      fatal error = Some true /\
      downloadToLocal uri filePath
        {| response := Some (statusCode, content_type); ending := Finished close_error |} fn
      = (tell (HttpGet uri filePath);; fn (Some error) None))
  /\ is_fatal err = false
  /\ downloadToLocal uri filePath {| response := None; ending := TransportError err |} fn
     = (tell (HttpGet uri filePath);; fn (Some err) None)
  /\ downloadToLocal uri filePath
       {| response := Some (200, content_type); ending := TransportError err |} fn
     = (tell (HttpGet uri filePath);; fn (Some err) None).
Proof.
  intros Hstatus Hflag. split; [| split; [| split]].
  - exists {| message := "Invalid status code: " +:+ string_of_Z statusCode
                          +:+ " while downloading " +:+ uri;
              fatal := Some true |}.
    split; [reflexivity |].
    unfold downloadToLocal, download_on_response. cbn [response ending].
    destruct (200 =? statusCode) eqn:E; [apply Z.eqb_eq in E; lia |]. cbn [negb].
    unfold mbind, M_bind, tell, mret, M_ret, download_on_finish.
    destruct (fn _ None) as [t [x | []]]; simpl; [reflexivity |].
    by rewrite !app_nil_r.
  - unfold is_fatal. by rewrite Hflag.
  - reflexivity.
  - reflexivity.
Qed.

Lemma download_classification_witness :
  (exists error,
      fatal error = Some true /\
      downloadToLocal "https://host/movie.mp4" "/tmp/tmp-42abc.tmp"
        {| response := Some (404, None); ending := Finished None |} (fun _ _ => mret tt)
      = (tell (HttpGet "https://host/movie.mp4" "/tmp/tmp-42abc.tmp");;
         (fun _ _ => mret tt) (Some error) (@None string)))
  /\ is_fatal Sample.econnreset = false
  /\ downloadToLocal "https://host/movie.mp4" "/tmp/tmp-42abc.tmp"
       {| response := None; ending := TransportError Sample.econnreset |} (fun _ _ => mret tt)
     = (tell (HttpGet "https://host/movie.mp4" "/tmp/tmp-42abc.tmp");;
        (fun _ _ => mret tt) (Some Sample.econnreset) (@None string))
  /\ downloadToLocal "https://host/movie.mp4" "/tmp/tmp-42abc.tmp"
       {| response := Some (200, None); ending := TransportError Sample.econnreset |}
       (fun _ _ => mret tt)
     = (tell (HttpGet "https://host/movie.mp4" "/tmp/tmp-42abc.tmp");;
        (fun _ _ => mret tt) (Some Sample.econnreset) (@None string)).
Proof.
  apply (download_classification "https://host/movie.mp4" "/tmp/tmp-42abc.tmp"
           (fun _ _ => mret tt) 404 None None Sample.econnreset).
  - lia.
  - reflexivity.
Defined.

(** ** C6: a failure of the metadata probe *)

(** The probe does not classify its failures. Whether [new ffmpeg] throws
    or its promise is rejected, [getVideoMetadata] calls back once, with
    the tool's error as it is and no metadata. And the pipeline classifies
    nothing else: in every run, the error of an error event or of a call of
    the callback is the status error of the download (the one error made
    with [fatal] set), or an error as tmp, request, the file stream, ffmpeg
    or the object store produced it. *)
Lemma probe_failure_passed_unchanged (videoPath : string) (err : JsError)
    (fn : Callback Metadata) (G : Globals) (W : World) (bucket : string) (video : Job) :
  getVideoMetadata videoPath (Throws err) fn = (tell (FfmpegOpen videoPath);; fn (Some err) None)
  /\ getVideoMetadata videoPath (Rejects err) fn
     = (tell (FfmpegOpen videoPath);; fn (Some err) None)
  /\ always (forwarded W (job_uri video)) (Worker.on_video G W bucket video).
Proof.
  split; [reflexivity | split; [reflexivity |]].
  assert (forall e, forwarded W (job_uri video) (EmitError e) ->
            always (forwarded W (job_uri video))
              (handleError (Worker.segmenter_of W video) (Worker.on_processed video) e)) as Herr.
  { intros e He. rewrite handleError_worker. unfold always. simpl.
    destruct (is_fatal e);
      repeat first [apply Forall_nil_2 | apply Forall_cons_2; [first [exact He | exact I] |]]. }
  unfold Worker.on_video.
  apply always_bind; [by apply always_tell |]. intros _ _.
  apply (holds_downloadAndExtractToS3 (Forall (forwarded W (job_uri video)))).
  - intros e He Hx. apply Forall_singleton. by destruct e.
  - intros Hv e He. apply Forall_singleton. by destruct e.
  - intros e He. apply Herr. unfold stage_error, extraction_fails in He.
    unfold forwarded, collaborator_error.
    destruct He as [? | [(s & c & ? & ? & ?) | [? | [? | [? | [? | [? | ?]]]]]]]; eauto 12.
  - intros metadata Hv. apply (holds_upload_and_finish (Forall (forwarded W (job_uri video)))).
    + intros e He. apply Herr. right. unfold collaborator_error. tauto.
    + intros frames t Hf Hin. split.
      * rewrite processSegment_cases. destruct (g_contentType G); by repeat constructor.
      * rewrite processSegment_done_worker.
        destruct (s3_upload W (task_no t)); [constructor |].
        destruct (g_shivaUtils G); [| constructor]. destruct (pattern_exec _); [| constructor].
        unfold holds. cbv zeta. simpl. destruct (bus_publish W _); by repeat constructor.
    + intros _. by apply Forall_singleton.
    + intros r Hf Hs. split; [by apply Forall_singleton |].
      unfold invoke, Worker.on_processed, holds. simpl. by repeat constructor.
Qed.

(** C6 (the code at failing inputs): when the probe fails after a download
    that succeeded, the callback given to [getVideoMetadata] does not read
    the error, and the run goes on as if nothing had happened: it asks for
    the temporary directory and, once it has one and [videoUri] is defined,
    it opens the video file again for the extraction. The errors reported,
    by event and to the callback, are those of the directory and of the
    extraction alone: the error of the probe is reported nowhere, with or
    without a [fatal] mark. *)
Theorem probe_failure_is_ignored (G : Globals) (W : World) (bucket : string) (video : Job)
    (video_path : string) (err : JsError) :
  tmp_file W = inr video_path ->
  download_ok (http W) = true ->
  ffmpeg_probe W = Throws err \/ ffmpeg_probe W = Rejects err ->
  let t := trace (Worker.on_video G W bucket video) in
  let stages := [Log (NewVideo video); TmpFile; HttpGet (job_uri video) video_path;
                 FfmpegOpen video_path; TmpDir] in
  stages `prefix_of` t
  /\ (forall dir_path, tmp_dir W = inr dir_path -> is_Some (g_videoUri G) ->
        (stages ++ [FfmpegOpen video_path])%list `prefix_of` t)
  /\ returned_errors t = errors_after_failed_probe G W
  /\ emitted_errors t = errors_after_failed_probe G W.
Proof.
  intros Hfile Hdl Hprobe. cbv zeta.
  assert (Worker.on_video G W bucket video
          = (tell (Log (NewVideo video));; tell TmpFile;;
             tell (HttpGet (job_uri video) video_path);;
             tell (FfmpegOpen video_path);;
             after_probe G W (Worker.segmenter_of W video) (job_uri video) bucket video_path
               (Worker.on_processed video) (Some err) None)) as ->.
  { unfold Worker.on_video, downloadAndExtractToS3. cbv zeta. cbn [from_option id default].
    rewrite Hfile. unfold downloadToLocal, download_ok in *.
    assert (getVideoMetadata video_path (ffmpeg_probe W)
              (after_probe G W (Worker.segmenter_of W video) (job_uri video) bucket video_path
                 (Worker.on_processed video))
            = (tell (FfmpegOpen video_path);;
               after_probe G W (Worker.segmenter_of W video) (job_uri video) bucket video_path
                 (Worker.on_processed video) (Some err) None)) as Hmeta.
    { unfold getVideoMetadata. by destruct Hprobe as [-> | ->]. }
    destruct (http W) as [[[status ct] |] [e | [e |]]]; simpl in Hdl; try discriminate;
      [apply Z.eqb_eq in Hdl; subst status |];
      unfold download_on_response, download_on_finish;
      cbn [response ending Z.eqb Pos.eqb negb fst snd];
      rewrite ?bind_ret_l; cbn [fst snd]; by rewrite Hmeta. }
  rewrite !bind_tell. cbn [trace fst].
  unfold after_probe, errors_after_failed_probe. rewrite bind_tell. cbn [trace fst].
  destruct (tmp_dir W) as [e | dir_path].
  { rewrite handleError_worker. cbn [trace fst].
    split; [by eexists |]. split; [done |]. by destruct (is_fatal e). }
  destruct (g_videoUri G) as [videoUri |].
  2: { split; [by eexists |]. split; [by intros ? _ [? [=]] | done]. }
  rewrite bind_lookup_global. unfold extractSegments. rewrite bind_tell. cbn [trace fst].
  split; [by eexists |]. split; [intros; by eexists |].
  assert (returned_errors
            (trace (upload_and_finish G W (Worker.segmenter_of W video) (job_uri video)
                      bucket None (Worker.on_processed video))) = []
          /\ emitted_errors
               (trace (upload_and_finish G W (Worker.segmenter_of W video) (job_uri video)
                         bucket None (Worker.on_processed video))) = []) as [Hup1 Hup2].
  { unfold upload_and_finish. destruct (g_frames G) as [frames |]; [| done].
    rewrite bind_lookup_global, segmentTasks_unprobed.
    destruct frames; [| done]. by destruct (g_sequencer G) as [[] |]. }
  destruct (ffmpeg_extract W) as [e | e | [e | files]].
  - rewrite bind_tell, handleError_worker. cbn [trace fst]. by destruct (is_fatal e).
  - rewrite bind_tell, handleError_worker. cbn [trace fst]. by destruct (is_fatal e).
  - rewrite !bind_tell, handleError_worker. cbn [trace fst]. by destruct (is_fatal e).
  - rewrite !bind_tell. cbn [trace fst].
    change (returned_errors (?a :: ?b :: ?c :: ?d :: ?e :: ?f :: ?g :: ?h :: ?l))
      with (returned_errors l).
    change (emitted_errors (?a :: ?b :: ?c :: ?d :: ?e :: ?f :: ?g :: ?h :: ?l))
      with (emitted_errors l).
    done.
Qed.

Lemma probe_failure_is_ignored_witness :
  let t := trace (Worker.on_video Sample.patched Sample.unprobeable "bucket" Sample.job) in
  let stages := [Log (NewVideo Sample.job); TmpFile;
                 HttpGet (job_uri Sample.job) "/tmp/tmp-42abc.tmp";
                 FfmpegOpen "/tmp/tmp-42abc.tmp"; TmpDir] in
  stages `prefix_of` t
  /\ (forall dir_path, tmp_dir Sample.unprobeable = inr dir_path ->
        is_Some (g_videoUri Sample.patched) ->
        (stages ++ [FfmpegOpen "/tmp/tmp-42abc.tmp"])%list `prefix_of` t)
  /\ returned_errors t = []
  /\ emitted_errors t = [].
Proof.
  apply (probe_failure_is_ignored Sample.patched Sample.unprobeable "bucket" Sample.job
           "/tmp/tmp-42abc.tmp" Sample.corrupt).
  - reflexivity.
  - reflexivity.
  - right. reflexivity.
Defined.
(** ** C7: a failure of the frame extractor *)

(** C7 (as stated, refuted): an extraction failure (reached with the free
    identifiers defined) is reported to the callback with the tool's error,
    which carries no fatal flag; the consumer takes it for a non-fatal
    error and does not acknowledge the message. *)
Lemma extraction_failure_is_not_fatal :
  let t := trace (Worker.on_video Sample.patched Sample.unextractable "bucket" Sample.job) in
  returned_errors t = [Sample.corrupt]
  /\ fatal Sample.corrupt <> Some true
  /\ occurrences is_finish t = 0%nat.
Proof. vm_compute. split; [reflexivity | split; [discriminate | reflexivity]]. Qed.

(** C7 (amended): whenever the pipeline reaches the extraction and the
    extraction fails with [err], the callback is called once, with [err]
    itself (so fatal only if the tool's error already was), no result is
    returned, and no upload is attempted. *)
Theorem extraction_failure_forwarded (G : Globals) (W : World) (bucket : string) (video : Job)
    (video_path dir_path videoUri : string) (err : JsError) :
  tmp_file W = inr video_path ->
  download_ok (http W) = true ->
  tmp_dir W = inr dir_path ->
  g_videoUri G = Some videoUri ->
  extraction_fails (ffmpeg_extract W) err ->
  let t := trace (Worker.on_video G W bucket video) in
  returned_errors t = [err]
  /\ returned_results t = []
  /\ occurrences is_upload t = 0%nat
  /\ occurrences is_cleanup_file t = 1%nat.
Proof.
  intros Hfile Hdl Hdir Huri Hx.
  unfold Worker.on_video, downloadAndExtractToS3. rewrite Hfile.
  unfold downloadToLocal, download_ok in *.
  destruct (http W) as [[[status ct] |] [e | [e |]]]; simpl in Hdl; try discriminate;
    [apply Z.eqb_eq in Hdl; subst status |];
    unfold getVideoMetadata, after_probe, extractSegments; rewrite Hdir, Huri;
    destruct (ffmpeg_probe W);
    destruct Hx as [-> | [-> | ->]]; destruct err as [msg [[|] |]]; vm_compute; auto.
Qed.

Lemma extraction_failure_forwarded_witness :
  let t := trace (Worker.on_video Sample.patched Sample.unextractable "bucket" Sample.job) in
  returned_errors t = [Sample.corrupt]
  /\ returned_results t = []
  /\ occurrences is_upload t = 0%nat
  /\ occurrences is_cleanup_file t = 1%nat.
Proof.
  apply (extraction_failure_forwarded Sample.patched Sample.unextractable "bucket" Sample.job
           "/tmp/tmp-42abc.tmp" "/tmp/tmp-42dir" "https://host/movie.mp4" Sample.corrupt).
  - reflexivity.
  - reflexivity.
  - reflexivity.
  - reflexivity.
  - right. right. reflexivity.
Defined.

(** ** C8: the index parsed from the file name *)

(** C8: when the files of [frames] are named as the pattern of
    [extractSegments] names them — [<stem>_<n>.<rest>] for the frame of
    ordinal [n], the stem being the name [tmp.file] gave the video file,
    which holds no underscore, and [n] below 2^53 — every segment event of a
    run, emitted or published, is that of a file of [frames] whose upload
    succeeded and carries the ordinal of that file as its index; a task
    whose upload succeeds emits one segment and publishes one event, both
    with the ordinal of its file; and in a run that hands a Job Result to
    the callback the indices emitted, and published, are the ordinals of
    all the files, each once. *)
Theorem segment_idx_is_the_ordinal (G : Globals) (W : World) (bucket : string) (video : Job)
    (ordinals : list Z) :
  Forall2 pattern_made (default [] (g_frames G)) ordinals ->
  let run := Worker.on_video G W bucket video in
  let dir := s3_dir_of (job_uri video) in
  always (carries_ordinal G W bucket dir ordinals) run
  /\ (forall n file k fps,
        default [] (g_frames G) !! n = Some file -> ordinals !! n = Some k ->
        s3_upload W n = None -> is_Some (g_shivaUtils G) ->
        let r := processSegment_done G W (Worker.segmenter_of W video) bucket dir
                   {| task_no := n; task_file := file; task_fps := fps |} in
        idx <$> emitted_segments (trace r) = [k]
        /\ segment_idx <$> published (trace r) = [k])
  /\ (returned_results (trace run) <> [] ->
        idx <$> emitted_segments (trace run) ≡ₚ ordinals
        /\ segment_idx <$> published (trace run) ≡ₚ ordinals).
Proof.
  intros Hmade. cbv zeta. split; [| split].
  - assert (forall err, always (carries_ordinal G W bucket (s3_dir_of (job_uri video)) ordinals)
              (handleError (Worker.segmenter_of W video) (Worker.on_processed video) err)) as Herr.
    { intros err. rewrite handleError_worker. unfold always. simpl.
      destruct (is_fatal err); by repeat constructor. }
    unfold Worker.on_video.
    apply always_bind; [by apply always_tell |]. intros _ _.
    apply always_downloadAndExtractToS3; [| | done |].
    + intros e He Hx. by destruct e.
    + intros Hv e He. by destruct e.
    + intros metadata Hv. apply always_upload_and_finish; [done | | done |].
      * intros frames task Hf Hin. split.
        -- rewrite processSegment_cases. destruct (g_contentType G); by repeat constructor.
        -- rewrite processSegment_done_worker.
           destruct (s3_upload W (task_no task)) eqn:Hup; [constructor |].
           destruct (g_shivaUtils G) as [getS3Uri |] eqn:Hshiva; [| constructor].
           rewrite Hf in Hmade. cbn [default from_option id] in Hmade.
           destruct (Forall2_lookup_l _ _ _ _ _ Hmade Hin) as (k & Hk & Hfile).
           apply pattern_made_digits in Hfile as [-> Hparse].
           unfold always. cbv zeta. simpl. rewrite Hparse.
           destruct (bus_publish W _); repeat constructor;
             by exists frames, (task_no task), (task_file task), k, getS3Uri.
      * intros r Hf Hs. split; [done |].
        unfold invoke, Worker.on_processed, always. simpl. by repeat constructor.
  - intros n file k fps Hfile Hk Hup [getS3Uri Hshiva].
    destruct (Forall2_lookup_l _ _ _ _ _ Hmade Hfile) as (k' & Hk' & Hnamed).
    assert (k' = k) as -> by congruence.
    apply pattern_made_digits in Hnamed as [Hexec Hparse].
    rewrite processSegment_done_worker. cbn [task_no task_file task_fps].
    rewrite Hup, Hshiva, Hexec. cbv zeta. simpl. rewrite Hparse.
    by destruct (bus_publish W k).
  - intros Hres.
    destruct (returned_results (trace (Worker.on_video G W bucket video)))
      as [| res rest] eqn:Hrun; [done |].
    destruct (on_video_segments G W bucket video res)
      as (frames & segments & results & Hf & _ & _ & Hseg & Hem & _).
    { rewrite Hrun. by left. }
    rewrite Hf in Hmade. cbn [default from_option id] in Hmade.
    assert (idx <$> segments = ordinals) as Hidx.
    { clear -Hmade Hseg. revert segments Hseg.
      induction Hmade as [| file k frames ordinals Hfile _ IH]; intros segments Hseg.
      - by apply Forall2_nil_inv_l in Hseg as ->.
      - apply Forall2_cons_inv_l in Hseg as (s & segments' & Hs & Hseg & ->).
        destruct Hs as (digits & getS3Uri & Hexec & _ & Hs & _).
        apply pattern_made_digits in Hfile as [Hexec' Hparse].
        rewrite fmap_cons, (IH _ Hseg). f_equal. congruence. }
    rewrite published_of_run, <- list_fmap_compose.
    change (segment_idx ∘ segment_event_of video) with idx.
    by rewrite Hem, Hidx.
Qed.

Lemma segment_idx_is_the_ordinal_witness :
  let run := Worker.on_video Sample.extracted Sample.extracting "bucket" Sample.job in
  let dir := s3_dir_of (job_uri Sample.job) in
  Sample.pattern_frames
  = ["/tmp/tmp-42dir/tmp-42abc_1.mp4"; "/tmp/tmp-42dir/tmp-42abc_2.mp4";
     "/tmp/tmp-42dir/tmp-42abc_3.mp4"]
  /\ always (carries_ordinal Sample.extracted Sample.extracting "bucket" dir [1; 2; 3]) run
  /\ (forall n file k fps,
        default [] (g_frames Sample.extracted) !! n = Some file -> [1; 2; 3] !! n = Some k ->
        s3_upload Sample.extracting n = None -> is_Some (g_shivaUtils Sample.extracted) ->
        let r := processSegment_done Sample.extracted Sample.extracting
                   (Worker.segmenter_of Sample.extracting Sample.job) "bucket" dir
                   {| task_no := n; task_file := file; task_fps := fps |} in
        idx <$> emitted_segments (trace r) = [k]
        /\ segment_idx <$> published (trace r) = [k])
  /\ (returned_results (trace run) <> [] ->
        idx <$> emitted_segments (trace run) ≡ₚ [1; 2; 3]
        /\ segment_idx <$> published (trace run) ≡ₚ [1; 2; 3]).
Proof.
  split; [reflexivity |].
  apply (segment_idx_is_the_ordinal Sample.extracted Sample.extracting "bucket" Sample.job
           [1; 2; 3]).
  repeat constructor; exists "tmp-42abc", "mp4";
    (split; [reflexivity | split; [reflexivity | lia]]).
Defined.
(** ** C9: the free identifiers *)

Lemma no_result_without_identifiers {A} (m : M A) :
  always (needs shipped) m -> returned_results (trace m) = [].
Proof.
  unfold always, returned_results. induction 1 as [| e t He _ IH]; [done |].
  destruct e as [| | | | | | | | | | | | | | | [err |] [res |]]; simpl; try exact IH.
  simpl in He. destruct He as [[? [=]] _].
Qed.

(** C9: as shipped, no Job Result is ever returned. On every job whose
    temporary file is made and whose download succeeds, either [tmp.dir]
    fails and the callback gets its error, or the run dies on the read of
    [videoUri] without calling back. And on any global object, each later
    step happens only with the identifiers it reads defined: the extraction
    needs [videoUri]; an upload also needs [frames] and [contentType]; a
    segment event also needs [shivaUtils]; the end event and the returned
    result need [videoUri], [frames] and [sequencer]. *)
Theorem success_path_cannot_complete (W : World) (bucket : string) (video : Job)
    (video_path : string) :
  tmp_file W = inr video_path ->
  download_ok (http W) = true ->
  let r := Worker.on_video shipped W bucket video in
  returned_results (trace r) = []
  /\ match tmp_dir W with
     | inl err => returned_errors (trace r) = [err] /\ outcome r = inr tt
     | inr _ => returned_errors (trace r) = [] /\ outcome r = inl (ReferenceError "videoUri")
     end
  /\ (forall G, always (needs G) (Worker.on_video G W bucket video)).
Proof.
  intros Hfile Hdl r. split; [| split].
  - apply no_result_without_identifiers, always_needs.
  - subst r. unfold Worker.on_video, downloadAndExtractToS3. rewrite Hfile.
    unfold downloadToLocal, download_ok in *.
    destruct (http W) as [[[status ct] |] [e | [e |]]]; simpl in Hdl; try discriminate;
      [apply Z.eqb_eq in Hdl; subst status |];
      unfold getVideoMetadata, after_probe;
      destruct (ffmpeg_probe W); destruct (tmp_dir W) as [[msg [[|] |]] | dir_path];
      vm_compute; auto.
  - intros G. apply always_needs.
Qed.

Lemma success_path_cannot_complete_witness :
  let r := Worker.on_video shipped Sample.all_fine "bucket" Sample.job in
  returned_results (trace r) = []
  /\ (returned_errors (trace r) = [] /\ outcome r = inl (ReferenceError "videoUri"))
  /\ (forall G, always (needs G) (Worker.on_video G Sample.all_fine "bucket" Sample.job)).
Proof.
  apply (success_path_cannot_complete Sample.all_fine "bucket" Sample.job "/tmp/tmp-42abc.tmp").
  - reflexivity.
  - reflexivity.
Defined.

(** ** C10: the object keys *)


(** * Further properties of the code *)

(** ** The merged result *)

(** X1: the Job Result maps an index to the URI of the last segment, in the
    order of the batches and of the tasks in each batch, that carries this
    index; it has no entry for an index that no segment carries. *)
Theorem merge_results_last_wins (results : list (list Segment)) (k : Z) :
  merge_results results !! k
  = uri <$> last (filter (fun f => idx f = k) (concat results)).
Proof.
  rewrite merge_results_concat, lookup_foldl_insert_last, lookup_empty.
  by destruct (last _).
Qed.
(** ** What the worker publishes and reports *)

(** X2: every event the worker publishes is that of a segment the pipeline
    emitted, in the same order: it carries the id of the job and the index,
    URI and fps of the segment. Nothing else is published. *)
Theorem published_events_are_the_segments (G : Globals) (W : World) (bucket : string)
    (video : Job) :
  let t := trace (Worker.on_video G W bucket video) in
  published t = segment_event_of video <$> emitted_segments t.
Proof.
  apply (holds_on_video G W bucket video (published_as_emitted video)); try done.
  - intros e He. by destruct e.
  - intros err. rewrite handleError_worker. unfold holds. simpl.
    by destruct (is_fatal err).
  - intros t. rewrite processSegment_cases. by destruct (g_contentType G).
  - intros t. rewrite processSegment_done_worker.
    destruct (s3_upload W (task_no t)); [done |].
    destruct (g_shivaUtils G); [| done]. destruct (pattern_exec _); [| done].
    unfold holds. cbv zeta. simpl. by destruct (bus_publish W _).
Qed.

(** X3: every failure is reported on both channels: every error handed to the
    consumer's callback is the error of an ['error'] event of the segmenter,
    and the other way round, in the same order. No path reports a failure
    on one channel only. *)
Theorem errors_reported_on_both_channels (G : Globals) (W : World) (bucket : string)
    (video : Job) :
  let t := trace (Worker.on_video G W bucket video) in
  returned_errors t = emitted_errors t.
Proof.
  apply (holds_on_video G W bucket video errors_paired); try done.
  - intros e He. by destruct e.
  - intros err. rewrite handleError_worker. unfold holds. simpl.
    by destruct (is_fatal err).
  - intros t. rewrite processSegment_cases. by destruct (g_contentType G).
  - intros t. rewrite processSegment_done_worker.
    destruct (s3_upload W (task_no t)); [done |].
    destruct (g_shivaUtils G); [| done]. destruct (pattern_exec _); [| done].
    unfold holds. cbv zeta. simpl. by destruct (bus_publish W _).
Qed.
(** ** The index of a segment *)

Lemma take_digits_all_digits (s : string) : all_digits (take_digits s) = true.
Proof.
  induction s as [| c s IH]; [done |]. simpl.
  destruct (Str.is_digit c) eqn:E; [| done]. simpl. by rewrite E.
Qed.

(** [match[1]] is a run of digits. *)
Lemma pattern_exec_all_digits (fileName digits : string) :
  pattern_exec fileName = Some digits -> all_digits digits = true.
Proof.
  induction fileName as [| c r IH]; [done |]. simpl.
  destruct (Ascii.eqb c "_"); [| done].
  pose proof (take_digits_all_digits r) as Hd.
  destruct (take_digits r) as [| d ds]; [done |]. by intros [= <-].
Qed.

Lemma digit_value_bounds (c : ascii) : Str.is_digit c = true -> 0 <= Str.digit_value c <= 9.
Proof.
  unfold Str.is_digit, Str.digit_value. intros [H1 H2]%andb_prop.
  apply Nat.leb_le in H1, H2. lia.
Qed.

Lemma parse_steps_not_negative (digits : string) (acc : Z) :
  all_digits digits = true -> 0 <= acc ->
  0 <= fold_left parse_step (Str.chars digits) acc.
Proof.
  revert acc. induction digits as [| c r IH]; intros acc; [done |]. simpl.
  intros [Hc Hr]%andb_prop Hacc. apply IH; [done |].
  pose proof (digit_value_bounds c Hc). unfold parse_step. lia.
Qed.

Lemma parseInt_not_negative (digits : string) :
  all_digits digits = true -> 0 <= parseInt digits.
Proof. intros H. by apply parse_steps_not_negative. Qed.

(** X4: the index of a segment is never negative, whatever the name of the
    frame file: the pattern takes digits only, so a sign before them is not
    read. *)
Theorem segment_index_not_negative (G : Globals) (W : World) (bucket : string)
    (video : Job) :
  always index_not_negative (Worker.on_video G W bucket video).
Proof.
  apply always_on_video; try done.
  - intros e He. by destruct e.
  - intros err. rewrite handleError_worker. unfold always. simpl.
    destruct (is_fatal err); by repeat constructor.
  - intros t. rewrite processSegment_cases.
    destruct (g_contentType G); by repeat constructor.
  - intros t. rewrite processSegment_done_worker.
    destruct (s3_upload W (task_no t)); [constructor |].
    destruct (g_shivaUtils G); [| constructor].
    destruct (pattern_exec _) as [digits |] eqn:E; [| constructor].
    apply pattern_exec_all_digits, parseInt_not_negative in E.
    unfold always. cbv zeta. simpl.
    destruct (bus_publish W _); by repeat constructor.
  - intros res. split; [done |]. unfold always. simpl. by repeat constructor.
Qed.

(** ** The content type *)

(** X5: the content type of the downloaded file — the [content-type] header of
    the response — is handed to the download's callback and never read
    again: a run is the same whatever the header is, and every object is
    sent to the bucket with the content type of the global [contentType]. *)
Theorem response_content_type_is_not_used (G : Globals) (W : World) (bucket : string)
    (video : Job) (content_type : option string) :
  Worker.on_video G (with_content_type content_type W) bucket video
  = Worker.on_video G W bucket video
  /\ always (upload_params G bucket) (Worker.on_video G W bucket video).
Proof.
  split.
  - unfold Worker.on_video, downloadAndExtractToS3, downloadToLocal, with_content_type.
    destruct (tmp_file W) as [e | video_path] eqn:Hfile; cbn [tmp_file]; rewrite ?Hfile;
      [reflexivity |].
    destruct (http W) as [[[statusCode ct] |] end_];
      cbn [http response ending fmap option_fmap option_map fst]; [| reflexivity].
    unfold download_on_response. destruct (negb (200 =? statusCode)); reflexivity.
  - apply always_on_video; try done.
    + intros e He. by destruct e.
    + intros err. rewrite handleError_worker. unfold always. simpl.
      destruct (is_fatal err); by repeat constructor.
    + intros t. rewrite processSegment_cases.
      destruct (g_contentType G) eqn:E; [| constructor].
      apply Forall_singleton. by split.
    + intros t. rewrite processSegment_done_worker.
      destruct (s3_upload W (task_no t)); [constructor |].
      destruct (g_shivaUtils G); [| constructor].
      destruct (pattern_exec _) as [digits |] eqn:E; [| constructor].
      unfold always. cbv zeta. simpl.
      destruct (bus_publish W _); by repeat constructor.
    + intros res. split; [done |]. unfold always. simpl. by repeat constructor.
Qed.
(** ** The order in which the frames are sent *)

(** X6: in every run the objects are sent in the order of [frames], at most
    one for each file and none for a file before the objects of the files
    before it; a run that hands a Job Result to the callback has sent one
    object for every file of [frames]. *)
Theorem frames_are_uploaded_in_order (G : Globals) (W : World) (bucket : string)
    (video : Job) :
  let t := trace (Worker.on_video G W bucket video) in
  uploaded_keys t `prefix_of` frame_keys G (job_uri video)
  /\ (returned_results t <> [] -> uploaded_keys t = frame_keys G (job_uri video)).
Proof.
  unfold Worker.on_video. rewrite bind_tell. cbn [trace fst].
  change (uploaded_keys (Log (NewVideo video) :: ?l)) with (uploaded_keys l).
  change (returned_results (Log (NewVideo video) :: ?l)) with (returned_results l).
  destruct (leads_downloadAndExtractToS3 G W (Worker.segmenter_of W video) (job_uri video)
              bucket (Worker.on_processed video) (handleError_quiet W video))
    as [Hq | (pre & u & Hpre & [metadata ->] & ->)].
  - rewrite (quiet_no_keys _ Hq), (proj2 (quiet_trace _ Hq)).
    split; [apply prefix_nil | done].
  - rewrite uploaded_keys_app, returned_results_app.
    rewrite (quiet_no_keys _ Hpre), (proj2 (quiet_trace _ Hpre)), !app_nil_l.
    apply upload_and_finish_keys.
Qed.

Lemma frames_are_uploaded_in_order_witness :
  let t := trace (Worker.on_video Sample.patched Sample.all_fine "bucket" Sample.job) in
  returned_results t <> []
  /\ uploaded_keys t = ["movie/tmp-42abc_1.jpg"; "movie/tmp-42abc_2.jpg";
                        "movie/tmp-42abc_3.jpg"].
Proof.
  split; [vm_compute; discriminate |].
  apply (frames_are_uploaded_in_order Sample.patched Sample.all_fine "bucket" Sample.job).
  vm_compute. discriminate.
Defined.
(** ** The uploads in flight *)

Lemma prefix_app_cases {A} (p t1 t2 : list A) :
  p `prefix_of` (t1 ++ t2)%list ->
  p `prefix_of` t1 \/ exists p2, p = (t1 ++ p2)%list /\ p2 `prefix_of` t2.
Proof.
  revert p. induction t1 as [| x t1 IH]; intros p Hp; [right; by exists p |].
  destruct p as [| y p]; [left; apply prefix_nil |].
  simpl in Hp. pose proof (prefix_cons_inv_1 _ _ _ _ Hp) as ->.
  apply prefix_cons_inv_2, IH in Hp as [Hp | (p2 & -> & Hp2)].
  - left. by apply prefix_cons.
  - right. by exists p2.
Qed.

Lemma no_upload_count (t : list Event) :
  Forall (fun e => is_upload e = false) t -> occurrences is_upload t = 0%nat.
Proof.
  unfold occurrences. induction 1 as [| e t He _ IH]; [done |]. simpl. by rewrite He.
Qed.

Lemma occurrences_le_length (p : Event -> bool) (t : list Event) :
  (occurrences p t <= length t)%nat.
Proof. unfold occurrences. apply List.filter_length_le. Qed.

Section InFlight.
Context (n : nat).

Lemma in_flight_short (t : list Event) :
  (length t <= n)%nat -> in_flight_at_most n t.
Proof.
  intros Ht p Hp. apply prefix_length in Hp.
  pose proof (occurrences_le_length is_upload p). lia.
Qed.

(** Once every object sent has given its segment, what follows starts
    afresh. *)
Lemma in_flight_app_settled (t1 t2 : list Event) :
  in_flight_at_most n t1 ->
  occurrences is_upload t1 = length (emitted_segments t1) ->
  in_flight_at_most n t2 ->
  in_flight_at_most n (t1 ++ t2).
Proof.
  intros H1 Hs H2 p [Hp | (p2 & -> & Hp2)]%prefix_app_cases; [by apply H1 |].
  specialize (H2 p2 Hp2).
  rewrite occurrences_app, emitted_segments_app, length_app. lia.
Qed.

(** What sends no object adds nothing in flight. *)
Lemma in_flight_app_no_upload (t1 t2 : list Event) :
  in_flight_at_most n t1 ->
  Forall (fun e => is_upload e = false) t2 ->
  in_flight_at_most n (t1 ++ t2).
Proof.
  intros H1 H2 p [Hp | (p2 & -> & Hp2)]%prefix_app_cases; [by apply H1 |].
  specialize (H1 t1 (reflexivity _)).
  destruct Hp2 as [rest ->]. apply Forall_app in H2 as [H2 _].
  rewrite occurrences_app, emitted_segments_app, length_app, (no_upload_count p2) by done.
  lia.
Qed.

Context {T : Type}.
Variable start : T -> M unit.
Variable done : T -> M (JsError + Segment).
Variable latency : T -> nat.
Hypothesis start_uploads : forall t tr,
  start t = (tr, inr tt) ->
  occurrences is_upload tr = 1%nat /\ length (emitted_segments tr) = 0%nat.
Hypothesis start_short : forall t, (length (trace (start t)) <= 1)%nat.
Hypothesis done_emits_one : forall t tr segment,
  done t = (tr, inr (inr segment)) ->
  occurrences is_upload tr = 0%nat /\ length (emitted_segments tr) = 1%nat.
Hypothesis done_no_upload : forall t, always (fun e => is_upload e = false) (done t).

Lemma for_each_start_short (tasks : list T) :
  (length (trace (for_each start tasks)) <= length tasks)%nat.
Proof.
  induction tasks as [| x tasks IH]; [done |]. cbn [for_each]. rewrite trace_bind.
  pose proof (start_short x). destruct (outcome (start x)); cbn [length]; [lia |].
  rewrite length_app. lia.
Qed.

Lemma completions_no_upload (cs : list (nat * T)) (results : list (option Segment)) :
  always (fun e => is_upload e = false) (completions done cs results).
Proof. apply (holds_completions (Forall _)). intros c _. apply done_no_upload. Qed.

(** A batch of at most [n] tasks has at most [n] uploads in flight. *)
Lemma parallel_in_flight (tasks : list T) :
  (length tasks <= n)%nat ->
  in_flight_at_most n (trace (parallel start done latency tasks)).
Proof.
  intros Hn. unfold parallel. rewrite trace_bind.
  pose proof (for_each_start_short tasks).
  destruct (outcome (for_each start tasks)); [apply in_flight_short; lia |].
  apply in_flight_app_no_upload; [apply in_flight_short; lia |].
  apply completions_no_upload.
Qed.

(** Batches of at most [n] tasks, run one after the other, have at most
    [n] uploads in flight. *)
Lemma series_in_flight (bs : list (list T)) :
  Forall (fun b => (length b <= n)%nat) bs ->
  in_flight_at_most n (trace (series start done latency bs)).
Proof.
  induction 1 as [| b bs Hb _ IH]; [by apply in_flight_short; simpl; lia |].
  cbn [series]. rewrite trace_bind.
  pose proof (parallel_in_flight b Hb) as Hpar.
  pose proof (parallel_count start done latency start_uploads done_emits_one b) as Hcount.
  destruct (parallel start done latency b) as [tb [x | [rs | err fl]]];
    cbn [trace outcome fst snd] in *; [done | |].
  - rewrite trace_bind.
    destruct (series start done latency bs) as [ts [x | [more | err fl]]];
      cbn [trace outcome fst snd] in *; rewrite ?app_nil_r;
      apply in_flight_app_settled; eauto.
  - by rewrite app_nil_r.
Qed.
End InFlight.
Lemma in_flight_no_upload (n : nat) (t : list Event) :
  Forall (fun e => is_upload e = false) t -> in_flight_at_most n t.
Proof.
  intros H. apply (in_flight_app_no_upload n [] t); [| done].
  apply in_flight_short. simpl. lia.
Qed.

Lemma quiet_not_upload (t : list Event) :
  Forall quiet t -> Forall (fun e => is_upload e = false) t.
Proof. intros H. eapply Forall_impl; [exact H |]. by intros []. Qed.

Section InFlightWorker.
Context (G : Globals) (W : World) (bucket : string) (video : Job).

Lemma upload_and_finish_in_flight (metadata : option Metadata) :
  in_flight_at_most 10
    (trace (upload_and_finish G W (Worker.segmenter_of W video) (job_uri video) bucket
              metadata (Worker.on_processed video))).
Proof.
  unfold upload_and_finish.
  destruct (g_frames G) as [frames |]; [| by apply in_flight_no_upload].
  rewrite bind_lookup_global.
  destruct (segmentTasks_spec frames metadata) as [Ht _].
  destruct (segmentTasks frames metadata) as [tt' [x | tasks]]; simpl in Ht; subst tt';
    [by apply in_flight_no_upload |].
  rewrite bind_inr, app_nil_l. cbn [trace fst]. rewrite trace_bind.
  assert (in_flight_at_most 10
            (trace (series (processSegment G bucket (s3_dir_of (job_uri video)))
                      (processSegment_done G W (Worker.segmenter_of W video) bucket
                         (s3_dir_of (job_uri video)))
                      (fun t => s3_latency W (task_no t))
                      (batches (batchSize (Worker.segmenter_of W video)) tasks)))) as Hseries.
  { apply series_in_flight.
    - intros t tr. rewrite processSegment_cases.
      destruct (g_contentType G); [| done]. by intros [= <-].
    - intros t. rewrite processSegment_cases.
      destruct (g_contentType G); simpl; lia.
    - intros t tr segment. rewrite processSegment_done_worker.
      destruct (s3_upload W (task_no t)); [done |].
      destruct (g_shivaUtils G); [| done]. destruct (pattern_exec _); [| done].
      intros [= <- <-]. by destruct (bus_publish W _).
    - intros t. eapply Forall_impl; [apply processSegment_done_tail |]. by intros e [].
    - eapply Forall_impl; [apply (batches_bounded tasks 10); lia |].
      intros b Hb. simpl in Hb. lia. }
  destruct (outcome (series _ _ _ _)) as [x | [results | err in_flight]]; [done | |];
    apply in_flight_app_no_upload; try done.
  - rewrite bind_tell. destruct (g_sequencer G); [| by repeat constructor].
    rewrite bind_lookup_global. cbn [trace fst]. by repeat constructor.
  - apply (always_bind (fun e => is_upload e = false)).
    + apply quiet_not_upload, handleError_quiet.
    + intros _ _. apply always_stragglers. intros t _.
      eapply Forall_impl; [apply processSegment_done_tail |]. by intros e [].
Qed.
End InFlightWorker.

(** X7: at every point of every run, at most 10 objects have been sent whose
    segment has not been emitted: the batches bound the number of uploads in
    flight by the batch size of the worker's segmenter. *)
Theorem at_most_ten_uploads_in_flight (G : Globals) (W : World) (bucket : string)
    (video : Job) :
  in_flight_at_most 10 (trace (Worker.on_video G W bucket video)).
Proof.
  unfold Worker.on_video. rewrite bind_tell. cbn [trace fst].
  destruct (leads_downloadAndExtractToS3 G W (Worker.segmenter_of W video) (job_uri video)
              bucket (Worker.on_processed video) (handleError_quiet W video))
    as [Hq | (pre & u & Hpre & [metadata ->] & ->)].
  - apply in_flight_no_upload. constructor; [done | by apply quiet_not_upload].
  - assert (Forall quiet (Log (NewVideo video) :: pre)) as Hpre' by by constructor.
    rewrite app_comm_cons. apply in_flight_app_settled.
    + by apply in_flight_no_upload, quiet_not_upload.
    + by rewrite (quiet_no_upload _ Hpre'), (proj1 (quiet_trace _ Hpre')).
    + apply upload_and_finish_in_flight.
Qed.
(** ** The order of the steps *)


Lemma steps_cons (e : Event) (t : list Event) :
  steps (e :: t) = match step_of e with
                   | Some s => s :: steps t
                   | None => steps t
                   end.
Proof. reflexivity. Qed.


Lemma steps_of_none (t : list Event) :
  Forall (fun e => step_of e = None) t -> steps t = [].
Proof.
  induction 1 as [| e t He _ IH]; [done |]. by rewrite steps_cons, He.
Qed.

Section Order.
Context (G : Globals) (W : World) (bucket : string) (video : Job).




End Order.
Section Walk.
Context {B : Type}.



End Walk.

(** ** The calls of the callback *)

#[export] Instance acks_bounded_additive : Additive acks_bounded.
Proof.
  split; [unfold acks_bounded, occurrences; simpl; lia |]. unfold acks_bounded. intros t1 t2 H1 H2.
  rewrite !occurrences_app. lia.
Qed.

Lemma occurrences_bind {A B} (p : Event -> bool) (m : M A) (k : A -> M B) :
  occurrences p (trace (m ≫= k))
  = (occurrences p (trace m)
     + match outcome m with
       | inr a => occurrences p (trace (k a))
       | inl _ => 0
       end)%nat.
Proof.
  rewrite trace_bind. destruct (outcome m); [lia |]. apply occurrences_app.
Qed.

Lemma occurrences_tell {B} (p : Event -> bool) (e : Event) (k : unit -> M B) :
  occurrences p (trace (tell e ≫= k))
  = ((if p e then 1 else 0) + occurrences p (trace (k tt)))%nat.
Proof. rewrite bind_tell. unfold occurrences. simpl. by destruct (p e). Qed.

Lemma no_return_count (t : list Event) :
  Forall (fun e => is_return e = false) t -> occurrences is_return t = 0%nat.
Proof.
  unfold occurrences. induction 1 as [| e t He _ IH]; [done |]. simpl. by rewrite He.
Qed.

Section Calls.
Context (G : Globals) (W : World) (bucket : string) (video : Job).

Lemma handleError_calls_once (err : JsError) :
  occurrences is_return
    (trace (handleError (Worker.segmenter_of W video) (Worker.on_processed video) err))
  = 1%nat.
Proof. rewrite handleError_worker. simpl. by destruct (is_fatal err). Qed.

Lemma processSegment_done_no_return (t : Task) :
  always (fun e => is_return e = false)
         (processSegment_done G W (Worker.segmenter_of W video) bucket
            (s3_dir_of (job_uri video)) t).
Proof.
  rewrite processSegment_done_worker.
  destruct (s3_upload W (task_no t)); [constructor |].
  destruct (g_shivaUtils G); [| constructor]. destruct (pattern_exec _); [| constructor].
  unfold always. cbv zeta. simpl. destruct (bus_publish W _); by repeat constructor.
Qed.

(** The upload phase calls the callback at most once. *)
Lemma upload_and_finish_calls (metadata : option Metadata) :
  (occurrences is_return
     (trace (upload_and_finish G W (Worker.segmenter_of W video) (job_uri video) bucket
               metadata (Worker.on_processed video))) <= 1)%nat.
Proof.
  unfold upload_and_finish.
  destruct (g_frames G) as [frames |]; [| unfold occurrences; simpl; lia].
  rewrite bind_lookup_global.
  destruct (segmentTasks_spec frames metadata) as [Ht _].
  destruct (segmentTasks frames metadata) as [tt' [x | tasks]]; simpl in Ht; subst tt';
    [unfold occurrences; simpl; lia |].
  rewrite bind_inr, app_nil_l. cbn [trace fst]. rewrite occurrences_bind.
  rewrite (no_return_count (trace (series _ _ _ _))).
  2: { apply always_series; intros b t _ _; [| apply processSegment_done_no_return].
       eapply Forall_impl; [apply processSegment_silent |]. by intros []. }
  destruct (outcome (series _ _ _ _)) as [x | [results | err in_flight]]; [lia | |].
  - rewrite occurrences_tell. cbn [is_return].
    destruct (g_sequencer G); [| unfold occurrences; simpl; lia].
    rewrite bind_lookup_global. unfold occurrences. simpl. lia.
  - rewrite occurrences_bind, handleError_calls_once.
    destruct (outcome (handleError _ _ _)); [lia |].
    rewrite no_return_count; [lia |].
    apply always_stragglers. intros t _. apply processSegment_done_no_return.
Qed.

Lemma after_probe_calls (video_path : string) (err : option JsError)
    (metadata : option Metadata) :
  (occurrences is_return
     (trace (after_probe G W (Worker.segmenter_of W video) (job_uri video) bucket video_path
               (Worker.on_processed video) err metadata)) <= 1)%nat.
Proof.
  unfold after_probe. rewrite occurrences_tell. cbn [is_return].
  destruct (tmp_dir W) as [e | dir_path]; [by rewrite handleError_calls_once |].
  destruct (g_videoUri G) as [videoUri |]; [| unfold occurrences; simpl; lia].
  rewrite bind_lookup_global. unfold extractSegments. rewrite occurrences_tell.
  cbn [is_return].
  destruct (ffmpeg_extract W) as [e | e | [e | files]];
    rewrite !occurrences_tell; cbn [is_return]; rewrite ?handleError_calls_once; try lia.
  pose proof (upload_and_finish_calls metadata). lia.
Qed.
End Calls.
Section CallsOfRun.
Context (G : Globals) (W : World) (bucket : string) (video : Job).

(** After a download that handed its file over, or failed without a bad
    status, the callback is called at most once. *)
Lemma after_download_calls (video_path : string) (content_type : option string) :
  (occurrences is_return
     (trace match ending (http W) with
            | TransportError err =>
                download_on_error err
                  (fun err contentType =>
                     match err with
                     | Some err =>
                         handleError (Worker.segmenter_of W video)
                           (Worker.on_processed video) err
                     | None =>
                         getVideoMetadata video_path (ffmpeg_probe W)
                           (after_probe G W (Worker.segmenter_of W video)
                              (job_uri video) bucket video_path
                              (Worker.on_processed video))
                     end)
            | Finished close_error =>
                download_on_finish None content_type close_error
                  (fun err contentType =>
                     match err with
                     | Some err =>
                         handleError (Worker.segmenter_of W video)
                           (Worker.on_processed video) err
                     | None =>
                         getVideoMetadata video_path (ffmpeg_probe W)
                           (after_probe G W (Worker.segmenter_of W video)
                              (job_uri video) bucket video_path
                              (Worker.on_processed video))
                     end)
            end) <= 1)%nat.
Proof.
  unfold download_on_error, download_on_finish.
  destruct (ending (http W)) as [e | [e |]]; rewrite ?handleError_calls_once; try lia.
  unfold getVideoMetadata. rewrite occurrences_tell. cbn [is_return].
  destruct (ffmpeg_probe W); apply after_probe_calls.
Qed.

(** The number of calls of the callback in a run. *)
Lemma on_video_calls :
  let calls := occurrences is_return (trace (Worker.on_video G W bucket video)) in
  match tmp_file W with
  | inl _ => calls = 1%nat
  | inr _ =>
      match response (http W) with
      | Some (statusCode, _) =>
          if 200 =? statusCode then (calls <= 1)%nat
          else match ending (http W) with
               | TransportError _ => calls = 2%nat
               | Finished _ => calls = 1%nat
               end
      | None => (calls <= 1)%nat
      end
  end.
Proof.
  cbv zeta. unfold Worker.on_video. rewrite occurrences_tell. cbn [is_return].
  unfold downloadAndExtractToS3. cbv zeta. cbn [from_option id default].
  rewrite occurrences_tell. cbn [is_return].
  destruct (tmp_file W) as [e | video_path]; [by rewrite handleError_calls_once |].
  unfold downloadToLocal. rewrite occurrences_tell. cbn [is_return].
  rewrite occurrences_bind.
  destruct (response (http W)) as [[statusCode content_type] |].
  - unfold download_on_response. destruct (200 =? statusCode); cbn [negb].
    + cbn [trace outcome mret M_ret fst snd].
      pose proof (after_download_calls video_path content_type).
      change (occurrences is_return []) with 0%nat. lia.
    + rewrite occurrences_bind, handleError_calls_once.
      rewrite handleError_worker. cbn [outcome snd]. rewrite bind_inr.
      cbn [outcome trace mret M_ret fst snd].
      unfold download_on_error, download_on_finish.
      destruct (ending (http W)) as [e | close_error];
        rewrite ?handleError_calls_once; unfold occurrences; simpl; lia.
  - cbn [trace outcome mret M_ret fst snd].
    pose proof (after_download_calls video_path None).
    change (occurrences is_return []) with 0%nat. lia.
Qed.
End CallsOfRun.

(** X9: the consumer's callback is called at most twice for a message, and
    twice only when the source answers with a status other than 200 and the
    request then emits an error: the status error is reported at the
    response, and the error of the request after it. In every other run it
    is called at most once. The message is never acknowledged more often
    than the callback is called. *)
Theorem callback_called_twice_only_after_a_bad_status (G : Globals) (W : World)
    (bucket : string) (video : Job) :
  let t := trace (Worker.on_video G W bucket video) in
  (occurrences is_return t <= 2)%nat
  /\ (occurrences is_return t = 2%nat <->
      exists video_path statusCode content_type err,
        tmp_file W = inr video_path
        /\ response (http W) = Some (statusCode, content_type)
        /\ statusCode <> 200
        /\ ending (http W) = TransportError err)
  /\ (occurrences is_finish t <= occurrences is_return t)%nat.
Proof.
  cbv zeta. split; [| split].
  3: { apply (holds_on_video G W bucket video acks_bounded);
         try (unfold acks_bounded, occurrences; simpl; lia).
       - intros e He. destruct e; try done; unfold acks_bounded, occurrences; simpl; lia.
       - intros err. rewrite handleError_worker. unfold holds, acks_bounded, occurrences.
         simpl. destruct (is_fatal err); simpl; lia.
       - intros t. rewrite processSegment_cases.
         destruct (g_contentType G); unfold holds, acks_bounded, occurrences; simpl; lia.
       - intros t. rewrite processSegment_done_worker.
         destruct (s3_upload W (task_no t));
           [unfold holds, acks_bounded, occurrences; simpl; lia |].
         destruct (g_shivaUtils G); [| unfold holds, acks_bounded, occurrences; simpl; lia].
         destruct (pattern_exec _); [| unfold holds, acks_bounded, occurrences; simpl; lia].
         unfold holds, acks_bounded, occurrences. cbv zeta. simpl.
         destruct (bus_publish W _); simpl; lia.
       - intros res. split; unfold holds, acks_bounded, occurrences; simpl; lia. }
  all: pose proof (on_video_calls G W bucket video) as H; cbv zeta in H.
  all: destruct (tmp_file W) as [e | video_path];
    [first [lia | split; [lia | by intros (? & ? & ? & ? & ? & _)]] |].
  all: destruct (response (http W)) as [[statusCode content_type] |];
    [| first [lia | split; [lia | by intros (? & ? & ? & ? & _ & ? & _)]]].
  all: destruct (200 =? statusCode) eqn:E;
    [apply Z.eqb_eq in E;
     first [lia | split; [lia | intros (? & ? & ? & ? & _ & [= <- _] & ? & _); lia]] |].
  all: apply Z.eqb_neq in E.
  all: destruct (ending (http W)) as [err | close_error]; try lia.
  - split; [| done]. intros _. exists video_path, statusCode, content_type, err.
    repeat split; congruence.
  - split; [lia |]. by intros (? & ? & ? & ? & _ & _ & _ & ?).
Qed.
(** ** The answers of the bus *)

Lemma without_console_errors_app (t1 t2 : list Event) :
  without_console_errors (t1 ++ t2)
  = (without_console_errors t1 ++ without_console_errors t2)%list.
Proof. apply List.filter_app. Qed.

Section SameButConsole.

Lemma same_refl {A} (m : M A) : same_but_console m m.
Proof. done. Qed.

Lemma same_bind {A B} (m1 m2 : M A) (k1 k2 : A -> M B) :
  same_but_console m1 m2 ->
  (forall a, outcome m1 = inr a -> same_but_console (k1 a) (k2 a)) ->
  same_but_console (m1 ≫= k1) (m2 ≫= k2).
Proof.
  intros [Ht Ho] Hk. unfold same_but_console. rewrite !trace_bind.
  destruct m1 as [t1 [x | a]], m2 as [t2 o2]; cbn [trace outcome fst snd] in *; subst o2.
  - by rewrite !bind_inl.
  - rewrite !bind_inr. cbn [outcome snd]. destruct (Hk a eq_refl) as [Hkt Hko].
    by rewrite !without_console_errors_app, Ht, Hkt.
Qed.

Lemma same_tell {B} (e : Event) (k1 k2 : unit -> M B) :
  same_but_console (k1 tt) (k2 tt) ->
  same_but_console (tell e ≫= k1) (tell e ≫= k2).
Proof. intros H. apply same_bind; [done |]. by intros []. Qed.

Context {T R : Type}.
Variable start : T -> M unit.
Variables done1 done2 : T -> M (JsError + R).
Variable latency : T -> nat.
Hypothesis same_done : forall t, same_but_console (done1 t) (done2 t).

Lemma same_completions (cs : list (nat * T)) (results : list (option R)) :
  same_but_console (completions done1 cs results) (completions done2 cs results).
Proof.
  revert results. induction cs as [| [key t] cs IH]; intros results; [done |].
  cbn [completions]. apply same_bind; [apply same_done |].
  intros [err | value] _; [done | apply IH].
Qed.

Lemma same_parallel (tasks : list T) :
  same_but_console (parallel start done1 latency tasks) (parallel start done2 latency tasks).
Proof. unfold parallel. apply same_bind; [done |]. intros _ _. apply same_completions. Qed.

Lemma same_series (bs : list (list T)) :
  same_but_console (series start done1 latency bs) (series start done2 latency bs).
Proof.
  induction bs as [| b bs IH]; [done |]. cbn [series].
  apply same_bind; [apply same_parallel |].
  intros [results | err in_flight] _; [| done].
  apply same_bind; [apply IH |]. by intros [more | err in_flight] _.
Qed.

Lemma same_stragglers (in_flight : list T) :
  same_but_console (stragglers done1 in_flight) (stragglers done2 in_flight).
Proof.
  unfold stragglers. induction in_flight as [| t l IH]; [done |]. cbn [for_each].
  apply same_bind; [| intros _ _; apply IH].
  apply same_bind; [apply same_done | done].
Qed.
End SameButConsole.

(** X10: a failed publish of a segment event is written to [console.error] and
    has no other effect: whatever the bus answers, the run is the same but
    for its [console.error] lines — the same uploads, segment events,
    published events, calls of the callback and acknowledgements, in the
    same order, and the same end. *)
Theorem publish_failures_are_only_logged (G : Globals) (W : World) (bucket : string)
    (video : Job) (answers : Z -> option JsError) :
  let r := Worker.on_video G W bucket video in
  let r' := Worker.on_video G (with_publish answers W) bucket video in
  without_console_errors (trace r') = without_console_errors (trace r)
  /\ outcome r' = outcome r.
Proof.
  change (same_but_console (Worker.on_video G (with_publish answers W) bucket video)
                           (Worker.on_video G W bucket video)).
  unfold Worker.on_video. apply same_tell.
  unfold downloadAndExtractToS3. cbv zeta. cbn [from_option id default tmp_file with_publish].
  apply same_tell.
  destruct (tmp_file W) as [e | video_path]; [by split |].
  unfold downloadToLocal. cbn [http with_publish]. apply same_tell.
  apply same_bind.
  { destruct (response (http W)) as [[statusCode content_type] |]; [| by split].
    unfold download_on_response. destruct (negb _); by split. }
  intros [error contentType] _. cbn [fst snd]. unfold download_on_error, download_on_finish.
  destruct (ending (http W)) as [e | close_error]; [by split |].
  destruct error; [by split |]. destruct close_error; [by split |].
  unfold getVideoMetadata. cbn [ffmpeg_probe with_publish]. apply same_tell.
  assert (forall err metadata,
            same_but_console
              (after_probe G (with_publish answers W)
                 (Worker.segmenter_of (with_publish answers W) video) (job_uri video)
                 bucket video_path (Worker.on_processed video) err metadata)
              (after_probe G W (Worker.segmenter_of W video) (job_uri video)
                 bucket video_path (Worker.on_processed video) err metadata)) as Hafter.
  { intros err metadata. unfold after_probe. cbn [tmp_dir with_publish ffmpeg_extract].
    apply same_tell. destruct (tmp_dir W) as [e | dir_path]; [by split |].
    destruct (g_videoUri G) as [videoUri |]; [| by split]. rewrite !bind_lookup_global.
    unfold extractSegments. apply same_tell.
    destruct (ffmpeg_extract W) as [e | e | [e | files]]; try by split.
    do 2 apply same_tell. unfold upload_and_finish.
    destruct (g_frames G) as [frames |]; [| by split]. rewrite !bind_lookup_global.
    apply same_bind; [by split |]. intros tasks _.
    assert (forall t,
              same_but_console
                (processSegment_done G (with_publish answers W)
                   (Worker.segmenter_of (with_publish answers W) video) bucket
                   (s3_dir_of (job_uri video)) t)
                (processSegment_done G W (Worker.segmenter_of W video) bucket
                   (s3_dir_of (job_uri video)) t)) as Hdone.
    { intros t. rewrite !processSegment_done_worker.
      cbn [s3_upload bus_publish with_publish].
      destruct (s3_upload W (task_no t)); [by split |].
      destruct (g_shivaUtils G); [| by split]. destruct (pattern_exec _); [| by split].
      cbv zeta. unfold same_but_console. cbn [trace outcome fst snd].
      destruct (answers _), (bus_publish W _); by split. }
    apply same_bind; [by apply same_series |].
    intros [results | err' in_flight] _; [by split |].
    apply same_bind; [by split |]. intros _ _. by apply same_stragglers. }
  destruct (ffmpeg_probe W); apply Hafter.
Qed.
(** ** A failed probe *)

(** X11: when the probe fails and every other stage succeeds, its error is
    dropped and the run goes on without metadata. With at least one file in
    [frames] it dies on [metadata.video] while the upload tasks are made:
    after the release of the temporary file, before any upload, and without
    calling the callback or releasing the directory. With no file in
    [frames] nothing reads the metadata, and the run ends as a success with
    an empty Job Result. *)
Theorem failed_probe_is_found_at_the_first_frame (G : Globals) (W : World)
    (bucket : string) (video : Job) (video_path dir_path videoUri : string)
    (files frames : list string) (err : JsError) :
  tmp_file W = inr video_path ->
  download_ok (http W) = true ->
  ffmpeg_probe W = Throws err \/ ffmpeg_probe W = Rejects err ->
  tmp_dir W = inr dir_path ->
  g_videoUri G = Some videoUri ->
  ffmpeg_extract W = Resolves (inr files) ->
  g_frames G = Some frames ->
  let r := Worker.on_video G W bucket video in
  let stages :=
    [Log (NewVideo video); TmpFile; HttpGet (job_uri video) video_path;
     FfmpegOpen video_path; TmpDir; FfmpegOpen video_path;
     FfmpegExtract video_path
       (filePattern video_path (Str.substring1 (Path.extname videoUri)) dir_path);
     CleanupFile] in
  match frames with
  | _ :: _ => r = (stages, inl (TypeError "metadata.video"))
  | [] =>
      match g_sequencer G with
      | Some _ =>
          r = ((stages ++ [CleanupDir; EmitEnd ∅; Return None (Some ∅);
                           Log (ProcessingCompleted (job_uri video)); MsgFinish])%list,
               inr tt)
      | None => r = ((stages ++ [CleanupDir])%list, inl (ReferenceError "sequencer"))
      end
  end.
Proof.
  intros Hfile Hdl Hprobe Hdir Huri Hextract Hframes. cbv zeta.
  unfold Worker.on_video, downloadAndExtractToS3. cbv zeta. cbn [from_option id default].
  rewrite Hfile. unfold downloadToLocal, download_ok in *.
  assert (getVideoMetadata video_path (ffmpeg_probe W)
            (after_probe G W (Worker.segmenter_of W video) (job_uri video) bucket video_path
               (Worker.on_processed video))
          = (tell (FfmpegOpen video_path);;
             after_probe G W (Worker.segmenter_of W video) (job_uri video) bucket video_path
               (Worker.on_processed video) (Some err) None)) as Hmeta.
  { unfold getVideoMetadata. by destruct Hprobe as [-> | ->]. }
  assert (after_probe G W (Worker.segmenter_of W video) (job_uri video) bucket video_path
            (Worker.on_processed video) (Some err) None
          = (tell TmpDir;;
             tell (FfmpegOpen video_path);;
             tell (FfmpegExtract video_path
                     (filePattern video_path (Str.substring1 (Path.extname videoUri))
                        dir_path));;
             tell CleanupFile;;
             upload_and_finish G W (Worker.segmenter_of W video) (job_uri video) bucket None
               (Worker.on_processed video))) as Hafter.
  { unfold after_probe, extractSegments. by rewrite Hdir, Huri, Hextract. }
  assert (upload_and_finish G W (Worker.segmenter_of W video) (job_uri video) bucket None
            (Worker.on_processed video)
          = match frames with
            | _ :: _ => ([], inl (TypeError "metadata.video"))
            | [] =>
                match g_sequencer G with
                | Some _ =>
                    ([CleanupDir; EmitEnd ∅; Return None (Some ∅);
                      Log (ProcessingCompleted (job_uri video)); MsgFinish], inr tt)
                | None => ([CleanupDir], inl (ReferenceError "sequencer"))
                end
            end) as Hup.
  { unfold upload_and_finish. rewrite Hframes, bind_lookup_global, segmentTasks_unprobed.
    destruct frames; [| done]. by destruct (g_sequencer G) as [[] |]. }
  destruct (http W) as [[[status ct] |] [e | [e |]]]; simpl in Hdl; try discriminate;
    [apply Z.eqb_eq in Hdl; subst status |];
    unfold download_on_response, download_on_finish;
    cbn [response ending Z.eqb Pos.eqb negb fst snd];
    rewrite ?bind_ret_l; cbn [fst snd]; rewrite Hmeta, Hafter, Hup;
    destruct frames; try destruct (g_sequencer G); reflexivity.
Qed.

Lemma failed_probe_is_found_at_the_first_frame_witness :
  Worker.on_video Sample.patched Sample.unprobeable "bucket" Sample.job
  = ([Log (NewVideo Sample.job); TmpFile;
      HttpGet "https://host/movie.mp4" "/tmp/tmp-42abc.tmp";
      FfmpegOpen "/tmp/tmp-42abc.tmp"; TmpDir; FfmpegOpen "/tmp/tmp-42abc.tmp";
      FfmpegExtract "/tmp/tmp-42abc.tmp" "/tmp/tmp-42dir/tmp-42abc_%d.mp4";
      CleanupFile],
     inl (TypeError "metadata.video")).
Proof.
  apply (failed_probe_is_found_at_the_first_frame Sample.patched Sample.unprobeable "bucket"
           Sample.job "/tmp/tmp-42abc.tmp" "/tmp/tmp-42dir" "https://host/movie.mp4"
           Sample.frames Sample.frames Sample.corrupt).
  - reflexivity.
  - reflexivity.
  - right. reflexivity.
  - reflexivity.
  - reflexivity.
  - reflexivity.
  - reflexivity.
Defined.
(** ** A negative batch size *)

Lemma batches_negative {A} (batchSize : Z) (l : list A) :
  batchSize < 0 -> l <> [] -> batches batchSize l = [].
Proof.
  intros Hb Hl. unfold batches.
  assert (0 < Z.of_nat (length l)) as Hlen by (destruct l; [done | simpl; lia]).
  pose proof (Z.div_mod (Z.of_nat (length l)) batchSize ltac:(lia)) as Hdiv.
  pose proof (Z.mod_neg_bound (Z.of_nat (length l)) batchSize Hb) as Hmod.
  assert (Z.of_nat (length l) / batchSize + 1 <= 0) as Hn by nia.
  cbv zeta. by rewrite seqZ_nil.
Qed.

(** X12: a segmenter made with a negative batch size keeps it (only an absent
    or zero batch size becomes 10), and then the loop makes no batch when
    there is a file: nothing is uploaded and no segment is emitted, yet the
    directory is released and the callback gets an empty Job Result, as
    for a success. *)
Theorem negative_batch_size_uploads_nothing (G : Globals) (W : World) (b : Z)
    (video_uri s3_bucket : string) (metadata : Metadata) (fn : Callback JobResult)
    (file : string) (files : list string) :
  b < 0 ->
  g_frames G = Some (file :: files) ->
  batchSize (new_Segmenter (Some b)) = b
  /\ upload_and_finish G W (new_Segmenter (Some b)) video_uri s3_bucket (Some metadata) fn
     = (tell CleanupDir;;
        _ ← lookup_global "sequencer" (g_sequencer G);
        tell (EmitEnd ∅);;
        invoke fn None (Some ∅)).
Proof.
  intros Hb Hframes.
  assert (batchSize (new_Segmenter (Some b)) = b) as Hsize.
  { cbn [new_Segmenter batchSize]. destruct (b =? 0) eqn:E; [| done].
    apply Z.eqb_eq in E. lia. }
  split; [done |].
  unfold upload_and_finish. rewrite Hframes, bind_lookup_global, segmentTasks_probed.
  rewrite bind_inr, Hsize, batches_negative by done.
  cbn [series]. rewrite bind_ret_l. cbn [merge_results foldl].
  by destruct (_ ≫= _).
Qed.

Lemma negative_batch_size_uploads_nothing_witness :
  batchSize (new_Segmenter (Some (-5))) = -5
  /\ upload_and_finish Sample.patched Sample.all_fine (new_Segmenter (Some (-5)))
       "https://host/movie.mp4" "bucket" (Some {| video_fps := 25 # 1 |})
       (Worker.on_processed Sample.job)
     = (tell CleanupDir;;
        _ ← lookup_global "sequencer" (g_sequencer Sample.patched);
        tell (EmitEnd ∅);;
        invoke (Worker.on_processed Sample.job) None (Some ∅)).
Proof.
  apply (negative_batch_size_uploads_nothing Sample.patched Sample.all_fine (-5)
           "https://host/movie.mp4" "bucket" {| video_fps := 25 # 1 |}
           (Worker.on_processed Sample.job)
           "/tmp/tmp-42dir/tmp-42abc_1.jpg"
           ["/tmp/tmp-42dir/tmp-42abc_2.jpg"; "/tmp/tmp-42dir/tmp-42abc_3.jpg"]).
  - lia.
  - reflexivity.
Defined.
(** ** A frame file whose name the pattern does not match *)

Section FirstCompletion.
Context {T R : Type}.
Variable start : T -> M unit.
Variable done : T -> M (JsError + R).
Variable latency : T -> nat.

(** When the tasks of a batch have all been called and every one of them
    dies at its completion, the batch dies at the first completion. *)
Lemma parallel_dies (tasks : list T) (ts : list Event) (x : Exn) :
  tasks <> [] ->
  for_each start tasks = (ts, inr tt) ->
  (forall t, t ∈ tasks -> done t = ([], inl x)) ->
  parallel start done latency tasks = (ts, inl x).
Proof.
  intros Hne Hstart Hdone. unfold parallel. rewrite Hstart, bind_inr.
  pose proof (completion_order_perm latency (imap pair tasks)) as Hperm.
  destruct (completion_order latency (imap pair tasks)) as [| [key t] cs].
  - apply Permutation_nil_l in Hperm. destruct tasks; [done | discriminate].
  - assert (t ∈ tasks) as Ht.
    { apply (elem_of_imap_pair tasks (key, t)). rewrite <- Hperm. left. }
    cbn [completions]. rewrite (Hdone t Ht). cbn [trace outcome fst snd].
    by rewrite app_nil_r.
Qed.

Lemma series_dies (b : list T) (bs : list (list T)) (ts : list Event) (x : Exn) :
  b <> [] ->
  for_each start b = (ts, inr tt) ->
  (forall t, t ∈ b -> done t = ([], inl x)) ->
  series start done latency (b :: bs) = (ts, inl x).
Proof. intros Hne Hstart Hdone. cbn [series]. by rewrite (parallel_dies b ts x). Qed.
End FirstCompletion.

(** The first batch holds the first [batchSize] tasks. *)
Lemma batches_first {A} (batchSize : Z) (l : list A) :
  1 <= batchSize ->
  exists rest, batches batchSize l = take (Z.to_nat batchSize) l :: rest.
Proof.
  intros Hb. unfold batches. cbv zeta.
  assert (0 <= Z.of_nat (length l) / batchSize) by (apply Z.div_pos; lia).
  rewrite seqZ_cons by lia. rewrite fmap_cons. eexists. f_equal.
  rewrite (batch_within l batchSize 0) by lia.
  rewrite Z.mul_0_l, Z.sub_0_r. change (Z.to_nat 0) with 0%nat. rewrite drop_0.
  destruct (decide (batchSize <= Z.of_nat (length l))).
  - by rewrite Z.min_l by lia.
  - rewrite Z.min_r by lia. rewrite Nat2Z.id.
    rewrite firstn_all. symmetry. apply take_ge. lia.
Qed.
Lemma for_each_processSegment (G : Globals) (bucket dir : string) (ct : option string)
    (tasks : list Task) :
  g_contentType G = Some ct ->
  for_each (processSegment G bucket dir) tasks
  = ((fun t => S3Upload bucket (s3_key (task_file t) dir None) ct) <$> tasks, inr tt).
Proof.
  intros Hct. induction tasks as [| t tasks IH]; [done |]. cbn [for_each].
  rewrite processSegment_cases, Hct, bind_inr, IH. reflexivity.
Qed.

(** X13: when no file of [frames] has a base name that the pattern matches (an
    underscore followed by a digit) and the object store accepts every
    object, the first batch is sent (the first 10 files) and the run dies at
    the first upload that completes, on [match[1]]: nothing else is sent, no
    segment is emitted, and the callback is never called. *)
Theorem unmatched_frame_names_end_the_run (G : Globals) (W : World) (bucket : string)
    (video : Job) (metadata : Metadata) (frames : list string) (ct : option string) :
  g_frames G = Some frames ->
  frames <> [] ->
  g_contentType G = Some ct ->
  is_Some (g_shivaUtils G) ->
  (forall n, s3_upload W n = None) ->
  Forall (fun file => pattern_exec (Path.basename file None) = None) frames ->
  upload_and_finish G W (Worker.segmenter_of W video) (job_uri video) bucket (Some metadata)
    (Worker.on_processed video)
  = ((fun file => S3Upload bucket (s3_key file (s3_dir_of (job_uri video)) None) ct)
       <$> take 10 frames,
     inl (TypeError "match[1]")).
Proof.
  intros Hframes Hne Hct [getS3Uri Hshiva] Hup Hnames.
  unfold upload_and_finish. rewrite Hframes, bind_lookup_global.
  pose proof (segmentTasks_files frames (Some metadata)) as Hfiles.
  rewrite segmentTasks_probed in *. rewrite bind_inr, app_nil_l.
  set (tasks := imap _ frames) in *. specialize (Hfiles tasks eq_refl).
  destruct (batches_first (batchSize (Worker.segmenter_of W video)) tasks) as [rest ->];
    [done |].
  change (Z.to_nat (batchSize (Worker.segmenter_of W video))) with 10%nat.
  cbn [trace outcome fst snd].
  rewrite (series_dies _ _ _ (take 10 tasks) rest
             ((fun t => S3Upload bucket (s3_key (task_file t) (s3_dir_of (job_uri video)) None)
                          ct) <$> take 10 tasks)
             (TypeError "match[1]")).
  - rewrite bind_inl. cbn [trace fst]. f_equal.
    rewrite <- Hfiles, <- !fmap_take, <- list_fmap_compose. reflexivity.
  - destruct tasks as [| t tasks']; [| done]. destruct frames; [done | discriminate].
  - by apply for_each_processSegment.
  - intros t Ht%subseteq_take. rewrite processSegment_done_worker, Hup, Hshiva.
    assert (task_file t ∈ frames) as Hin.
    { rewrite <- Hfiles. by apply list_elem_of_fmap_2. }
    rewrite Forall_forall in Hnames. by rewrite (Hnames _ Hin).
Qed.

Lemma unmatched_frame_names_end_the_run_witness :
  upload_and_finish Sample.unnumbered Sample.all_fine
    (Worker.segmenter_of Sample.all_fine Sample.job) "https://host/movie.mp4" "bucket"
    (Some {| video_fps := 25 # 1 |}) (Worker.on_processed Sample.job)
  = ([S3Upload "bucket" "movie/first.jpg" (Some "image/jpeg");
      S3Upload "bucket" "movie/second.jpg" (Some "image/jpeg")],
     inl (TypeError "match[1]")).
Proof.
  apply (unmatched_frame_names_end_the_run Sample.unnumbered Sample.all_fine "bucket"
           Sample.job {| video_fps := 25 # 1 |}
           ["/tmp/tmp-42dir/first.jpg"; "/tmp/tmp-42dir/second.jpg"] (Some "image/jpeg")).
  - reflexivity.
  - discriminate.
  - reflexivity.
  - exists getObjectUri. reflexivity.
  - reflexivity.
  - repeat constructor.
Defined.
(** ** A status other than 200 *)

(** X14: only the status 200 lets a download through. Any other status — a 404
    or a 500, but also another 2xx such as 206 — is reported at once with
    the status error, which is fatal: the error event, the console line,
    the callback, and the consumer acknowledges the message. Nothing of the
    pipeline runs after it: no probe, no directory, no extraction, no
    release of the temporary file. The only thing that can follow is the
    report of an error of the request, when it emits one afterwards. *)
Theorem only_status_200_is_accepted (G : Globals) (W : World) (bucket : string)
    (video : Job) (video_path : string) (statusCode : Z) (content_type : option string) :
  tmp_file W = inr video_path ->
  response (http W) = Some (statusCode, content_type) ->
  statusCode <> 200 ->
  let err := status_error (job_uri video) statusCode in
  is_fatal err = true
  /\ trace (Worker.on_video G W bucket video)
     = ([Log (NewVideo video); TmpFile; HttpGet (job_uri video) video_path;
         EmitError err; ConsoleError err; Return (Some err) None;
         Log (ProcessingCompleted (job_uri video)); MsgFinish]
        ++ match ending (http W) with
           | TransportError e =>
               [EmitError e; ConsoleError e; Return (Some e) None]
               ++ (if is_fatal e
                   then [Log (ProcessingCompleted (job_uri video)); MsgFinish]
                   else [Log (ProcessingFailed (job_uri video) e)])
           | Finished _ => []
           end)%list.
Proof.
  intros Hfile Hresp Hcode. cbv zeta. split; [done |].
  unfold Worker.on_video, downloadAndExtractToS3. cbv zeta. cbn [from_option id default].
  rewrite Hfile. unfold downloadToLocal. rewrite Hresp. unfold download_on_response.
  replace (200 =? statusCode) with false by (symmetry; apply Z.eqb_neq; lia).
  cbn [negb]. rewrite handleError_worker. cbn [is_fatal status_error fatal].
  unfold download_on_error, download_on_finish.
  destruct (ending (http W)) as [e | close_error]; [| reflexivity].
  rewrite handleError_worker. by destruct (is_fatal e).
Qed.

Lemma only_status_200_is_accepted_witness :
  let err := status_error "https://host/movie.mp4" 206 in
  is_fatal err = true
  /\ trace (Worker.on_video Sample.patched
              (Sample.with_http {| response := Some (206, Some "video/mp4");
                                   ending := Finished None |} Sample.all_fine)
              "bucket" Sample.job)
     = ([Log (NewVideo Sample.job); TmpFile;
         HttpGet "https://host/movie.mp4" "/tmp/tmp-42abc.tmp";
         EmitError err; ConsoleError err; Return (Some err) None;
         Log (ProcessingCompleted "https://host/movie.mp4"); MsgFinish] ++ [])%list.
Proof.
  apply (only_status_200_is_accepted Sample.patched
           (Sample.with_http {| response := Some (206, Some "video/mp4");
                                ending := Finished None |} Sample.all_fine)
           "bucket" Sample.job "/tmp/tmp-42abc.tmp" 206 (Some "video/mp4")).
  - reflexivity.
  - reflexivity.
  - lia.
Defined.
(** ** Names and keys *)

(** X15: for a video file with an extension, whose name before the extension
    holds no dot, and a format that holds no slash and no dollar sign, the
    frame files are named after the video file, with [_%d.<format>] in the
    place of the extension. *)
Theorem frame_pattern_replaces_the_extension (videoPath format toDir : string) :
  Path.extname videoPath <> "" ->
  count_char "." (Path.basename videoPath (Some (Path.extname videoPath))) = 0%nat ->
  count_char "/" format = 0%nat ->
  count_char "$" format = 0%nat ->
  Path.basename (filePattern videoPath format toDir) None
  = Path.basename videoPath (Some (Path.extname videoPath)) +:+ "_%d." +:+ format.
Proof.
  intros Hext Hstem Hformat Hdollar. unfold filePattern. cbv zeta.
  rewrite <- (basename_without_extension videoPath) at 1.
  pose proof (stem_no_slash videoPath) as Hslash.
  destruct (extname_dot videoPath) as [E | [e E]]; [done |]. rewrite E in *.
  rewrite replace_first_suffix; [| done | by rewrite count_char_append, Hdollar].
  set (name := _ +:+ "_%d." +:+ format).
  destruct (underscored_name name) as (Hne & Hdot & Hdots).
  { unfold name. rewrite !count_char_append. simpl. lia. }
  apply basename_of_path_join; [| done | done | done].
  unfold name. rewrite !count_char_append, Hslash, Hformat. reflexivity.
Qed.

Lemma frame_pattern_replaces_the_extension_witness :
  Path.basename (filePattern "/tmp/tmp-42abc.tmp" "mp4" "/tmp/tmp-42dir") None
  = "tmp-42abc" +:+ "_%d." +:+ "mp4".
Proof.
  apply (frame_pattern_replaces_the_extension "/tmp/tmp-42abc.tmp" "mp4" "/tmp/tmp-42dir").
  - discriminate.
  - reflexivity.
  - reflexivity.
  - reflexivity.
Defined.

(** X16: for a video file without an extension the pattern to replace is
    empty, and [replace] puts [_%d.<format>] before the name instead of
    after it: for a format that holds no slash and no dollar sign the frame
    files are named [_<n>.<format><name>]. *)
Theorem frame_pattern_without_extension (videoPath format toDir : string) :
  Path.extname videoPath = "" ->
  count_char "/" format = 0%nat ->
  count_char "$" format = 0%nat ->
  Path.basename (filePattern videoPath format toDir) None
  = "_%d." +:+ format +:+ Path.basename videoPath None.
Proof.
  intros Hext Hformat Hdollar. unfold filePattern. cbv zeta.
  rewrite Hext, replace_first_empty by (by rewrite count_char_append, Hdollar).
  assert (("_%d." +:+ format) +:+ Path.basename videoPath None
          = "_%d." +:+ format +:+ Path.basename videoPath None) as -> by reflexivity.
  set (name := "_%d." +:+ format +:+ _).
  destruct (underscored_name name) as (Hne & Hdot & Hdots).
  { unfold name. rewrite !count_char_append. simpl. lia. }
  apply basename_of_path_join; [| done | done | done].
  unfold name. by rewrite !count_char_append, basename_no_slash, Hformat.
Qed.

Lemma frame_pattern_without_extension_witness :
  Path.basename (filePattern "/tmp/video" "mp4" "/tmp/tmp-42dir") None
  = "_%d." +:+ "mp4" +:+ "video".
Proof.
  apply (frame_pattern_without_extension "/tmp/video" "mp4" "/tmp/tmp-42dir").
  - reflexivity.
  - reflexivity.
  - reflexivity.
Defined.

(** X17: an object key is at most one level deep — the directory made from the
    video URI holds no slash, whatever the URI, and neither does the name of
    the frame — and the base name of the key is the base name of the frame
    file. *)
Theorem object_key_is_one_level_deep (video_uri file : string) :
  Path.basename file None <> "" ->
  let key := s3_key file (s3_dir_of video_uri) None in
  (count_char "/" key <= 1)%nat
  /\ Path.basename key None = Path.basename file None.
Proof.
  intros Hfile. cbv zeta. unfold s3_key.
  pose proof (basename_no_slash file) as Hname.
  destruct (basename_of_join (s3_dir_of video_uri) (Path.basename file None) Hname Hfile)
    as [Hjoin Hself].
  case_bool_decide.
  - rewrite Hname. split; [lia | done].
  - rewrite !count_char_append, Hname. unfold s3_dir_of. rewrite stem_no_slash.
    split; [simpl; lia | done].
Qed.

Lemma object_key_is_one_level_deep_witness :
  let key := s3_key "/tmp/tmp-42dir/tmp-42abc_3.jpg"
               (s3_dir_of "https://host/a/movie.mp4?download=/x/y.mp4") None in
  (count_char "/" key <= 1)%nat
  /\ Path.basename key None = Path.basename "/tmp/tmp-42dir/tmp-42abc_3.jpg" None.
Proof.
  apply (object_key_is_one_level_deep "https://host/a/movie.mp4?download=/x/y.mp4"
           "/tmp/tmp-42dir/tmp-42abc_3.jpg").
  discriminate.
Defined.
(** ** getObjectUri *)

Section UriFacts.
Import Str.

Lemma chars_inj (a b : string) : chars a = chars b -> a = b.
Proof. intros H. by rewrite <- (of_chars_chars a), <- (of_chars_chars b), H. Qed.

(** Two texts cut at their first slash are cut at the same place. *)
Lemma split_at_first_slash (u1 u2 v1 v2 : list ascii) :
  Forall (fun x => Ascii.eqb x "/" = false) u1 ->
  Forall (fun x => Ascii.eqb x "/" = false) u2 ->
  (u1 ++ "/"%char :: v1 = u2 ++ "/"%char :: v2)%list ->
  u1 = u2 /\ v1 = v2.
Proof.
  intros H1. revert u2. induction H1 as [| x u1 Hx _ IH]; intros u2 H2 E.
  - destruct H2 as [| y u2 Hy _]; simpl in E; [by injection E |].
    injection E as <- _. by rewrite Ascii.eqb_refl in Hy.
  - destruct H2 as [| y u2 Hy H2]; simpl in E.
    + injection E as -> _. by rewrite Ascii.eqb_refl in Hx.
    + injection E as -> E. destruct (IH u2 H2 E) as [-> ->]. done.
Qed.
End UriFacts.

(** X18: two objects have the same URI only when they are the same object:
    for bucket names without a slash, [getObjectUri] gives different URIs
    to different buckets and to different keys of one bucket. *)
Theorem getObjectUri_is_injective (bucket1 key1 bucket2 key2 : string) :
  count_char "/" bucket1 = 0%nat ->
  count_char "/" bucket2 = 0%nat ->
  getObjectUri bucket1 key1 = getObjectUri bucket2 key2 ->
  bucket1 = bucket2 /\ key1 = key2.
Proof.
  intros H1 H2 E. unfold getObjectUri in E.
  apply (f_equal Str.chars) in E. rewrite !chars_append in E.
  apply app_inv_head in E.
  change (Str.chars ".s3.amazonaws.com/")
    with ((Str.chars ".s3.amazonaws.com") ++ ["/"%char])%list in E.
  rewrite <- !(app_assoc (Str.chars ".s3.amazonaws.com")) in E.
  rewrite !app_assoc in E. rewrite <- !(app_assoc _ ["/"%char]) in E. simpl app at 2 4 in E.
  assert (forall b, count_char "/" b = 0%nat ->
            Forall (fun x => Ascii.eqb x "/" = false)
                   (Str.chars b ++ Str.chars ".s3.amazonaws.com")) as Hhost.
  { intros b Hb%count_char_none. apply Forall_app. split; [done |].
    repeat constructor. }
  apply split_at_first_slash in E as [Eb Ek]; [| by apply Hhost | by apply Hhost].
  apply app_inv_tail in Eb. split; by apply chars_inj.
Qed.

Lemma getObjectUri_is_injective_witness :
  "frames" = "frames" /\ "movie/movie_3.jpg" = "movie/movie_3.jpg".
Proof.
  apply (getObjectUri_is_injective "frames" "movie/movie_3.jpg" "frames" "movie/movie_3.jpg").
  - reflexivity.
  - reflexivity.
  - reflexivity.
Defined.
(** ** What the stages work on *)

Section DataFlow.
Context (G : Globals) (W : World) (bucket : string) (video : Job).

(** A property of every event of a run, from that of the events each path
    produces: the stages with the paths tmp gave, and the upload phase with
    the metadata the probe found. *)
Lemma always_on_video_exact (P : Event -> Prop) :
  P (Log (NewVideo video)) ->
  P TmpFile ->
  (forall video_path, tmp_file W = inr video_path ->
     P (HttpGet (job_uri video) video_path) /\ P (FfmpegOpen video_path) /\ P TmpDir) ->
  (forall video_path dir_path videoUri,
     tmp_file W = inr video_path -> tmp_dir W = inr dir_path ->
     g_videoUri G = Some videoUri ->
     P (FfmpegExtract video_path
          (filePattern video_path (Str.substring1 (Path.extname videoUri)) dir_path))
     /\ P CleanupFile) ->
  (forall err, always P (handleError (Worker.segmenter_of W video)
                           (Worker.on_processed video) err)) ->
  always P (upload_and_finish G W (Worker.segmenter_of W video) (job_uri video) bucket
              (probed W) (Worker.on_processed video)) ->
  always P (Worker.on_video G W bucket video).
Proof.
  intros Hnew Hfile Hearly Hlate Herr Hup. unfold Worker.on_video.
  apply always_bind; [by apply always_tell |]. intros _ _.
  unfold downloadAndExtractToS3. cbv zeta. cbn [from_option id default].
  apply always_bind; [by apply always_tell |]. intros _ _.
  destruct (tmp_file W) as [e | video_path] eqn:Htmp; [apply Herr |].
  destruct (Hearly video_path eq_refl) as (Hget & Hopen & Hdir).
  unfold downloadToLocal. apply always_bind; [by apply always_tell |]. intros _ _.
  apply always_bind.
  { destruct (response (http W)) as [[statusCode content_type] |]; [| apply always_ret].
    unfold download_on_response. destruct (negb _); [| apply always_ret].
    apply always_bind; [apply Herr | intros; apply always_ret]. }
  intros [error contentType] _. cbn [fst snd]. unfold download_on_error, download_on_finish.
  destruct (ending (http W)) as [e | close_error]; [apply Herr |].
  destruct error; [apply always_ret |].
  destruct close_error; [apply Herr |].
  unfold getVideoMetadata. apply always_bind; [by apply always_tell |]. intros _ _.
  assert (forall err,
            always P (after_probe G W (Worker.segmenter_of W video) (job_uri video) bucket
                        video_path (Worker.on_processed video) err (probed W))) as Hafter.
  { intros err. unfold after_probe. apply always_bind; [by apply always_tell |]. intros _ _.
    destruct (tmp_dir W) as [e | dir_path] eqn:Hd; [apply Herr |].
    destruct (g_videoUri G) as [videoUri |] eqn:Hv; [| apply always_throw].
    destruct (Hlate video_path dir_path videoUri eq_refl eq_refl eq_refl) as [Hx Hc].
    rewrite bind_lookup_global. unfold extractSegments.
    apply always_bind; [by apply always_tell |]. intros _ _.
    assert (forall e, always P (tell CleanupFile;;
                                handleError (Worker.segmenter_of W video)
                                  (Worker.on_processed video) e)) as Hfail.
    { intros e. apply always_bind; [by apply always_tell | intros; apply Herr]. }
    destruct (ffmpeg_extract W) as [e | e | [e | files]]; try apply Hfail.
    - apply always_bind; [by apply always_tell |]. intros _ _. apply Hfail.
    - apply always_bind; [by apply always_tell |]. intros _ _.
      apply always_bind; [by apply always_tell |]. intros _ _. apply Hup. }
  unfold probed in Hafter. destruct (ffmpeg_probe W); apply Hafter.
Qed.

Lemma handleError_other (P : Event -> Prop) (err : JsError) :
  P (EmitError err) -> P (ConsoleError err) -> P (Return (Some err) None) ->
  P (Log (ProcessingCompleted (job_uri video))) -> P MsgFinish ->
  P (Log (ProcessingFailed (job_uri video) err)) ->
  always P (handleError (Worker.segmenter_of W video) (Worker.on_processed video) err).
Proof.
  intros. rewrite handleError_worker. unfold always. simpl.
  destruct (is_fatal err); by repeat constructor.
Qed.
End DataFlow.

(** X19: the stages of a run work on the files of the job: the download writes
    the URI of the job to the temporary file that tmp made, ffmpeg opens
    that file for the probe and for the extraction, and the frames are
    extracted into the temporary directory that tmp made, under the
    pattern made of the name of the temporary file and of the extension of
    the global [videoUri] (not of the URI of the job). *)
Theorem stages_work_on_the_files_of_the_job (G : Globals) (W : World) (bucket : string)
    (video : Job) :
  always (on_job_files G W (job_uri video)) (Worker.on_video G W bucket video).
Proof.
  apply always_on_video_exact; try done.
  - intros video_path dir_path videoUri Hf Hd Hv. split; [| done].
    split; [done |]. by exists dir_path, videoUri.
  - intros err. by apply handleError_other.
  - apply always_upload_and_finish.
    + intros err. by apply handleError_other.
    + intros frames t _ _. split.
      * rewrite processSegment_cases. destruct (g_contentType G); by repeat constructor.
      * rewrite processSegment_done_worker.
        destruct (s3_upload W (task_no t)); [constructor |].
        destruct (g_shivaUtils G); [| constructor].
        destruct (pattern_exec _); [| constructor].
        unfold always. cbv zeta. simpl. destruct (bus_publish W _); by repeat constructor.
    + done.
    + intros res _ _. split; [done |]. unfold always. simpl. by repeat constructor.
Qed.
Section ProbedFps.
Context (G : Globals) (W : World) (bucket : string) (video : Job).

(** The tasks carry the fps that the probe found; without metadata there
    is no task. *)
Lemma segmentTasks_fps (frames : list string) (tasks : list Task) (t : Task) :
  outcome (segmentTasks frames (probed W)) = inr tasks -> t ∈ tasks ->
  exists m, ffmpeg_probe W = Resolves m /\ task_fps t = video_fps m.
Proof.
  unfold probed. destruct (ffmpeg_probe W) as [e | e | m].
  1, 2: rewrite segmentTasks_unprobed; destruct frames; [| done];
    by intros [= <-] ?%elem_of_nil.
  rewrite segmentTasks_probed. intros [= <-] (i & f & -> & _)%elem_of_lookup_imap.
  by exists m.
Qed.

Lemma upload_and_finish_fps :
  always (carries_probed_fps W)
    (upload_and_finish G W (Worker.segmenter_of W video) (job_uri video) bucket (probed W)
       (Worker.on_processed video)).
Proof.
  unfold upload_and_finish.
  destruct (g_frames G) as [frames |]; [| apply always_throw].
  rewrite bind_lookup_global.
  destruct (segmentTasks_spec frames (probed W)) as [Ht _].
  pose proof (segmentTasks_fps frames) as Hfps.
  apply always_bind; [unfold always; rewrite Ht; constructor |].
  intros tasks Htasks. specialize (Hfps tasks).
  assert (forall t, t ∈ tasks ->
            always (carries_probed_fps W)
              (processSegment_done G W (Worker.segmenter_of W video) bucket
                 (s3_dir_of (job_uri video)) t)) as Hdone.
  { intros t Ht'. destruct (Hfps t Htasks Ht') as (m & Hm & Hf).
    rewrite processSegment_done_worker.
    destruct (s3_upload W (task_no t)); [constructor |].
    destruct (g_shivaUtils G); [| constructor]. destruct (pattern_exec _); [| constructor].
    unfold always. cbv zeta. simpl.
    destruct (bus_publish W _); repeat constructor; by exists m. }
  apply always_bind.
  { apply always_series; intros b t Hb Hin.
    - rewrite processSegment_cases. destruct (g_contentType G); by repeat constructor.
    - eapply Hdone, elem_of_batches; eauto. }
  intros [results | err in_flight] Hout.
  - apply always_bind; [by apply always_tell |]. intros _ _.
    destruct (g_sequencer G); [| apply always_throw]. rewrite bind_lookup_global.
    apply always_bind; [by apply always_tell |]. intros _ _.
    unfold always. simpl. by repeat constructor.
  - destruct (series_failed _ _ _ _ _ _ Hout) as [Hfl _].
    apply always_bind; [by apply handleError_other |]. intros _ _.
    apply always_stragglers. intros t Ht'.
    destruct (Hfl t Ht') as (b & Hb & Hin). eapply Hdone, elem_of_batches; eauto.
Qed.
End ProbedFps.

(** X20: every segment, emitted or published, carries the fps that the probe
    found in the downloaded file; after a failed probe no segment is ever
    emitted or published. *)
Theorem segments_carry_the_probed_fps (G : Globals) (W : World) (bucket : string)
    (video : Job) :
  always (carries_probed_fps W) (Worker.on_video G W bucket video).
Proof.
  apply always_on_video_exact; try done.
  - intros err. by apply handleError_other.
  - apply upload_and_finish_fps.
Qed.
(** ** A segmenter without an error listener *)

#[export] Instance no_error_returned_additive : Additive no_error_returned.
Proof.
  split; [done |]. unfold no_error_returned. intros t1 t2 H1 H2.
  by rewrite returned_errors_app, H1, H2.
Qed.

(** X21: a segmenter on which no ['error'] listener was set never hands an
    error to the callback: [handleError] emits the error event first, and
    an error event without a listener is thrown by the emitter, so the call
    of the callback after it is never reached. *)
Theorem errors_need_a_listener (G : Globals) (W : World) (options_batchSize : option Z)
    (video_uri s3_bucket : string) (fn : Callback JobResult) :
  (forall err res, returned_errors (trace (fn err res)) = []) ->
  let segmenter := new_Segmenter options_batchSize in
  (forall err, handleError segmenter fn err = ([EmitError err], inl (Unhandled err)))
  /\ returned_errors
       (trace (downloadAndExtractToS3 G W segmenter video_uri s3_bucket (Some fn))) = [].
Proof.
  intros Hfn. cbv zeta. split; [done |].
  apply (holds_downloadAndExtractToS3 no_error_returned).
  - intros e He _. by destruct e.
  - intros _ e He. by destruct e.
  - done.
  - intros metadata _. apply (holds_upload_and_finish no_error_returned).
    + done.
    + intros frames t _ _. split.
      * rewrite processSegment_cases. by destruct (g_contentType G).
      * unfold processSegment_done, uploadToS3_done.
        destruct (s3_upload W (task_no t)); [done |].
        destruct (g_shivaUtils G); [| done]. rewrite bind_lookup_global, bind_ret_l.
        by destruct (pattern_exec _).
    + done.
    + intros res _ _. split; [done |].
      unfold holds, no_error_returned, invoke. rewrite bind_tell. apply Hfn.
Qed.

Lemma errors_need_a_listener_witness :
  let segmenter := new_Segmenter None in
  (forall err, handleError segmenter (Worker.on_processed Sample.job) err
               = ([EmitError err], inl (Unhandled err)))
  /\ returned_errors
       (trace (downloadAndExtractToS3 Sample.patched Sample.not_found segmenter
                 "https://host/movie.mp4" "bucket"
                 (Some (Worker.on_processed Sample.job)))) = [].
Proof.
  apply (errors_need_a_listener Sample.patched Sample.not_found None
           "https://host/movie.mp4" "bucket" (Worker.on_processed Sample.job)).
  intros [err |] res; [| reflexivity].
  unfold Worker.on_processed. destruct (is_fatal err); reflexivity.
Defined.
(** ** The batches *)

(** Every batch before the last is full. *)
Lemma batches_full {A} (l : list A) (batchSize : Z) (i : nat) (b : list A) :
  1 <= batchSize ->
  Z.of_nat i < Z.of_nat (length l) / batchSize ->
  batches batchSize l !! i = Some b ->
  Z.of_nat (length b) = batchSize.
Proof.
  intros Hb Hi. unfold batches. cbv zeta. rewrite list_lookup_fmap.
  assert (0 <= Z.of_nat (length l) / batchSize) by (apply Z.div_pos; lia).
  rewrite lookup_seqZ_lt by lia. cbn [fmap option_fmap option_map].
  intros [= <-]. rewrite Z.add_0_l, batch_within by lia.
  rewrite length_take, length_drop.
  assert ((Z.of_nat i + 1) * batchSize <= Z.of_nat (length l)).
  { transitivity (Z.of_nat (length l) / batchSize * batchSize); [nia |].
    rewrite Z.mul_comm. apply Z.mul_div_le. lia. }
  lia.
Qed.

(** X22: for a batch size of at least 1 the batches are a partition of the
    tasks into consecutive runs: put end to end they give the tasks back, in
    order; there are ⌊n / batchSize⌋ + 1 of them; every one before the last
    holds exactly [batchSize] tasks, and the last holds the
    [n mod batchSize] that are left (none when [batchSize] divides [n]). *)
Theorem batches_partition_the_tasks {A} (l : list A) (batchSize : Z) :
  1 <= batchSize ->
  let n := Z.of_nat (length l) in
  concat (batches batchSize l) = l
  /\ Z.of_nat (length (batches batchSize l)) = n / batchSize + 1
  /\ (forall i b, Z.of_nat i < n / batchSize -> batches batchSize l !! i = Some b ->
        Z.of_nat (length b) = batchSize)
  /\ exists b, last (batches batchSize l) = Some b /\ Z.of_nat (length b) = n mod batchSize.
Proof.
  intros Hb. cbv zeta. split; [by apply batches_concat |].
  split; [by apply batches_length |].
  split; [intros i b; by apply batches_full | by apply batches_last].
Qed.

Lemma batches_partition_the_tasks_witness :
  let l := ["a"; "b"; "c"; "d"; "e"] in
  let n := Z.of_nat (length l) in
  concat (batches 2 l) = l
  /\ Z.of_nat (length (batches 2 l)) = n / 2 + 1
  /\ (forall i b, Z.of_nat i < n / 2 -> batches 2 l !! i = Some b -> Z.of_nat (length b) = 2)
  /\ exists b, last (batches 2 l) = Some b /\ Z.of_nat (length b) = n mod 2.
Proof.
  apply (batches_partition_the_tasks ["a"; "b"; "c"; "d"; "e"] 2). lia.
Defined.
